(** * PAK and UTOC container readers: a shallow embedding

  The two decoders of the repository, [pak::PakReader] (pak_reader.cpp)
  and [utoc::UtocReader] (utoc_reader.cpp), are transcribed as Rocq
  functions over byte lists.  Integers are [Z] with the C++ width and
  wrap-around written out; the host is little-endian, as the formats
  are. *)

From Stdlib Require Import ZArith List Strings.String Strings.Ascii Strings.Byte Bool Lia.
From Stdlib Require Import Init.Byte.
From Stdlib Require Import Sorted Permutation.
Import ListNotations.
Local Open Scope Z_scope.

(** ** Bytes and little-endian integers *)

Module Wire.

Definition byte_to_Z (b : byte) : Z := Z.of_N (Byte.to_N b).

Definition byte_of_Z (z : Z) : byte :=
  match Byte.of_N (Z.to_N (z mod 256)) with
  | Some b => b
  | None => x00
  end.

(** The value of a little-endian byte sequence, as [memcpy] into a
    zero-initialised unsigned integer gives it. *)
Fixpoint le_to_Z (bs : list byte) : Z :=
  match bs with
  | [] => 0
  | b :: rest => byte_to_Z b + 256 * le_to_Z rest
  end.

(** The [n] low bytes of [v], least significant first. *)
Fixpoint Z_to_le (n : nat) (v : Z) : list byte :=
  match n with
  | O => []
  | S k => byte_of_Z v :: Z_to_le k (v / 256)
  end.

(** Two's-complement reading of a [bits]-wide unsigned value. *)
Definition to_signed (bits : Z) (v : Z) : Z :=
  if v <? 2 ^ (bits - 1) then v else v - 2 ^ bits.

(** Unsigned arithmetic of width [bits]. *)
Definition wrap (bits : Z) (v : Z) : Z := v mod 2 ^ bits.

Definition char_of_byte (b : byte) : ascii := ascii_of_byte b.
Definition char_of_Z (z : Z) : ascii := ascii_of_byte (byte_of_Z z).

Fixpoint string_of_bytes (bs : list byte) : string :=
  match bs with
  | [] => EmptyString
  | b :: rest => String (char_of_byte b) (string_of_bytes rest)
  end.

Fixpoint bytes_of_string (s : string) : list byte :=
  match s with
  | EmptyString => []
  | String c rest => byte_of_ascii c :: bytes_of_string rest
  end.

(** The prefix of a buffer before its first NUL (all of it when there is
    none). *)
Fixpoint until_nul (bs : list byte) : list byte :=
  match bs with
  | [] => []
  | b :: rest => if Byte.eqb b x00 then [] else b :: until_nul rest
  end.

Definition has_nul (bs : list byte) : bool :=
  existsb (fun b => Byte.eqb b x00) bs.

(** [std::vector::resize]: keeps the elements it has, value-initialises
    the new ones. *)
Definition resize {A} (n : nat) (d : A) (l : list A) : list A :=
  firstn n l ++ repeat d (n - List.length l).

End Wire.

Notation "x <-? a ;; b" :=
(match a with Some x => b | None => None end)
(at level 61, a at next level, right associativity).
Notation "' ( x , y ) <-? a ;; b" :=
(match a with Some (x, y) => b | None => None end)
(at level 61, x name, y name, a at next level, right associativity).

(** ** utoc_reader.h / utoc_reader.cpp *)

Module Utoc.
Import Wire.

(** [enum class EIoStoreTocVersion : uint8_t].  The header is filled by
    [memcpy], so the field holds any byte; comparisons are on the
    underlying value. *)
Inductive EIoStoreTocVersion : Type :=
| Invalid | Initial | DirectoryIndex | PartitionSize | PerfectHash
| PerfectHashWithOverflow | OnDemandMetaData | RemovedOnDemandMetaData
| ReplaceIoChunkHashWithIoHash.

Definition version_value (v : EIoStoreTocVersion) : Z :=
  match v with
  | Invalid => 0 | Initial => 1 | DirectoryIndex => 2 | PartitionSize => 3
  | PerfectHash => 4 | PerfectHashWithOverflow => 5 | OnDemandMetaData => 6
  | RemovedOnDemandMetaData => 7 | ReplaceIoChunkHashWithIoHash => 8
  end.

Definition version_of_value (z : Z) : option EIoStoreTocVersion :=
  match z with
  | 0 => Some Invalid | 1 => Some Initial | 2 => Some DirectoryIndex
  | 3 => Some PartitionSize | 4 => Some PerfectHash
  | 5 => Some PerfectHashWithOverflow | 6 => Some OnDemandMetaData
  | 7 => Some RemovedOnDemandMetaData
  | 8 => Some ReplaceIoChunkHashWithIoHash
  | _ => None
  end.

(** [enum class EIoContainerFlags : uint8_t], as bit masks. *)
Definition Compressed : Z := 1.
Definition Encrypted : Z := 2.
Definition Signed : Z := 4.
Definition Indexed : Z := 8.

(** [FIoStoreTocHeader::MAGIC]: the sixteen characters -==--==--==--==- *)
Definition MAGIC : list byte :=
  [x2d; x3d; x3d; x2d; x2d; x3d; x3d; x2d;
   x2d; x3d; x3d; x2d; x2d; x3d; x3d; x2d].

Record FIoStoreTocHeader : Type := {
  toc_magic : list byte;
  version : Z;
  reserved0 : Z;
  reserved1 : Z;
  toc_header_size : Z;
  toc_entry_count : Z;
  toc_compressed_block_entry_count : Z;
  toc_compressed_block_entry_size : Z;
  compression_method_name_count : Z;
  compression_method_name_length : Z;
  compression_block_size : Z;
  directory_index_size : Z;
  partition_count : Z;
  container_id : Z;
  encryption_key_guid : list byte;
  container_flags : Z;
  reserved3 : Z;
  reserved4 : Z;
  toc_chunk_perfect_hash_seeds_count : Z;
  partition_size : Z;
  toc_chunks_without_perfect_hash_count : Z;
  reserved7 : Z;
  reserved8 : list byte
}.

Definition IsValid (h : FIoStoreTocHeader) : bool :=
  if list_eq_dec Byte.byte_eq_dec (toc_magic h) MAGIC then true else false.
Definition has_flag (h : FIoStoreTocHeader) (flag : Z) : bool :=
  negb (Z.land (container_flags h) flag =? 0).
Definition IsEncrypted (h : FIoStoreTocHeader) : bool := has_flag h Encrypted.
Definition IsSigned (h : FIoStoreTocHeader) : bool := has_flag h Signed.
Definition IsIndexed (h : FIoStoreTocHeader) : bool := has_flag h Indexed.
Definition IsCompressed (h : FIoStoreTocHeader) : bool := has_flag h Compressed.

Record FIoStoreTocEntryMeta : Type := {
  chunk_hash : list byte;     (* FIoChunkHash: 32 bytes *)
  flags : Z
}.

Record FIoDirectoryIndexEntry : Type := {
  name : option Z;
  first_child_entry : option Z;
  next_sibling_entry : option Z;
  first_file_entry : option Z
}.

Record FIoFileIndexEntry : Type := {
  file_name : Z;
  next_file_entry : option Z;
  user_data : Z
}.

Record FIoDirectoryIndexResource : Type := {
  mount_point : string;
  directory_entries : list FIoDirectoryIndexEntry;
  file_entries : list FIoFileIndexEntry;
  string_table : list string
}.

Record UtocReader : Type := {
  header_ : FIoStoreTocHeader;
  chunk_ids_ : list (list byte);
  chunk_offset_lengths_ : list (list byte);
  chunk_perfect_hash_seeds_ : list Z;
  chunk_indices_without_perfect_hash_ : list Z;
  compression_blocks_ : list (list byte);
  compression_methods_ : list string;
  chunk_metas_ : list FIoStoreTocEntryMeta;
  directory_index_ : FIoDirectoryIndexResource;
  file_map_ : list (Z * string)
}.

(** *** Reading from a byte array

    [memcpy] from [data + offset] is defined only inside the array; a
    read that leaves it is undefined behaviour and is [None] here.  The
    source makes no bounds check of its own. *)

Definition slice (data : list byte) (offset n : Z) : option (list byte) :=
  if (0 <=? offset) && (0 <=? n) && (offset + n <=? Z.of_nat (List.length data))
  then Some (firstn (Z.to_nat n) (skipn (Z.to_nat offset) data))
  else None.

(** [ReadValue<T>] for an unsigned [T] of [sz] bytes: the value and the
    advanced offset. *)
Definition ReadValue (sz : Z) (data : list byte) (offset : Z) : option (Z * Z) :=
  bs <-? slice data offset sz ;;
  Some (le_to_Z bs, offset + sz).

Definition UINT32_MAX : Z := 4294967295.

Definition ReadOptional (data : list byte) (offset : Z) : option (option Z * Z) :=
  '(value, off) <-? ReadValue 4 data offset ;;
  if value =? UINT32_MAX then Some (None, off) else Some (Some value, off).

(** The loop of [ReadString] over the declared code units: it stops at
    the first zero unit, which [ReadValue] has already stepped over. *)
Fixpoint read_units (n : nat) (data : list byte) (offset : Z) (utf16 : list Z)
  : option (list Z * Z) :=
  match n with
  | O => Some (utf16, offset)
  | S k =>
      '(c, off) <-? ReadValue 2 data offset ;;
      if c =? 0 then Some (utf16, off)
      else read_units k data off (utf16 ++ [c])
  end.

(** The "simplified" UTF-16 to UTF-8 conversion (no surrogate pairs). *)
Definition utf8_of_unit (c : Z) : list ascii :=
  if c <? 128 then [char_of_Z c]
  else if c <? 2048 then
    [char_of_Z (Z.lor 192 (Z.shiftr c 6));
     char_of_Z (Z.lor 128 (Z.land c 63))]
  else
    [char_of_Z (Z.lor 224 (Z.shiftr c 12));
     char_of_Z (Z.lor 128 (Z.land (Z.shiftr c 6) 63));
     char_of_Z (Z.lor 128 (Z.land c 63))].

Definition utf8_of_units (cs : list Z) : string :=
  string_of_list_ascii (flat_map utf8_of_unit cs).

Definition ReadString (data : list byte) (offset : Z) : option (string * Z) :=
  '(raw, off) <-? ReadValue 4 data offset ;;
  let length := to_signed 32 raw in
  if length =? 0 then Some (EmptyString, off)
  else if length <? 0 then
    (* [length = -length] overflows for INT32_MIN *)
    if length =? - 2 ^ 31 then None
    else
      let length := - length in
      '(utf16, off1) <-? read_units (Z.to_nat length) data off [] ;;
      let size := Z.of_nat (List.length utf16) in
      let off2 := if size <? length then off1 + (length - size) * 2 else off1 in
      Some (utf8_of_units utf16, off2)
  else
    bs <-? slice data off length ;;
    Some (string_of_bytes (until_nul bs), off + length).


(** *** The header: 144 bytes copied over the struct *)

Definition field (hb : list byte) (off n : nat) : list byte :=
  firstn n (skipn off hb).
Definition ufield (hb : list byte) (off n : nat) : Z := le_to_Z (field hb off n).

Definition parse_header (hb : list byte) : FIoStoreTocHeader :=
  {| toc_magic := field hb 0 16;
     version := ufield hb 16 1;
     reserved0 := ufield hb 17 1;
     reserved1 := ufield hb 18 2;
     toc_header_size := ufield hb 20 4;
     toc_entry_count := ufield hb 24 4;
     toc_compressed_block_entry_count := ufield hb 28 4;
     toc_compressed_block_entry_size := ufield hb 32 4;
     compression_method_name_count := ufield hb 36 4;
     compression_method_name_length := ufield hb 40 4;
     compression_block_size := ufield hb 44 4;
     directory_index_size := ufield hb 48 4;
     partition_count := ufield hb 52 4;
     container_id := ufield hb 56 8;
     encryption_key_guid := field hb 64 16;
     container_flags := ufield hb 80 1;
     reserved3 := ufield hb 81 1;
     reserved4 := ufield hb 82 2;
     toc_chunk_perfect_hash_seeds_count := ufield hb 84 4;
     partition_size := ufield hb 88 8;
     toc_chunks_without_perfect_hash_count := ufield hb 96 4;
     reserved7 := ufield hb 100 4;
     reserved8 := field hb 104 40 |}.

Definition sizeof_FIoStoreTocHeader : Z := 144.
Definition sizeof_FIoChunkId : Z := 12.
Definition sizeof_FIoOffsetAndLength : Z := 10.
Definition sizeof_FIoStoreTocCompressedBlockEntry : Z := 12.
Definition sizeof_FIoChunkHash : Z := 32.

(** [n] consecutive records of [sz] bytes. *)
Fixpoint records (sz n : nat) (bs : list byte) : list (list byte) :=
  match n with
  | O => []
  | S k => firstn sz bs :: records sz k (skipn sz bs)
  end.

Definition int32s (n : nat) (bs : list byte) : list Z :=
  map (fun b => to_signed 32 (le_to_Z b)) (records 4 n bs).

(** *** Setters for the members [Open] assigns *)

Definition set_header_ (r : UtocReader) (h : FIoStoreTocHeader) : UtocReader :=
  {| header_ := h; chunk_ids_ := chunk_ids_ r;
     chunk_offset_lengths_ := chunk_offset_lengths_ r;
     chunk_perfect_hash_seeds_ := chunk_perfect_hash_seeds_ r;
     chunk_indices_without_perfect_hash_ := chunk_indices_without_perfect_hash_ r;
     compression_blocks_ := compression_blocks_ r;
     compression_methods_ := compression_methods_ r;
     chunk_metas_ := chunk_metas_ r;
     directory_index_ := directory_index_ r; file_map_ := file_map_ r |}.

Definition set_chunk_ids_ (r : UtocReader) (v : list (list byte)) : UtocReader :=
  {| header_ := header_ r; chunk_ids_ := v;
     chunk_offset_lengths_ := chunk_offset_lengths_ r;
     chunk_perfect_hash_seeds_ := chunk_perfect_hash_seeds_ r;
     chunk_indices_without_perfect_hash_ := chunk_indices_without_perfect_hash_ r;
     compression_blocks_ := compression_blocks_ r;
     compression_methods_ := compression_methods_ r;
     chunk_metas_ := chunk_metas_ r;
     directory_index_ := directory_index_ r; file_map_ := file_map_ r |}.

Definition set_chunk_offset_lengths_ (r : UtocReader) (v : list (list byte)) : UtocReader :=
  {| header_ := header_ r; chunk_ids_ := chunk_ids_ r;
     chunk_offset_lengths_ := v;
     chunk_perfect_hash_seeds_ := chunk_perfect_hash_seeds_ r;
     chunk_indices_without_perfect_hash_ := chunk_indices_without_perfect_hash_ r;
     compression_blocks_ := compression_blocks_ r;
     compression_methods_ := compression_methods_ r;
     chunk_metas_ := chunk_metas_ r;
     directory_index_ := directory_index_ r; file_map_ := file_map_ r |}.

Definition set_chunk_perfect_hash_seeds_ (r : UtocReader) (v : list Z) : UtocReader :=
  {| header_ := header_ r; chunk_ids_ := chunk_ids_ r;
     chunk_offset_lengths_ := chunk_offset_lengths_ r;
     chunk_perfect_hash_seeds_ := v;
     chunk_indices_without_perfect_hash_ := chunk_indices_without_perfect_hash_ r;
     compression_blocks_ := compression_blocks_ r;
     compression_methods_ := compression_methods_ r;
     chunk_metas_ := chunk_metas_ r;
     directory_index_ := directory_index_ r; file_map_ := file_map_ r |}.

Definition set_chunk_indices_without_perfect_hash_ (r : UtocReader) (v : list Z)
  : UtocReader :=
  {| header_ := header_ r; chunk_ids_ := chunk_ids_ r;
     chunk_offset_lengths_ := chunk_offset_lengths_ r;
     chunk_perfect_hash_seeds_ := chunk_perfect_hash_seeds_ r;
     chunk_indices_without_perfect_hash_ := v;
     compression_blocks_ := compression_blocks_ r;
     compression_methods_ := compression_methods_ r;
     chunk_metas_ := chunk_metas_ r;
     directory_index_ := directory_index_ r; file_map_ := file_map_ r |}.

Definition set_compression_blocks_ (r : UtocReader) (v : list (list byte)) : UtocReader :=
  {| header_ := header_ r; chunk_ids_ := chunk_ids_ r;
     chunk_offset_lengths_ := chunk_offset_lengths_ r;
     chunk_perfect_hash_seeds_ := chunk_perfect_hash_seeds_ r;
     chunk_indices_without_perfect_hash_ := chunk_indices_without_perfect_hash_ r;
     compression_blocks_ := v;
     compression_methods_ := compression_methods_ r;
     chunk_metas_ := chunk_metas_ r;
     directory_index_ := directory_index_ r; file_map_ := file_map_ r |}.

Definition set_compression_methods_ (r : UtocReader) (v : list string) : UtocReader :=
  {| header_ := header_ r; chunk_ids_ := chunk_ids_ r;
     chunk_offset_lengths_ := chunk_offset_lengths_ r;
     chunk_perfect_hash_seeds_ := chunk_perfect_hash_seeds_ r;
     chunk_indices_without_perfect_hash_ := chunk_indices_without_perfect_hash_ r;
     compression_blocks_ := compression_blocks_ r;
     compression_methods_ := v;
     chunk_metas_ := chunk_metas_ r;
     directory_index_ := directory_index_ r; file_map_ := file_map_ r |}.

Definition set_chunk_metas_ (r : UtocReader) (v : list FIoStoreTocEntryMeta) : UtocReader :=
  {| header_ := header_ r; chunk_ids_ := chunk_ids_ r;
     chunk_offset_lengths_ := chunk_offset_lengths_ r;
     chunk_perfect_hash_seeds_ := chunk_perfect_hash_seeds_ r;
     chunk_indices_without_perfect_hash_ := chunk_indices_without_perfect_hash_ r;
     compression_blocks_ := compression_blocks_ r;
     compression_methods_ := compression_methods_ r;
     chunk_metas_ := v;
     directory_index_ := directory_index_ r; file_map_ := file_map_ r |}.

Definition set_directory (r : UtocReader) (d : FIoDirectoryIndexResource)
    (fm : list (Z * string)) : UtocReader :=
  {| header_ := header_ r; chunk_ids_ := chunk_ids_ r;
     chunk_offset_lengths_ := chunk_offset_lengths_ r;
     chunk_perfect_hash_seeds_ := chunk_perfect_hash_seeds_ r;
     chunk_indices_without_perfect_hash_ := chunk_indices_without_perfect_hash_ r;
     compression_blocks_ := compression_blocks_ r;
     compression_methods_ := compression_methods_ r;
     chunk_metas_ := chunk_metas_ r;
     directory_index_ := d; file_map_ := fm |}.

(** *** ParseDirectoryIndex *)

Fixpoint read_directory_entries (n : nat) (data : list byte) (offset : Z)
  : option (list FIoDirectoryIndexEntry * Z) :=
  match n with
  | O => Some ([], offset)
  | S k =>
      '(nm, o1) <-? ReadOptional data offset ;;
      '(child, o2) <-? ReadOptional data o1 ;;
      '(sibling, o3) <-? ReadOptional data o2 ;;
      '(file, o4) <-? ReadOptional data o3 ;;
      '(rest, o5) <-? read_directory_entries k data o4 ;;
      Some ({| name := nm; first_child_entry := child;
               next_sibling_entry := sibling; first_file_entry := file |} :: rest, o5)
  end.

(** [file_map_[key] = ""] on the unordered map. *)
Fixpoint file_map_assign (key : Z) (m : list (Z * string)) : list (Z * string) :=
  match m with
  | [] => [(key, EmptyString)]
  | (k, v) :: rest =>
      if k =? key then (k, EmptyString) :: rest
      else (k, v) :: file_map_assign key rest
  end.

Fixpoint read_file_entries (n : nat) (data : list byte) (offset : Z)
    (fm : list (Z * string))
  : option (list FIoFileIndexEntry * list (Z * string) * Z) :=
  match n with
  | O => Some ([], fm, offset)
  | S k =>
      '(nm, o1) <-? ReadValue 4 data offset ;;
      '(next, o2) <-? ReadOptional data o1 ;;
      '(ud, o3) <-? ReadValue 4 data o2 ;;
      match read_file_entries k data o3 (file_map_assign ud fm) with
      | Some (rest, fm', o4) =>
          Some ({| file_name := nm; next_file_entry := next; user_data := ud |} :: rest,
                fm', o4)
      | None => None
      end
  end.

Fixpoint read_strings (n : nat) (data : list byte) (offset : Z)
  : option (list string * Z) :=
  match n with
  | O => Some ([], offset)
  | S k =>
      '(s, o1) <-? ReadString data offset ;;
      '(rest, o2) <-? read_strings k data o1 ;;
      Some (s :: rest, o2)
  end.

(** Always answers [true]: no index read from the buffer is checked. *)
Definition ParseDirectoryIndex (r : UtocReader) (data : list byte)
  : option (bool * UtocReader) :=
  let offset := 0 in
  '(mount, offset) <-? ReadString data offset ;;
  '(directoryEntryCount, offset) <-? ReadValue 4 data offset ;;
  '(dirs, offset) <-? read_directory_entries (Z.to_nat directoryEntryCount) data offset ;;
  '(fileEntryCount, offset) <-? ReadValue 4 data offset ;;
  match read_file_entries (Z.to_nat fileEntryCount) data offset (file_map_ r) with
  | None => None
  | Some (files, fm, offset) =>
      '(stringCount, offset) <-? ReadValue 4 data offset ;;
      '(strings, offset) <-? read_strings (Z.to_nat stringCount) data offset ;;
      Some (true,
            set_directory r
              {| mount_point := mount; directory_entries := dirs;
                 file_entries := files; string_table := strings |} fm)
  end.

(** *** Open *)

(** The loop over the compression-method names: each is copied into
    [char methodName[32] = {0}] and read back as a C string. *)
Fixpoint read_methods (n : nat) (data : list byte) (len : Z) (offset : Z)
  : option (list string * Z) :=
  match n with
  | O => Some ([], offset)
  | S k =>
      bs <-? slice data offset len ;;
      if 32 <? len then None
      else
        let methodName := bs ++ repeat x00 (32 - List.length bs) in
        if has_nul methodName then
          '(rest, off) <-? read_methods k data len (offset + len) ;;
          Some (string_of_bytes (until_nul methodName) :: rest, off)
        else None
  end.

(** One round of the chunk-metadata loop (lines 238-248). *)
Definition read_meta (ver : Z) (data : list byte) (m : FIoStoreTocEntryMeta)
    (offset : Z) : option (FIoStoreTocEntryMeta * Z) :=
  if version_value ReplaceIoChunkHashWithIoHash <=? ver then
    h <-? slice data offset 20 ;;
    let offset := offset + 20 in
    '(fl, offset) <-? ReadValue 1 data offset ;;
    let offset := offset + 4 in
    Some ({| chunk_hash := h ++ skipn 20 (chunk_hash m); flags := fl |}, offset)
  else
    h <-? slice data offset sizeof_FIoChunkHash ;;
    let offset := offset + sizeof_FIoChunkHash in
    '(fl, offset) <-? ReadValue 1 data offset ;;
    let offset := offset + 1 in
    Some ({| chunk_hash := h; flags := fl |}, offset).

Fixpoint read_metas (ver : Z) (data : list byte) (metas : list FIoStoreTocEntryMeta)
    (offset : Z) : option (list FIoStoreTocEntryMeta * Z) :=
  match metas with
  | [] => Some ([], offset)
  | m :: rest =>
      '(m', off) <-? read_meta ver data m offset ;;
      '(rest', off') <-? read_metas ver data rest off ;;
      Some (m' :: rest', off')
  end.

Definition zero_meta : FIoStoreTocEntryMeta :=
  {| chunk_hash := repeat x00 32; flags := 0 |}.

(** The hash-map section (lines 183-195). *)
Definition read_hash_map (r : UtocReader) (fileData : list byte) (offset : Z)
  : option (UtocReader * Z) :=
  let h := header_ r in
  if version_value PerfectHashWithOverflow <=? version h then
    seeds <-? slice fileData offset (toc_chunk_perfect_hash_seeds_count h * 4) ;;
    let r := set_chunk_perfect_hash_seeds_ r
               (int32s (Z.to_nat (toc_chunk_perfect_hash_seeds_count h)) seeds) in
    let offset := offset + toc_chunk_perfect_hash_seeds_count h * 4 in
    idx <-? slice fileData offset (toc_chunks_without_perfect_hash_count h * 4) ;;
    let r := set_chunk_indices_without_perfect_hash_ r
               (int32s (Z.to_nat (toc_chunks_without_perfect_hash_count h)) idx) in
    Some (r, offset + toc_chunks_without_perfect_hash_count h * 4)
  else if version_value PerfectHash <=? version h then
    seeds <-? slice fileData offset (toc_chunk_perfect_hash_seeds_count h * 4) ;;
    let r := set_chunk_perfect_hash_seeds_ r
               (int32s (Z.to_nat (toc_chunk_perfect_hash_seeds_count h)) seeds) in
    Some (r, offset + toc_chunk_perfect_hash_seeds_count h * 4)
  else Some (r, offset).

(** The chunk-metadata section, which ends [Open] (lines 236-251). *)
Definition read_chunk_metadata (r : UtocReader) (fileData : list byte) (offset : Z)
  : option (bool * UtocReader) :=
  let h := header_ r in
  let resized := resize (Z.to_nat (toc_entry_count h)) zero_meta (chunk_metas_ r) in
  '(metas, offset) <-? read_metas (version h) fileData resized offset ;;
  Some (true, set_chunk_metas_ r metas).

(** [UtocReader::Open].  The file is given by its content, [None] when
    it cannot be opened.  The result is the returned flag and the reader
    as the call leaves it; [None] when a read leaves the file buffer. *)
Definition Open (r : UtocReader) (file : option (list byte))
  : option (bool * UtocReader) :=
  match file with
  | None => Some (false, r)
  | Some fileData =>
      let offset := 0 in
      hb <-? slice fileData 0 sizeof_FIoStoreTocHeader ;;
      let r := set_header_ r (parse_header hb) in
      let offset := offset + sizeof_FIoStoreTocHeader in
      let h := header_ r in
      if negb (IsValid h) then Some (false, r)
      else
        ids <-? slice fileData offset (toc_entry_count h * sizeof_FIoChunkId) ;;
        let r := set_chunk_ids_ r (records 12 (Z.to_nat (toc_entry_count h)) ids) in
        let offset := offset + toc_entry_count h * sizeof_FIoChunkId in
        ols <-? slice fileData offset (toc_entry_count h * sizeof_FIoOffsetAndLength) ;;
        let r := set_chunk_offset_lengths_ r
                   (records 10 (Z.to_nat (toc_entry_count h)) ols) in
        let offset := offset + toc_entry_count h * sizeof_FIoOffsetAndLength in
        '(r, offset) <-? read_hash_map r fileData offset ;;
        blocks <-? slice fileData offset
                    (toc_compressed_block_entry_count h
                     * sizeof_FIoStoreTocCompressedBlockEntry) ;;
        let r := set_compression_blocks_ r
                   (records 12 (Z.to_nat (toc_compressed_block_entry_count h)) blocks) in
        let offset := offset + toc_compressed_block_entry_count h
                               * sizeof_FIoStoreTocCompressedBlockEntry in
        '(methods, offset) <-?
           read_methods (Z.to_nat (compression_method_name_count h)) fileData
             (compression_method_name_length h) offset ;;
        let r := set_compression_methods_ r methods in
        if IsEncrypted h then Some (false, r)
        else
          '(r, offset) <-?
             (if IsSigned h then
                '(signatureSize, offset) <-? ReadValue 4 fileData offset ;;
                let offset := offset + wrap 32 (signatureSize * 2 + 4) in
                let offset := offset + wrap 32 (toc_compressed_block_entry_count h * 20) in
                Some (r, offset)
              else Some (r, offset)) ;;
          if IsIndexed h && (0 <? directory_index_size h) then
            directoryData <-? slice fileData offset (directory_index_size h) ;;
            let offset := offset + directory_index_size h in
            '(ok, r) <-? ParseDirectoryIndex r directoryData ;;
            if negb ok then Some (false, r)
            else read_chunk_metadata r fileData offset
          else read_chunk_metadata r fileData offset
  end.

(** *** GetAllFilePaths

    The traversal follows indices read from the file without checking
    them, and a cyclic index never ends.  [fuel] bounds the number of
    nested steps; an index outside its vector is [OutOfRange]. *)

Inductive walk (A : Type) : Type :=
| Done (a : A)
| OutOfRange
| OutOfFuel.
Arguments Done {A} a.
Arguments OutOfRange {A}.
Arguments OutOfFuel {A}.

Definition back_is_slash (s : string) : bool :=
  match rev (list_ascii_of_string s) with
  | c :: _ => Ascii.eqb c "/"%char
  | [] => false
  end.

Definition is_empty (s : string) : bool :=
  match s with EmptyString => true | _ => false end.

(** Lines 319-322: one segment appended to [fullPath]. *)
Definition append_segment (fullPath segment : string) : string :=
  let fullPath :=
    if negb (is_empty fullPath) && negb (back_is_slash fullPath)
    then (fullPath ++ "/")%string else fullPath in
  (fullPath ++ segment)%string.

Definition full_path (mount : string) (path : list string) : string :=
  fold_left append_segment path mount.

Definition at_index {A} (v : list A) (i : Z) : option A := nth_error v (Z.to_nat i).

(** The [while (fileIndex ...)] loop of lines 309-332. *)
Fixpoint file_loop (fuel : nat) (di : FIoDirectoryIndexResource)
    (fileIndex : option Z) (path result : list string) : walk (list string) :=
  match fileIndex with
  | None => Done result
  | Some i =>
      match fuel with
      | O => OutOfFuel
      | S fuel' =>
          match at_index (file_entries di) i with
          | None => OutOfRange
          | Some file =>
              match at_index (string_table di) (file_name file) with
              | None => OutOfRange
              | Some nm =>
                  file_loop fuel' di (next_file_entry file) path
                    (result ++ [full_path (mount_point di) (path ++ [nm])])
              end
          end
      end
  end.

(** The recursive lambda, and its [while (childIndex ...)] loop.  The
    path vector is pushed and popped in step, so it is passed down by
    value. *)
Fixpoint traverseDirectory (fuel : nat) (di : FIoDirectoryIndexResource)
    (dirIndex : Z) (path result : list string) {struct fuel} : walk (list string) :=
  match fuel with
  | O => OutOfFuel
  | S fuel' =>
      match at_index (directory_entries di) dirIndex with
      | None => OutOfRange
      | Some dir =>
          let pushed :=
            match name dir with
            | None => Some path
            | Some n =>
                match at_index (string_table di) n with
                | Some s => Some (path ++ [s])
                | None => None
                end
            end in
          match pushed with
          | None => OutOfRange
          | Some path' =>
              match file_loop fuel' di (first_file_entry dir) path' result with
              | Done result1 =>
                  child_loop fuel' di (first_child_entry dir) path' result1
              | other => other
              end
          end
      end
  end
with child_loop (fuel : nat) (di : FIoDirectoryIndexResource)
    (childIndex : option Z) (path result : list string) {struct fuel}
    : walk (list string) :=
  match childIndex with
  | None => Done result
  | Some c =>
      match fuel with
      | O => OutOfFuel
      | S fuel' =>
          match traverseDirectory fuel' di c path result with
          | Done result1 =>
              match at_index (directory_entries di) c with
              | None => OutOfRange
              | Some d => child_loop fuel' di (next_sibling_entry d) path result1
              end
          | other => other
          end
      end
  end.

Definition GetAllFilePaths (fuel : nat) (di : FIoDirectoryIndexResource)
  : walk (list string) :=
  match directory_entries di with
  | [] => Done []
  | _ :: _ => traverseDirectory fuel di 0 [] []
  end.

(** [UtocReader::GetAllFilePaths]. *)
Definition UtocReader_GetAllFilePaths (fuel : nat) (r : UtocReader)
  : walk (list string) :=
  GetAllFilePaths fuel (directory_index_ r).

(** *** Accessors of the raw records

    Each copies bytes of the record into a zero-initialised integer. *)

(** [FIoChunkId], 12 bytes. *)
Definition GetChunkId (id : list byte) : Z := le_to_Z (firstn 8 id).
Definition GetChunkIndex (id : list byte) : Z := le_to_Z (firstn 2 (skipn 8 id)).
Definition GetChunkType (id : list byte) : Z :=
  Z.land (byte_to_Z (nth 10 id x00)) 63.
Definition HasVersionInfo (id : list byte) : bool :=
  negb (Z.land (byte_to_Z (nth 11 id x00)) (Z.shiftl 1 6) =? 0).

(** [FIoOffsetAndLength], 10 bytes. *)
Definition FIoOffsetAndLength_GetOffset (data : list byte) : Z :=
  le_to_Z (firstn 5 data).
Definition FIoOffsetAndLength_GetLength (data : list byte) : Z :=
  le_to_Z (firstn 5 (skipn 5 data)).

(** [FIoStoreTocCompressedBlockEntry], 12 bytes. *)
Definition CompressedBlockEntry_GetOffset (data : list byte) : Z :=
  le_to_Z (firstn 5 data).
Definition GetCompressedSize (data : list byte) : Z :=
  le_to_Z (firstn 3 (skipn 5 data)).
Definition GetUncompressedSize (data : list byte) : Z :=
  le_to_Z (firstn 3 (skipn 8 data)).
Definition GetCompressionMethodIndex (data : list byte) : Z :=
  byte_to_Z (nth 11 data x00).

End Utoc.

(** ** pak_reader.h / pak_reader.cpp *)

Module Pak.
Import Wire.

Definition MAGIC : Z := 0x5A6F12E1.

Inductive Version : Type :=
| V0 | V1 | V2 | V3 | V4 | V5 | V6 | V7 | V8A | V8B | V9 | V10 | V11.

Definition Version_value (v : Version) : Z :=
  match v with
  | V0 => 0 | V1 => 1 | V2 => 2 | V3 => 3 | V4 => 4 | V5 => 5 | V6 => 6
  | V7 => 7 | V8A => 8 | V8B => 9 | V9 => 10 | V10 => 11 | V11 => 12
  end.

(** [static_cast<Version>(v)] for the values the probe loop takes. *)
Definition Version_of_nat (v : nat) : Version :=
  match v with
  | 0 => V0 | 1 => V1 | 2 => V2 | 3 => V3 | 4 => V4 | 5 => V5 | 6 => V6
  | 7 => V7 | 8 => V8A | 9 => V8B | 10 => V9 | 11 => V10 | _ => V11
  end%nat.

Inductive VersionMajor : Type :=
| Unknown | Initial | NoTimestamps | CompressionEncryption | IndexEncryption
| RelativeChunkOffsets | DeleteRecords | EncryptionKeyGuid
| FNameBasedCompression | FrozenIndex | PathHashIndex | Fnv64BugFix.

Definition VersionMajor_value (m : VersionMajor) : Z :=
  match m with
  | Unknown => 0 | Initial => 1 | NoTimestamps => 2
  | CompressionEncryption => 3 | IndexEncryption => 4
  | RelativeChunkOffsets => 5 | DeleteRecords => 6 | EncryptionKeyGuid => 7
  | FNameBasedCompression => 8 | FrozenIndex => 9 | PathHashIndex => 10
  | Fnv64BugFix => 11
  end.

Inductive Compression : Type := Zlib | Gzip | Oodle | Zstd | LZ4.

Record Block : Type := {
  start : Z;
  end_ : Z                    (* end *)
}.

Record Entry : Type := {
  offset : Z;
  compressed_size : Z;
  uncompressed_size : Z;
  compression_slot : option Z;
  timestamp : option Z;
  hash : list byte;
  blocks : option (list Block);
  flags : Z;
  compression_block_size : Z
}.

(** [version_major] is the 32-bit word of the file cast to the enum, so
    it is kept as the underlying [int]. *)
Record Footer : Type := {
  encryption_uuid : option Z;
  encrypted : bool;
  magic : Z;
  version : Version;
  version_major : Z;
  index_offset : Z;
  index_size : Z;
  index_hash : list byte;     (* hash *)
  frozen : bool;
  compression : list (option Compression)
}.

(** *** [std::map<std::string, Entry>]

    The map is its sequence of pairs in key order; [std::string]
    compares bytes as unsigned, which is [String.compare]. *)

Definition map_t : Type := list (string * Entry).

(** [entries_[path] = entry]. *)
Fixpoint map_assign (path : string) (entry : Entry) (m : map_t) : map_t :=
  match m with
  | [] => [(path, entry)]
  | (k, e) :: rest =>
      match String.compare path k with
      | Lt => (path, entry) :: (k, e) :: rest
      | Eq => (path, entry) :: rest
      | Gt => (k, e) :: map_assign path entry rest
      end
  end.

Fixpoint map_find (path : string) (m : map_t) : option Entry :=
  match m with
  | [] => None
  | (k, e) :: rest => if String.eqb path k then Some e else map_find path rest
  end.

(** *** The reader: the stream and the members

    [stream_] is the file content, the read position and whether the
    stream is still good. *)

Record Impl : Type := {
  stream_data : list byte;
  stream_pos : Z;
  stream_good : bool;
  footer_ : Footer;
  mount_point_ : string;
  entries_ : map_t
}.

Inductive PakException : Type :=
| FailedToOpenFile
| InvalidBoolean (value : Z)
| InvalidMagic (magic : Z)
| VersionMismatch
| IndexEncrypted
| FailedToReadPak.

(** What a step does: it returns, it throws, or it goes on from a read
    the stream could not satisfy ([Indeterminate]).  The source never
    tests the stream: after such a read the destination holds what it
    held before, which for the locals the reads go to is uninitialised
    storage, and the run from there on is not modelled.  A thrown
    exception keeps the members as they are at the throw, since the probe
    catches and goes on. *)
Inductive result (A : Type) : Type :=
| Ok (a : A) (s : Impl)
| Throw (e : PakException) (s : Impl)
| Indeterminate.
Arguments Ok {A} a s.
Arguments Throw {A} e s.
Arguments Indeterminate {A}.

Definition M (A : Type) : Type := Impl -> result A.

Definition ret {A} (a : A) : M A := fun s => Ok a s.
Definition bind {A B} (m : M A) (k : A -> M B) : M B :=
  fun s =>
    match m s with
    | Ok a s' => k a s'
    | Throw e s' => Throw e s'
    | Indeterminate => Indeterminate
    end.
Definition throw {A} (e : PakException) : M A := fun s => Throw e s.
Definition indeterminate {A} : M A := fun _ => Indeterminate.

Declare Scope pak_scope.
Delimit Scope pak_scope with pak.
Notation "x <- m ;; k" := (bind m (fun x => k))
  (at level 61, m at next level, right associativity) : pak_scope.
Notation "m ;; k" := (bind m (fun _ => k))
  (at level 61, right associativity) : pak_scope.
Local Open Scope pak_scope.

Definition set_stream (s : Impl) (pos : Z) (good : bool) : Impl :=
  {| stream_data := stream_data s; stream_pos := pos; stream_good := good;
     footer_ := footer_ s; mount_point_ := mount_point_ s;
     entries_ := entries_ s |}.
Definition set_footer_ (s : Impl) (f : Footer) : Impl :=
  {| stream_data := stream_data s; stream_pos := stream_pos s;
     stream_good := stream_good s;
     footer_ := f; mount_point_ := mount_point_ s; entries_ := entries_ s |}.
Definition set_mount_point_ (s : Impl) (m : string) : Impl :=
  {| stream_data := stream_data s; stream_pos := stream_pos s;
     stream_good := stream_good s;
     footer_ := footer_ s; mount_point_ := m; entries_ := entries_ s |}.
Definition set_entries_ (s : Impl) (m : map_t) : Impl :=
  {| stream_data := stream_data s; stream_pos := stream_pos s;
     stream_good := stream_good s;
     footer_ := footer_ s; mount_point_ := mount_point_ s; entries_ := m |}.

Definition file_size (s : Impl) : Z := Z.of_nat (List.length (stream_data s)).

(** [stream.read(dst, n)]: the bytes when the stream is good and holds
    them; a short read leaves [dst] unwritten. *)
Definition stream_read (n : Z) : M (list byte) :=
  fun s =>
    if stream_good s
       && ((n =? 0) || ((0 <=? stream_pos s) && (stream_pos s + n <=? file_size s)))
    then Ok (firstn (Z.to_nat n) (skipn (Z.to_nat (stream_pos s)) (stream_data s)))
            (set_stream s (stream_pos s + n) true)
    else Indeterminate.

(** [seekg(off, std::ios::end)]; a position before the start fails the
    stream, and a failed stream ignores the call. *)
Definition seekg_end (off : Z) : M unit :=
  fun s =>
    if stream_good s then
      if file_size s + off <? 0 then Ok tt (set_stream s (stream_pos s) false)
      else Ok tt (set_stream s (file_size s + off) true)
    else Ok tt s.

(** [seekg(pos)] with an unsigned 64-bit [pos], which becomes a signed
    stream offset. *)
Definition seekg (pos : Z) : M unit :=
  fun s =>
    if stream_good s then
      if to_signed 64 pos <? 0 then Ok tt (set_stream s (stream_pos s) false)
      else Ok tt (set_stream s pos true)
    else Ok tt s.

Definition seekg_cur (off : Z) : M unit :=
  fun s =>
    if stream_good s then Ok tt (set_stream s (stream_pos s + off) true)
    else Ok tt s.

Definition tellg : M Z :=
  fun s => Ok (if stream_good s then stream_pos s else -1) s.

Definition clear : M unit :=
  fun s => Ok tt (set_stream s (stream_pos s) true).

Definition get_footer : M Footer := fun s => Ok (footer_ s) s.
Definition upd_footer (f : Footer -> Footer) : M unit :=
  fun s => Ok tt (set_footer_ s (f (footer_ s))).

Definition read_uint (n : Z) : M Z :=
  bs <- stream_read n ;; ret (le_to_Z bs).

Definition read_bool : M bool :=
  value <- read_uint 1 ;;
  if negb (value =? 0) && negb (value =? 1) then throw (InvalidBoolean value)
  else ret (value =? 1).

Definition read_guid : M (list byte) := stream_read 20.

(** [std::vector<uint16_t>] filled from the stream. *)
Fixpoint units_of_bytes (bs : list byte) : list Z :=
  match bs with
  | lo :: hi :: rest => le_to_Z [lo; hi] :: units_of_bytes rest
  | _ => []
  end.

(** The units before the first zero (all of them when there is none). *)
Fixpoint until_zero (cs : list Z) : list Z :=
  match cs with
  | [] => []
  | c :: rest => if c =? 0 then [] else c :: until_zero rest
  end.

Definition narrow (c : Z) : ascii :=
  if c <? 128 then char_of_Z c else "?"%char.

(** [read_string].  The vector allocation is taken to succeed; negating
    [INT32_MIN] overflows. *)
Definition read_string : M string :=
  raw <- read_uint 4 ;;
  let length := to_signed 32 raw in
  if length <? 0 then
    if length =? - 2 ^ 31 then indeterminate
    else
      bs <- stream_read (- length * 2) ;;
      let chars := units_of_bytes bs in
      ret (string_of_list_ascii (map narrow (until_zero chars)))
  else
    bs <- stream_read length ;;
    ret (string_of_bytes (until_nul bs)).

Definition version_to_major (version : Version) : VersionMajor :=
  match version with
  | V0 => Unknown
  | V1 => Initial
  | V2 => NoTimestamps
  | V3 => CompressionEncryption
  | V4 => IndexEncryption
  | V5 => RelativeChunkOffsets
  | V6 => DeleteRecords
  | V7 => EncryptionKeyGuid
  | V8A | V8B => FNameBasedCompression
  | V9 => FrozenIndex
  | V10 => PathHashIndex
  | V11 => Fnv64BugFix
  end.

Definition major_ge (a b : VersionMajor) : bool :=
  VersionMajor_value b <=? VersionMajor_value a.
Definition major_eq (a b : VersionMajor) : bool :=
  VersionMajor_value a =? VersionMajor_value b.
Definition version_ge (a b : Version) : bool :=
  Version_value b <=? Version_value a.

Definition get_footer_size (version : Version) : Z :=
  let size := 4 + 4 + 8 + 8 + 20 in
  let size := if major_ge (version_to_major version) EncryptionKeyGuid
              then size + 16 else size in
  let size := if major_ge (version_to_major version) IndexEncryption
              then size + 1 else size in
  let size := if major_eq (version_to_major version) FrozenIndex
              then size + 1 else size in
  let size := if version_ge version V8A then size + 32 * 4 else size in
  let size := if version_ge version V8B then size + 32 else size in
  size.


(** *** Assignments to the fields of [footer_] *)

Definition with_encryption_uuid (v : option Z) (f : Footer) : Footer :=
  {| encryption_uuid := v; encrypted := encrypted f; magic := magic f;
     version := version f; version_major := version_major f;
     index_offset := index_offset f; index_size := index_size f;
     index_hash := index_hash f; frozen := frozen f; compression := compression f |}.

Definition with_encrypted (v : bool) (f : Footer) : Footer :=
  {| encryption_uuid := encryption_uuid f; encrypted := v; magic := magic f;
     version := version f; version_major := version_major f;
     index_offset := index_offset f; index_size := index_size f;
     index_hash := index_hash f; frozen := frozen f; compression := compression f |}.

Definition with_magic (v : Z) (f : Footer) : Footer :=
  {| encryption_uuid := encryption_uuid f; encrypted := encrypted f; magic := v;
     version := version f; version_major := version_major f;
     index_offset := index_offset f; index_size := index_size f;
     index_hash := index_hash f; frozen := frozen f; compression := compression f |}.

Definition with_version (v : Version) (f : Footer) : Footer :=
  {| encryption_uuid := encryption_uuid f; encrypted := encrypted f;
     magic := magic f; version := v; version_major := version_major f;
     index_offset := index_offset f; index_size := index_size f;
     index_hash := index_hash f; frozen := frozen f; compression := compression f |}.

Definition with_version_major (v : Z) (f : Footer) : Footer :=
  {| encryption_uuid := encryption_uuid f; encrypted := encrypted f;
     magic := magic f; version := version f; version_major := v;
     index_offset := index_offset f; index_size := index_size f;
     index_hash := index_hash f; frozen := frozen f; compression := compression f |}.

Definition with_index_offset (v : Z) (f : Footer) : Footer :=
  {| encryption_uuid := encryption_uuid f; encrypted := encrypted f;
     magic := magic f; version := version f; version_major := version_major f;
     index_offset := v; index_size := index_size f; index_hash := index_hash f;
     frozen := frozen f; compression := compression f |}.

Definition with_index_size (v : Z) (f : Footer) : Footer :=
  {| encryption_uuid := encryption_uuid f; encrypted := encrypted f;
     magic := magic f; version := version f; version_major := version_major f;
     index_offset := index_offset f; index_size := v; index_hash := index_hash f;
     frozen := frozen f; compression := compression f |}.

Definition with_index_hash (v : list byte) (f : Footer) : Footer :=
  {| encryption_uuid := encryption_uuid f; encrypted := encrypted f;
     magic := magic f; version := version f; version_major := version_major f;
     index_offset := index_offset f; index_size := index_size f; index_hash := v;
     frozen := frozen f; compression := compression f |}.

Definition with_frozen (v : bool) (f : Footer) : Footer :=
  {| encryption_uuid := encryption_uuid f; encrypted := encrypted f;
     magic := magic f; version := version f; version_major := version_major f;
     index_offset := index_offset f; index_size := index_size f;
     index_hash := index_hash f; frozen := v; compression := compression f |}.

Definition with_compression (v : list (option Compression)) (f : Footer) : Footer :=
  {| encryption_uuid := encryption_uuid f; encrypted := encrypted f;
     magic := magic f; version := version f; version_major := version_major f;
     index_offset := index_offset f; index_size := index_size f;
     index_hash := index_hash f; frozen := frozen f; compression := v |}.

(** One 32-byte compression name of the footer (lines 276-300). *)
Definition compression_of_name (name : list byte) : option Compression :=
  let compression_name := string_of_bytes (until_nul name) in
  if String.eqb compression_name "" then None
  else if String.eqb compression_name "Zlib" then Some Zlib
  else if String.eqb compression_name "Gzip" then Some Gzip
  else if String.eqb compression_name "Oodle" then Some Oodle
  else if String.eqb compression_name "Zstd" then Some Zstd
  else if String.eqb compression_name "LZ4" then Some LZ4
  else None.

Fixpoint read_compression (n : nat) : M (list (option Compression)) :=
  match n with
  | O => ret []
  | S k =>
      name <- stream_read 32 ;;
      rest <- read_compression k ;;
      ret (compression_of_name name :: rest)
  end.

Definition compression_count (version : Version) : nat :=
  if negb (version_ge version V8A) then 0%nat
  else if negb (version_ge version V8B) then 4%nat
  else 5%nat.

(** The reads of [read_footer] after its seek.  The vector
    [footer_.compression] is resized and every slot assigned, then the
    three defaults are pushed for the versions before
    FNameBasedCompression. *)
Definition read_footer_fields (version : Version) : M unit :=
  (if major_ge (version_to_major version) EncryptionKeyGuid then
     uuid <- read_uint 16 ;;
     upd_footer (with_encryption_uuid (Some uuid))
   else upd_footer (with_encryption_uuid None)) ;;
  (if major_ge (version_to_major version) IndexEncryption then
     b <- read_bool ;;
     upd_footer (with_encrypted b)
   else upd_footer (with_encrypted false)) ;;
  magic <- read_uint 4 ;;
  (if negb (magic =? MAGIC) then throw (InvalidMagic magic) else ret tt) ;;
  upd_footer (with_magic magic) ;;
  version_major <- read_uint 4 ;;
  upd_footer (with_version_major (to_signed 32 version_major)) ;;
  f <- get_footer ;;
  (if negb (VersionMajor_value (version_to_major version) =? Pak.version_major f)
   then throw VersionMismatch else ret tt) ;;
  index_offset <- read_uint 8 ;;
  upd_footer (with_index_offset index_offset) ;;
  index_size <- read_uint 8 ;;
  upd_footer (with_index_size index_size) ;;
  h <- read_guid ;;
  upd_footer (with_index_hash h) ;;
  (if major_eq (version_to_major version) FrozenIndex then
     b <- read_bool ;;
     upd_footer (with_frozen b)
   else upd_footer (with_frozen false)) ;;
  names <- read_compression (compression_count version) ;;
  upd_footer (with_compression names) ;;
  (if negb (major_ge (version_to_major version) FNameBasedCompression) then
     upd_footer (fun f => with_compression
                            (compression f ++ [Some Zlib; Some Gzip; Some Oodle]) f)
   else ret tt) ;;
  upd_footer (with_version version).

Definition read_footer (version : Version) : M unit :=
  seekg_end (- get_footer_size version) ;;
  read_footer_fields version.

(** The block list of an entry (lines 461-466). *)
Fixpoint read_blocks (n : nat) : M (list Block) :=
  match n with
  | O => ret []
  | S k =>
      block_start <- read_uint 8 ;;
      block_end <- read_uint 8 ;;
      rest <- read_blocks k ;;
      ret ({| start := block_start; end_ := block_end |} :: rest)
  end.

Definition slot_of (compression : Z) : option Z :=
  if compression =? 0 then None else Some (compression - 1).

Definition read_entry : M Entry :=
  f <- get_footer ;;
  entry_offset <- read_uint 8 ;;
  entry_compressed_size <- read_uint 8 ;;
  entry_uncompressed_size <- read_uint 8 ;;
  entry_compression_slot <-
    (if Version_value (version f) =? Version_value V8A then
       compression <- read_uint 1 ;; ret (slot_of compression)
     else
       compression <- read_uint 4 ;; ret (slot_of compression)) ;;
  entry_timestamp <-
    (if version_major f =? VersionMajor_value Initial then
       t <- read_uint 8 ;; ret (Some t)
     else ret None) ;;
  entry_hash <- read_guid ;;
  entry_blocks <-
    (if (VersionMajor_value CompressionEncryption <=? version_major f)
        && (match entry_compression_slot with Some _ => true | None => false end)
     then
       block_count <- read_uint 4 ;;
       bl <- read_blocks (Z.to_nat block_count) ;;
       ret (Some bl)
     else ret None) ;;
  fl <-
    (if VersionMajor_value CompressionEncryption <=? version_major f then
       entry_flags <- read_uint 1 ;;
       entry_compression_block_size <- read_uint 4 ;;
       ret (entry_flags, entry_compression_block_size)
     else ret (0, 0)) ;;
  ret {| offset := entry_offset;
         compressed_size := entry_compressed_size;
         uncompressed_size := entry_uncompressed_size;
         compression_slot := entry_compression_slot;
         timestamp := entry_timestamp;
         hash := entry_hash;
         blocks := entry_blocks;
         flags := fst fl;
         compression_block_size := snd fl |}.

Definition assign_entry (path : string) (entry : Entry) : M unit :=
  fun s => Ok tt (set_entries_ s (map_assign path entry (entries_ s))).

(** The "dummy entry" of the full directory index (lines 398-403): the
    optionals start empty; the hash array is left as it is by the
    source and is zero here. *)
Definition dummy_entry : Entry :=
  {| offset := 0; compressed_size := 0; uncompressed_size := 0;
     compression_slot := None; timestamp := None;
     hash := repeat x00 20; blocks := None;
     flags := 0; compression_block_size := 0 |}.

Definition front_is_slash (s : string) : bool :=
  match s with
  | String c _ => Ascii.eqb c "/"%char
  | EmptyString => false
  end.

Definition back_is_slash (s : string) : bool :=
  match rev (list_ascii_of_string s) with
  | c :: _ => Ascii.eqb c "/"%char
  | [] => false
  end.

Definition is_empty (s : string) : bool :=
  match s with EmptyString => true | _ => false end.

(** Lines 386-390: the directory name, a separator when it lacks one,
    and the file name. *)
Definition join_path (dir_name file_name : string) : string :=
  let path := dir_name in
  let path := if negb (is_empty path) && negb (back_is_slash path)
              then (path ++ "/")%string else path in
  (path ++ file_name)%string.

(** Lines 393-395: [path.substr(1)] when the first character is '/'. *)
Definition strip_leading_slash (path : string) : string :=
  if negb (is_empty path) && front_is_slash path
  then substring 1 (String.length path - 1) path else path.

Definition full_path (dir_name file_name : string) : string :=
  strip_leading_slash (join_path dir_name file_name).

Definition INVALID_OFFSET : Z := 0x80000000.

(** The loop over the files of one directory (lines 375-406). *)
Fixpoint read_directory_files (n : nat) (dir_name : string) : M unit :=
  match n with
  | O => ret tt
  | S k =>
      file_name <- read_string ;;
      encoded_offset <- read_uint 4 ;;
      (if encoded_offset =? INVALID_OFFSET then ret tt
       else assign_entry (full_path dir_name file_name) dummy_entry) ;;
      read_directory_files k dir_name
  end.

(** The loop over the directories (lines 369-407). *)
Fixpoint read_directories (n : nat) : M unit :=
  match n with
  | O => ret tt
  | S k =>
      dir_name <- read_string ;;
      file_count <- read_uint 4 ;;
      read_directory_files (Z.to_nat file_count) dir_name ;;
      read_directories k
  end.

(** The loop of the flat index (lines 414-418). *)
Fixpoint read_entries (n : nat) : M unit :=
  match n with
  | O => ret tt
  | S k =>
      path <- read_string ;;
      entry <- read_entry ;;
      assign_entry path entry ;;
      read_entries k
  end.

Definition read_index : M unit :=
  f <- get_footer ;;
  seekg (index_offset f) ;;
  (if encrypted f then throw IndexEncrypted else ret tt) ;;
  mp <- read_string ;;
  (fun s => Ok tt (set_mount_point_ s mp)) ;;
  entry_count <- read_uint 4 ;;
  if VersionMajor_value PathHashIndex <=? version_major f then
    path_hash_seed <- read_uint 8 ;;
    has_path_hash_index <- read_uint 4 ;;
    (if negb (has_path_hash_index =? 0) then
       path_hash_index_offset <- read_uint 8 ;;
       path_hash_index_size <- read_uint 8 ;;
       seekg_cur 20
     else ret tt) ;;
    has_full_directory_index <- read_uint 4 ;;
    if negb (has_full_directory_index =? 0) then
      full_directory_index_offset <- read_uint 8 ;;
      full_directory_index_size <- read_uint 8 ;;
      seekg_cur 20 ;;
      current_pos <- tellg ;;
      seekg full_directory_index_offset ;;
      dir_count <- read_uint 4 ;;
      read_directories (Z.to_nat dir_count) ;;
      seekg current_pos
    else ret tt
  else
    read_entries (Z.to_nat entry_count).

(** *** The constructor: the version probe (lines 152-170) *)

Definition attempt (version : Version) : M unit :=
  read_footer version ;; read_index.

(** [v] counts down from [static_cast<int>(Version::V11)] to 1; the
    handler catches every [std::exception], clears the stream and
    rewinds it. *)
Fixpoint probe (v : nat) (s : Impl) : result unit :=
  match v with
  | O => Throw FailedToReadPak s
  | S v' =>
      match attempt (Version_of_nat v) s with
      | Ok _ s' => Ok tt s'
      | Throw _ s' => probe v' (set_stream s' 0 true)
      | Indeterminate => Indeterminate
      end
  end.

(** A default-initialised [Footer]; [read_footer] assigns every field
    before any is read. *)
Definition initial_footer : Footer :=
  {| encryption_uuid := None; encrypted := false; magic := 0; version := V0;
     version_major := 0; index_offset := 0; index_size := 0;
     index_hash := repeat x00 20; frozen := false; compression := [] |}.

Definition initial (data : list byte) : Impl :=
  {| stream_data := data; stream_pos := 0; stream_good := true;
     footer_ := initial_footer; mount_point_ := EmptyString; entries_ := [] |}.

(** [Impl::Impl(path)], the file given by its content ([None] when it
    cannot be opened). *)
Definition open (file : option (list byte)) : result unit :=
  match file with
  | None => Throw FailedToOpenFile (initial [])
  | Some data => probe (Z.to_nat (Version_value V11)) (initial data)
  end.

Definition files (s : Impl) : list string := map fst (entries_ s).

(** *** The other queries of [PakReader] *)

Definition reader_version (s : Impl) : Version := version (footer_ s).
Definition mount_point (s : Impl) : string := mount_point_ s.
Definition encrypted_index (s : Impl) : bool := encrypted (footer_ s).
Definition encryption_guid (s : Impl) : option Z := encryption_uuid (footer_ s).

(** [Entry::is_encrypted] and [Entry::is_deleted]. *)
Definition is_encrypted (e : Entry) : bool := negb (Z.land (flags e) 1 =? 0).
Definition is_deleted (e : Entry) : bool :=
  negb (Z.land (Z.shiftr (flags e) 1) 1 =? 0).

(** [path.find_last_of('/')]: the position of the last '/', if any. *)
Fixpoint find_last_of_slash (path : string) : option nat :=
  match path with
  | EmptyString => None
  | String c rest =>
      match find_last_of_slash rest with
      | Some pos => Some (S pos)
      | None => if Ascii.eqb c "/"%char then Some 0%nat else None
      end
  end.

Definition get_directory (path : string) : string :=
  match find_last_of_slash path with
  | None => EmptyString
  | Some pos => substring 0 pos path
  end.

(** The [std::unordered_set] of [directories()] is only inserted into,
    copied out and sorted: it is kept as its elements once each in
    ascending order, which is what the sort returns. *)
Fixpoint set_insert (x : string) (dirs : list string) : list string :=
  match dirs with
  | [] => [x]
  | y :: rest =>
      match String.compare x y with
      | Lt => x :: y :: rest
      | Eq => y :: rest
      | Gt => y :: set_insert x rest
      end
  end.

(** The loop [while (!dir.empty()) { dirs.insert(dir); dir =
    get_directory(dir); }].  Every round shortens [dir], so the length of
    the path bounds the rounds. *)
Fixpoint insert_ancestors (rounds : nat) (dir : string) (dirs : list string)
  : list string :=
  match rounds with
  | O => dirs
  | S k =>
      if is_empty dir then dirs
      else insert_ancestors k (get_directory dir) (set_insert dir dirs)
  end.

Definition directories (s : Impl) : list string :=
  fold_left
    (fun dirs pe =>
       insert_ancestors (String.length (fst pe)) (get_directory (fst pe)) dirs)
    (entries_ s) [].

End Pak.

(** ** The footer layout, written out

  The repository has no encoder.  The round trip of the footer is
  stated against this one, which lays a [Footer] out field by field in
  the order of the layout table. *)

Module Reference.
Import Wire Pak.

Definition name_of_compression (c : option Compression) : string :=
  match c with
  | None => ""
  | Some Zlib => "Zlib"
  | Some Gzip => "Gzip"
  | Some Oodle => "Oodle"
  | Some Zstd => "Zstd"
  | Some LZ4 => "LZ4"
  end.

(** A name in its 32-byte NUL-padded slot. *)
Definition encode_name (c : option Compression) : list byte :=
  let raw := bytes_of_string (name_of_compression c) in
  raw ++ repeat x00 (32 - List.length raw).

Definition encode_bool (b : bool) : list byte := [if b then x01 else x00].

Definition encode_uuid (u : option Z) : list byte :=
  match u with
  | Some v => Z_to_le 16 v
  | None => []
  end.

(** Modelled from the spec: the reference encoder of the footer layout
    (the encoder is owned by the tests and is not in the sources).  The
    fields follow the decode order of the footer section: encryption
    UUID (from EncryptionKeyGuid), encrypted flag (from
    IndexEncryption), magic, version, index offset, index size, index
    hash, frozen flag (FrozenIndex only), and the zero, four or five
    32-byte compression names. *)
Definition encode_footer (f : Footer) : list byte :=
  let v := version f in
  (if major_ge (version_to_major v) EncryptionKeyGuid
   then encode_uuid (encryption_uuid f) else [])
  ++ (if major_ge (version_to_major v) IndexEncryption
      then encode_bool (encrypted f) else [])
  ++ Z_to_le 4 (magic f)
  ++ Z_to_le 4 (version_major f)
  ++ Z_to_le 8 (index_offset f)
  ++ Z_to_le 8 (index_size f)
  ++ index_hash f
  ++ (if major_eq (version_to_major v) FrozenIndex
      then encode_bool (frozen f) else [])
  ++ flat_map encode_name (firstn (compression_count v) (compression f)).

(** The footers a file can hold: what the layout has no room for is at
    its default, and the compression list is the one of the file
    followed by the three synthesized methods of the old versions. *)
Definition uuid_ok (f : Footer) : Prop :=
  match encryption_uuid f with
  | Some u =>
      major_ge (version_to_major (version f)) EncryptionKeyGuid = true
      /\ 0 <= u < 2 ^ 128
  | None => major_ge (version_to_major (version f)) EncryptionKeyGuid = false
  end.

Definition compression_ok (f : Footer) : Prop :=
  if major_ge (version_to_major (version f)) FNameBasedCompression
  then List.length (compression f) = compression_count (version f)
  else compression f = [Some Zlib; Some Gzip; Some Oodle].

Record footer_wf (f : Footer) : Prop := {
  wf_magic : magic f = MAGIC;
  wf_major : version_major f = VersionMajor_value (version_to_major (version f));
  wf_uuid : uuid_ok f;
  wf_encrypted :
    major_ge (version_to_major (version f)) IndexEncryption = false ->
    encrypted f = false;
  wf_offset : 0 <= index_offset f < 2 ^ 64;
  wf_size : 0 <= index_size f < 2 ^ 64;
  wf_hash : List.length (index_hash f) = 20%nat;
  wf_frozen :
    major_eq (version_to_major (version f)) FrozenIndex = false ->
    frozen f = false;
  wf_compression : compression_ok f
}.

(** The formula of the footer size, term by term. *)
Definition footer_size_formula (v : Version) : Z :=
  44
  + (if major_ge (version_to_major v) EncryptionKeyGuid then 16 else 0)
  + (if major_ge (version_to_major v) IndexEncryption then 1 else 0)
  + (if major_eq (version_to_major v) FrozenIndex then 1 else 0)
  + (if version_ge v V8A then 128 else 0)
  + (if version_ge v V8B then 32 else 0).

End Reference.

(** ** Sample files *)

Module Samples.
Import Wire.

Definition u8 (v : Z) : list byte := Z_to_le 1 v.
Definition u32 (v : Z) : list byte := Z_to_le 4 v.
Definition u64 (v : Z) : list byte := Z_to_le 8 v.
Definition zeros (n : nat) : list byte := repeat x00 n.

(** A byte string with its terminator, preceded by its length. *)
Definition cstring (s : string) : list byte :=
  u32 (Z.of_nat (String.length s) + 1) ++ bytes_of_string s ++ [x00].

Definition absent : list byte := u32 Utoc.UINT32_MAX.

(** An optional index in its four bytes. *)
Definition optional (o : option Z) : list byte :=
  match o with
  | Some v => u32 v
  | None => absent
  end.

(** The records of a directory index as [ParseDirectoryIndex] walks
    them: four optionals per directory; name, optional and user data per
    file. *)
Definition directory_entry_bytes (d : Utoc.FIoDirectoryIndexEntry) : list byte :=
  optional (Utoc.name d) ++ optional (Utoc.first_child_entry d)
  ++ optional (Utoc.next_sibling_entry d) ++ optional (Utoc.first_file_entry d).

Definition file_entry_bytes (f : Utoc.FIoFileIndexEntry) : list byte :=
  u32 (Utoc.file_name f) ++ optional (Utoc.next_file_entry f)
  ++ u32 (Utoc.user_data f).

(** A directory index laid out in the order [ParseDirectoryIndex] reads:
    mount point, counted directory entries, counted file entries,
    counted strings. *)
Definition directory_index_bytes (di : Utoc.FIoDirectoryIndexResource) : list byte :=
  cstring (Utoc.mount_point di)
  ++ u32 (Z.of_nat (List.length (Utoc.directory_entries di)))
  ++ flat_map directory_entry_bytes (Utoc.directory_entries di)
  ++ u32 (Z.of_nat (List.length (Utoc.file_entries di)))
  ++ flat_map file_entry_bytes (Utoc.file_entries di)
  ++ u32 (Z.of_nat (List.length (Utoc.string_table di)))
  ++ flat_map cstring (Utoc.string_table di).

(** *** UTOC *)

Definition utoc_header (magic : list byte) (ver hsize entries flags dirsize : Z)
  : list byte :=
  magic ++ u8 ver ++ zeros 3 ++ u32 hsize ++ u32 entries ++ u32 0 ++ u32 12
  ++ u32 0 ++ u32 32 ++ u32 0 ++ u32 dirsize ++ u32 1 ++ u64 0 ++ zeros 16
  ++ u8 flags ++ zeros 3 ++ u32 0 ++ u64 0 ++ u32 0 ++ u32 0 ++ zeros 40.

Definition empty_index : Utoc.FIoDirectoryIndexResource :=
  {| Utoc.mount_point := EmptyString; Utoc.directory_entries := [];
     Utoc.file_entries := []; Utoc.string_table := [] |}.

(** A reader before its first [Open]. *)
Definition fresh_reader : Utoc.UtocReader :=
  {| Utoc.header_ := Utoc.parse_header (zeros 144);
     Utoc.chunk_ids_ := []; Utoc.chunk_offset_lengths_ := [];
     Utoc.chunk_perfect_hash_seeds_ := [];
     Utoc.chunk_indices_without_perfect_hash_ := [];
     Utoc.compression_blocks_ := []; Utoc.compression_methods_ := [];
     Utoc.chunk_metas_ := []; Utoc.directory_index_ := empty_index;
     Utoc.file_map_ := [] |}.

(** A chunk-metadata record of the 24-byte layout: 20 hash bytes, the
    flag byte, 3 bytes of padding. *)
Definition meta24 (fill fl : Z) : list byte :=
  repeat (byte_of_Z fill) 20 ++ u8 fl ++ zeros 3.

(** Version 8, two chunks (ids and offsets zero), no other section;
    both records carry the flag Compressed. *)
Definition utoc_two_chunks : list byte :=
  utoc_header Utoc.MAGIC 8 144 2 0 0 ++ zeros 24 ++ zeros 20
  ++ meta24 170 1 ++ meta24 187 1.

(** The magic is right; the declared size is 0 and the version Invalid. *)
Definition utoc_unchecked_header : list byte :=
  utoc_header Utoc.MAGIC 0 0 0 0 0.

Definition utoc_bad_magic : list byte :=
  utoc_header (zeros 16) 8 144 0 0 0.

(** One chunk and the container flag Encrypted. *)
Definition utoc_encrypted : list byte :=
  utoc_header Utoc.MAGIC 8 144 1 Utoc.Encrypted 0 ++ zeros 12 ++ zeros 10.

(** A directory index whose root names file entry 5 of none. *)
Definition dangling_index : list byte :=
  cstring "/" ++ u32 1 ++ absent ++ absent ++ absent ++ u32 5 ++ u32 0 ++ u32 0.

Definition utoc_dangling : list byte :=
  utoc_header Utoc.MAGIC 8 144 0 Utoc.Indexed
    (Z.of_nat (List.length dangling_index))
  ++ dangling_index.

(** Root directory with the one file "a" named in the string table. *)
Definition one_file_index : Utoc.FIoDirectoryIndexResource :=
  {| Utoc.mount_point := "/";
     Utoc.directory_entries :=
       [{| Utoc.name := None; Utoc.first_child_entry := None;
           Utoc.next_sibling_entry := None; Utoc.first_file_entry := Some 0 |}];
     Utoc.file_entries :=
       [{| Utoc.file_name := 0; Utoc.next_file_entry := None; Utoc.user_data := 0 |}];
     Utoc.string_table := ["a"%string] |}.

(** The root with the file "readme" and the directory "sub", which holds
    "file1" and "file2". *)
Definition two_level_index : Utoc.FIoDirectoryIndexResource :=
  {| Utoc.mount_point := "../../../";
     Utoc.directory_entries :=
       [{| Utoc.name := None; Utoc.first_child_entry := Some 1;
           Utoc.next_sibling_entry := None; Utoc.first_file_entry := Some 0 |};
        {| Utoc.name := Some 0; Utoc.first_child_entry := None;
           Utoc.next_sibling_entry := None; Utoc.first_file_entry := Some 1 |}];
     Utoc.file_entries :=
       [{| Utoc.file_name := 1; Utoc.next_file_entry := None; Utoc.user_data := 0 |};
        {| Utoc.file_name := 2; Utoc.next_file_entry := Some 2; Utoc.user_data := 1 |};
        {| Utoc.file_name := 3; Utoc.next_file_entry := None; Utoc.user_data := 2 |}];
     Utoc.string_table :=
       ["sub"%string; "readme"%string; "file1"%string; "file2"%string] |}.

(** A reader that holds [one_file_index] from an earlier [Open]. *)
Definition used_reader : Utoc.UtocReader :=
  {| Utoc.header_ := Utoc.parse_header (zeros 144);
     Utoc.chunk_ids_ := []; Utoc.chunk_offset_lengths_ := [];
     Utoc.chunk_perfect_hash_seeds_ := [5];
     Utoc.chunk_indices_without_perfect_hash_ := [];
     Utoc.compression_blocks_ := []; Utoc.compression_methods_ := [];
     Utoc.chunk_metas_ := []; Utoc.directory_index_ := one_file_index;
     Utoc.file_map_ := [(0, EmptyString)] |}.

(** Version 3, no chunks, no section. *)
Definition utoc_v3_empty : list byte := utoc_header Utoc.MAGIC 3 144 0 0 0.

(** The declared length -2 and the units 'a', 0. *)
Definition wide_a : list byte := [xfe; xff; xff; xff; x61; x00; x00; x00].

(** *** PAK *)

(** A version-3 entry record with no compression and the given size. *)
Definition entry_v3 (size : Z) : list byte :=
  u64 0 ++ u64 size ++ u64 size ++ u32 0 ++ zeros 20 ++ u8 0 ++ u32 0.

Definition footer_v3 (index_size : Z) : list byte :=
  u32 Pak.MAGIC ++ u32 3 ++ u64 0 ++ u64 index_size ++ zeros 20.

(** A flat index with the given paths and entry sizes. *)
Definition flat_index (items : list (string * Z)) : list byte :=
  cstring "../../../" ++ u32 (Z.of_nat (List.length items))
  ++ flat_map (fun item => cstring (fst item) ++ entry_v3 (snd item)) items.

(** The index at offset 0, padding, and the version-3 footer. *)
Definition pak_v3 (items : list (string * Z)) : list byte :=
  let index := flat_index items in
  index ++ zeros (250 - List.length index)
  ++ footer_v3 (Z.of_nat (List.length index)).

Definition pak_leading_slash : list byte :=
  pak_v3 [("/x"%string, 10); ("a/b"%string, 10)].

(** A version-4 footer whose encrypted byte is 1, after padding. *)
Definition pak_encrypted_v4 : list byte :=
  zeros 200 ++ u8 1 ++ u32 Pak.MAGIC ++ u32 4 ++ u64 0 ++ u64 0 ++ zeros 20.

Definition footer_v11 : Pak.Footer :=
  {| Pak.encryption_uuid := Some 7; Pak.encrypted := false;
     Pak.magic := Pak.MAGIC; Pak.version := Pak.V11; Pak.version_major := 11;
     Pak.index_offset := 0; Pak.index_size := 0; Pak.index_hash := zeros 20;
     Pak.frozen := false;
     Pak.compression := [Some Pak.Zlib; None; Some Pak.Oodle; None; None] |}.

(** A version-3 entry with compression slot 1 and two blocks. *)
Definition entry_v3_gzip : list byte :=
  u64 0 ++ u64 250 ++ u64 400 ++ u32 2 ++ zeros 20
  ++ u32 2 ++ u64 100 ++ u64 200 ++ u64 200 ++ u64 350
  ++ u8 0 ++ u32 65536.

Definition compressed_index : list byte :=
  cstring "../../../" ++ u32 1 ++ cstring "c/d.umap" ++ entry_v3_gzip.

Definition pak_v3_compressed : list byte :=
  compressed_index ++ zeros (250 - List.length compressed_index)
  ++ footer_v3 (Z.of_nat (List.length compressed_index)).

(** A version-11 file: the index at offset 0 names a full directory
    index at offset 70, with the directory "/a/" and two file slots, the
    second one invalid. *)
Definition directory_index_v11 : list byte :=
  u32 1 ++ cstring "/a/" ++ u32 2
  ++ cstring "b.txt" ++ u32 0
  ++ cstring "gone" ++ u32 Pak.INVALID_OFFSET.

Definition index_v11 : list byte :=
  cstring "../../../" ++ u32 1 ++ u64 0 ++ u32 0 ++ u32 1 ++ u64 70
  ++ u64 (Z.of_nat (List.length directory_index_v11)) ++ zeros 20.

Definition pak_v11 : list byte :=
  index_v11 ++ directory_index_v11 ++ Reference.encode_footer footer_v11.

(** The path "b" twice in a flat index, with the sizes 10 and 30. *)
Definition pak_duplicates : list byte :=
  pak_v3 [("b"%string, 10); ("a"%string, 20); ("b"%string, 30)].

(** The reader an opened sample is left in. *)
Definition opened (data : list byte) : Pak.Impl :=
  match Pak.open (Some data) with
  | Pak.Ok _ s => s
  | _ => Pak.initial []
  end.

(** The reader after [read_footer] alone. *)
Definition footer_read (version : Pak.Version) (data : list byte) : Pak.Impl :=
  match Pak.read_footer version (Pak.initial data) with
  | Pak.Ok _ s => s
  | _ => Pak.initial []
  end.

(** What the constructor throws on a sample it rejects, and the reader
    at the throw. *)
Definition thrown (data : list byte) : Pak.PakException :=
  match Pak.open (Some data) with
  | Pak.Throw e _ => e
  | _ => Pak.FailedToOpenFile
  end.

Definition rejected (data : list byte) : Pak.Impl :=
  match Pak.open (Some data) with
  | Pak.Throw _ s => s
  | _ => Pak.initial []
  end.

End Samples.

(** ** Strings on the wire *)

Module WireSpec.
Import Wire.

(** No character of the string is NUL. *)
Definition no_nul (s : string) : bool := negb (has_nul (bytes_of_string s)).

(** Every character is a 7-bit one other than NUL. *)
Definition ascii7 (s : string) : bool :=
  forallb (fun b => (0 <? byte_to_Z b) && (byte_to_Z b <? 128)) (bytes_of_string s).

(** The UTF-16 code units of a string of 7-bit characters, each in its
    two little-endian bytes. *)
Definition wide_bytes (s : string) : list byte :=
  flat_map (fun b => [b; x00]) (bytes_of_string s).

End WireSpec.

(** ** Specification vocabulary for the UTOC reader *)

Module UtocSpec.
Import Utoc.

(** The size of the step of the chunk-metadata loop. *)
Definition meta_step (ver : Z) : Z :=
  if version_value ReplaceIoChunkHashWithIoHash <=? ver then 25 else 34.

(** An index is below the length of the vector it is used on. *)
Definition below {A} (v : list A) (i : Z) : bool :=
  (0 <=? i) && (i <? Z.of_nat (List.length v)).

Definition opt_below {A} (v : list A) (o : option Z) : bool :=
  match o with
  | None => true
  | Some i => below v i
  end.

Definition directory_entry_in_bounds (di : FIoDirectoryIndexResource)
    (d : FIoDirectoryIndexEntry) : bool :=
  opt_below (string_table di) (name d)
  && opt_below (directory_entries di) (first_child_entry d)
  && opt_below (directory_entries di) (next_sibling_entry d)
  && opt_below (file_entries di) (first_file_entry d).

Definition file_entry_in_bounds (di : FIoDirectoryIndexResource)
    (f : FIoFileIndexEntry) : bool :=
  below (string_table di) (file_name f)
  && opt_below (file_entries di) (next_file_entry f).

(** Every index stored in the tables points inside its vector. *)
Definition indices_in_bounds (di : FIoDirectoryIndexResource) : bool :=
  forallb (directory_entry_in_bounds di) (directory_entries di)
  && forallb (file_entry_in_bounds di) (file_entries di).

(** The vectors of a reader that [Open] has filled. *)
Record vectors_match (r : UtocReader) : Prop := {
  ids_count :
    List.length (chunk_ids_ r) = Z.to_nat (toc_entry_count (header_ r));
  ids_size : Forall (fun id => List.length id = 12%nat) (chunk_ids_ r);
  offsets_count :
    List.length (chunk_offset_lengths_ r) = Z.to_nat (toc_entry_count (header_ r));
  offsets_size : Forall (fun ol => List.length ol = 10%nat) (chunk_offset_lengths_ r);
  seeds_count :
    version_value PerfectHash <= version (header_ r) ->
    List.length (chunk_perfect_hash_seeds_ r)
    = Z.to_nat (toc_chunk_perfect_hash_seeds_count (header_ r));
  overflow_count :
    version_value PerfectHashWithOverflow <= version (header_ r) ->
    List.length (chunk_indices_without_perfect_hash_ r)
    = Z.to_nat (toc_chunks_without_perfect_hash_count (header_ r));
  blocks_count :
    List.length (compression_blocks_ r)
    = Z.to_nat (toc_compressed_block_entry_count (header_ r));
  blocks_size : Forall (fun b => List.length b = 12%nat) (compression_blocks_ r);
  methods_count :
    List.length (compression_methods_ r)
    = Z.to_nat (compression_method_name_count (header_ r));
  metas_count :
    List.length (chunk_metas_ r) = Z.to_nat (toc_entry_count (header_ r))
}.

(** A path of the listing: the mount point, then directory names and
    separators, then the name of a file entry. *)
Definition path_of_file (di : FIoDirectoryIndexResource) (p : string) : Prop :=
  exists middle f nm,
    In f (file_entries di)
    /\ at_index (string_table di) (file_name f) = Some nm
    /\ p = (mount_point di ++ middle ++ nm)%string.

(** A link, when there is one, points further on in its vector. *)
Definition after (i : nat) (o : option Z) : bool :=
  match o with
  | None => true
  | Some j => Z.of_nat i <? j
  end.

Fixpoint forward_directories (i : nat) (ds : list FIoDirectoryIndexEntry) : bool :=
  match ds with
  | [] => true
  | d :: rest =>
      after i (first_child_entry d) && after i (next_sibling_entry d)
      && forward_directories (S i) rest
  end.

Fixpoint forward_files (i : nat) (fs : list FIoFileIndexEntry) : bool :=
  match fs with
  | [] => true
  | f :: rest => after i (next_file_entry f) && forward_files (S i) rest
  end.

(** Children, siblings and next files all have larger indices than the
    entry that names them: the index has no cycle. *)
Definition forward_linked (di : FIoDirectoryIndexResource) : bool :=
  forward_directories 0 (directory_entries di)
  && forward_files 0 (file_entries di).

(** The bytes [bs] stand at [off] in [data]. *)
Definition holds (data : list byte) (off : Z) (bs : list byte) : Prop :=
  0 <= off <= Z.of_nat (List.length data)
  /\ exists post, skipn (Z.to_nat off) data = bs ++ post.

(** What the four bytes of an optional can hold apart from "none". *)
Definition optional_ok (o : option Z) : bool :=
  match o with
  | Some v => (0 <=? v) && (v <? UINT32_MAX)
  | None => true
  end.

Definition u32_ok (v : Z) : bool := (0 <=? v) && (v <? 2 ^ 32).

(** A byte string that its length field and its terminator can frame. *)
Definition string_ok (s : string) : bool :=
  WireSpec.no_nul s && (Z.of_nat (String.length s) + 1 <? 2 ^ 31).

Definition directory_record_ok (d : FIoDirectoryIndexEntry) : bool :=
  optional_ok (name d) && optional_ok (first_child_entry d)
  && optional_ok (next_sibling_entry d) && optional_ok (first_file_entry d).

Definition file_record_ok (f : FIoFileIndexEntry) : bool :=
  u32_ok (file_name f) && optional_ok (next_file_entry f) && u32_ok (user_data f).

(** The directory indices that the layout can hold. *)
Definition encodable (di : FIoDirectoryIndexResource) : bool :=
  string_ok (mount_point di)
  && u32_ok (Z.of_nat (List.length (directory_entries di)))
  && forallb directory_record_ok (directory_entries di)
  && u32_ok (Z.of_nat (List.length (file_entries di)))
  && forallb file_record_ok (file_entries di)
  && u32_ok (Z.of_nat (List.length (string_table di)))
  && forallb string_ok (string_table di).

(** The keys that the file entries leave in [file_map_]. *)
Definition file_map_after (fs : list FIoFileIndexEntry) (fm : list (Z * string))
  : list (Z * string) :=
  fold_left (fun m f => file_map_assign (user_data f) m) fs fm.

End UtocSpec.

(** ** Specification vocabulary for the PAK reader *)

Module PakSpec.
Import Wire Pak.

(** A triple for the steps of the reader: from a state in [P], the step
    returns in [Q] or throws in [E]. *)
Definition hoare {A} (P : Impl -> Prop) (m : M A)
    (Q : A -> Impl -> Prop) (E : PakException -> Impl -> Prop) : Prop :=
  forall s, P s ->
    match m s with
    | Ok a s' => Q a s'
    | Throw e s' => E e s'
    | Indeterminate => True
    end.

(** A property of the members, whatever the stream does. *)
Definition stream_insensitive (I : Impl -> Prop) : Prop :=
  forall s pos good, I s -> I (set_stream s pos good).

(** A step that only moves the stream and does not throw. *)
Definition reader {A} (m : M A) : Prop :=
  forall s,
    match m s with
    | Ok _ s' => exists pos good, s' = set_stream s pos good
    | Throw _ _ => False
    | Indeterminate => True
    end.

(** The bytes [bs] at the read position are consumed by [m], which
    returns [a] and turns the footer [f] into [f']. *)
Definition reads {A} (f : Footer) (m : M A) (bs : list byte) (a : A) (f' : Footer)
  : Prop :=
  forall d p mp e rest,
    0 <= p ->
    skipn (Z.to_nat p) d = bs ++ rest ->
    m {| stream_data := d; stream_pos := p; stream_good := true;
         footer_ := f; mount_point_ := mp; entries_ := e |}
    = Ok a {| stream_data := d; stream_pos := p + Z.of_nat (List.length bs);
              stream_good := true;
              footer_ := f'; mount_point_ := mp; entries_ := e |}.

(** The order of [std::string]: bytes compared as unsigned, a proper
    prefix first. *)
Definition string_lt (a b : string) : Prop := String.compare a b = Lt.

(** The map after the assignments [l], in order. *)
Definition assign_all (l : list (string * Entry)) (m : map_t) : map_t :=
  fold_left (fun acc pe => map_assign (fst pe) (snd pe) acc) l m.

(** The entry of the last assignment to [path] among [l]. *)
Fixpoint last_assigned (path : string) (l : list (string * Entry)) : option Entry :=
  match l with
  | [] => None
  | (k, e) :: rest =>
      match last_assigned path rest with
      | Some e' => Some e'
      | None => if String.eqb path k then Some e else None
      end
  end.

Definition has_blocks (e : Entry) : bool :=
  match blocks e with Some _ => true | None => false end.
Definition has_slot (e : Entry) : bool :=
  match compression_slot e with Some _ => true | None => false end.

(** Blocks are present exactly when the slot is and the version has
    them. *)
Definition blocks_iff_slot (f : Footer) (e : Entry) : Prop :=
  has_blocks e = has_slot e
                 && (VersionMajor_value CompressionEncryption <=? version_major f).

(** What the index loops assign under the footer [f]: an entry whose
    blocks follow its slot, and, in the PathHashIndex branch, the dummy
    entry under a path built from a directory and a file name. *)
Definition assigned_ok (f : Footer) (pe : string * Entry) : Prop :=
  blocks_iff_slot f (snd pe)
  /\ (VersionMajor_value PathHashIndex <= version_major f ->
      snd pe = dummy_entry
      /\ exists dir_name file_name, fst pe = full_path dir_name file_name).

Definition built (f : Footer) (m0 m : map_t) : Prop :=
  exists l, m = assign_all l m0 /\ Forall (assigned_ok f) l.

(** The first two characters are both '/'. *)
Definition starts_with_two_slashes (s : string) : bool :=
  match s with
  | String c1 (String c2 _) => Ascii.eqb c1 "/"%char && Ascii.eqb c2 "/"%char
  | _ => false
  end.

(** The members during [read_index]: before the first assignment, and
    while the loops assign. *)
Definition members (f : Footer) (m0 : map_t) (s : Impl) : Prop :=
  footer_ s = f /\ entries_ s = m0.

Definition building (f : Footer) (m0 : map_t) (s : Impl) : Prop :=
  footer_ s = f /\ built f m0 (entries_ s).

(** What [read_entry] and the dummy entry give the fields of an entry
    under the footer [f]: the widths of the integers, the timestamp of
    the first version only, the 20 bytes of the hash, and no flags and
    no compression block size outside the versions that store them. *)
Record entry_fits (f : Footer) (e : Entry) : Prop := {
  fits_offset : 0 <= offset e < 2 ^ 64;
  fits_compressed_size : 0 <= compressed_size e < 2 ^ 64;
  fits_uncompressed_size : 0 <= uncompressed_size e < 2 ^ 64;
  fits_slot :
    match compression_slot e with
    | Some slot => 0 <= slot < 2 ^ 32 - 1
    | None => True
    end;
  fits_timestamp :
    timestamp e <> None <-> version_major f = VersionMajor_value Initial;
  fits_hash : List.length (hash e) = 20%nat;
  fits_flags :
    version_major f < VersionMajor_value CompressionEncryption
    \/ VersionMajor_value PathHashIndex <= version_major f ->
    flags e = 0 /\ compression_block_size e = 0
}.

(** The members while the index loops run: the footer is [f] and every
    entry of the map fits it. *)
Definition fitting (f : Footer) (s : Impl) : Prop :=
  footer_ s = f /\ Forall (fun pe => entry_fits f (snd pe)) (entries_ s).

(** [d] is a non-empty part of [p] that ends right before a '/'. *)
Definition is_directory_of (d p : string) : Prop :=
  d <> EmptyString /\ exists rest, p = (d ++ "/" ++ rest)%string.

End PakSpec.

(** * Properties of the UTOC reader *)

Module UtocFacts.
Import Wire Utoc Samples UtocSpec.

Lemma slice_length data off n bs :
  slice data off n = Some bs -> Z.of_nat (List.length bs) = n.
Proof.
  unfold slice.
  destruct ((0 <=? off) && (0 <=? n) && (off + n <=? Z.of_nat (List.length data))) eqn:E;
    [|discriminate].
  intros H; injection H as <-.
  apply andb_prop in E as [E E3]. apply andb_prop in E as [E1 E2].
  apply Z.leb_le in E1, E2, E3.
  rewrite length_firstn, length_skipn. lia.
Qed.

Lemma slice_header data hb :
  slice data 0 sizeof_FIoStoreTocHeader = Some hb -> hb = firstn 144 data.
Proof.
  unfold slice. destruct (_ && _); [|discriminate].
  intros H; injection H as <-. reflexivity.
Qed.

Lemma ReadValue_offset sz data off v off' :
  ReadValue sz data off = Some (v, off') -> off' = off + sz.
Proof.
  unfold ReadValue. destruct (slice data off sz); [|discriminate].
  intros H; injection H as _ <-. reflexivity.
Qed.

Lemma ReadOptional_offset data off v off' :
  ReadOptional data off = Some (v, off') -> off' = off + 4.
Proof.
  unfold ReadOptional. destruct (ReadValue 4 data off) as [[x o]|] eqn:E; [|discriminate].
  apply ReadValue_offset in E. destruct (x =? UINT32_MAX); intros H; injection H as _ <-; exact E.
Qed.

Lemma read_meta_advance ver data m off m' off' :
  read_meta ver data m off = Some (m', off') -> off' = off + meta_step ver.
Proof.
  unfold read_meta, meta_step, sizeof_FIoChunkHash.
  destruct (version_value ReplaceIoChunkHashWithIoHash <=? ver).
  - destruct (slice data off 20); [|discriminate].
    destruct (ReadValue 1 data (off + 20)) as [[fl o]|] eqn:E; [|discriminate].
    apply ReadValue_offset in E. intros H; injection H as _ <-. lia.
  - destruct (slice data off 32); [|discriminate].
    destruct (ReadValue 1 data (off + 32)) as [[fl o]|] eqn:E; [|discriminate].
    apply ReadValue_offset in E. intros H; injection H as _ <-. lia.
Qed.

(** The cursor after the chunk-metadata loop: 25 bytes a record from
    ReplaceIoChunkHashWithIoHash on, 34 before. *)
Lemma read_metas_advance ver data metas :
  forall off metas' off',
    read_metas ver data metas off = Some (metas', off') ->
    off' = off + Z.of_nat (List.length metas) * meta_step ver
    /\ List.length metas' = List.length metas.
Proof.
  induction metas as [|m rest IH]; intros off metas' off' H; simpl in H.
  - injection H as <- <-. simpl. split; [lia | reflexivity].
  - destruct (read_meta ver data m off) as [[m1 o1]|] eqn:E1; [|discriminate].
    destruct (read_metas ver data rest o1) as [[r1 o2]|] eqn:E2; [|discriminate].
    injection H as <- <-.
    apply read_meta_advance in E1. apply IH in E2 as [E2 E3].
    split; [|simpl; congruence].
    rewrite E2, E1. change (List.length (m :: rest)) with (S (List.length rest)). lia.
Qed.

(** C2 (the code at a well-formed input).  [utoc_two_chunks] is a
    version-8 file with two chunk-metadata records of the documented
    24-byte layout, both flagged Compressed.  [Open] steps 25 bytes a
    record: the cursor ends at 50 and not 48 past the section start, the
    second record is read one byte late, its hash ends with the flag
    byte of the file and its flag is a padding byte. *)
Theorem chunk_meta_step_is_25_and_34 :
  (exists metas,
      read_metas 8 utoc_two_chunks [zero_meta; zero_meta] 188 = Some (metas, 188 + 50))
  /\ (exists metas,
      read_metas 7 (zeros 400) [zero_meta; zero_meta] 188 = Some (metas, 188 + 68))
  /\ option_map (fun p => (fst p, map flags (chunk_metas_ (snd p))))
       (Open fresh_reader (Some utoc_two_chunks)) = Some (true, [1; 0])
  /\ option_map (fun p => map (fun m => nth 19 (chunk_hash m) x00) (chunk_metas_ (snd p)))
       (Open fresh_reader (Some utoc_two_chunks)) = Some [xaa; x01].
Proof.
  split; [|split; [|split]].
  - eexists. vm_compute. reflexivity.
  - eexists. vm_compute. reflexivity.
  - vm_compute. reflexivity.
  - vm_compute. reflexivity.
Qed.

(** *** The string reader *)

Lemma read_units_cursor n data :
  forall off acc utf16 off',
    read_units n data off acc = Some (utf16, off') ->
    exists k : nat,
      List.length utf16 = (List.length acc + k)%nat /\ (k <= n)%nat
      /\ off' = off + 2 * Z.of_nat k + (if (k <? n)%nat then 2 else 0).
Proof.
  induction n as [|n IH]; intros off acc utf16 off' H; simpl in H.
  - injection H as <- <-. exists 0%nat. simpl. repeat split; lia.
  - destruct (ReadValue 2 data off) as [[c o]|] eqn:E; [|discriminate].
    apply ReadValue_offset in E. subst o.
    destruct (c =? 0).
    + injection H as <- <-. exists 0%nat. simpl. repeat split; lia.
    + apply IH in H as (k & Hl & Hk & Ho).
      exists (S k). rewrite length_app in Hl. simpl in Hl.
      repeat split; try lia.
      rewrite Ho. change (S k <? S n)%nat with (k <? n)%nat.
      destruct (k <? n)%nat; lia.
Qed.

(** For a negative declared length [L], [ReadString] leaves the cursor
    [4 + 2|L|] bytes on when no unit is zero, and two bytes further when
    one is: the zero unit is stepped over by the loop and skipped again
    after it. *)
Lemma ReadString_wide_cursor data off raw o4 s off' :
  ReadValue 4 data off = Some (raw, o4) ->
  to_signed 32 raw < 0 ->
  ReadString data off = Some (s, off') ->
  exists k : nat,
    0 <= Z.of_nat k <= - to_signed 32 raw
    /\ off' = off + 4 + 2 * (- to_signed 32 raw)
              + (if Z.of_nat k <? - to_signed 32 raw then 2 else 0).
Proof.
  intros Hraw Hneg. unfold ReadString. rewrite Hraw.
  apply ReadValue_offset in Hraw. subst o4.
  set (L := to_signed 32 raw) in *.
  destruct (L =? 0) eqn:E0; [apply Z.eqb_eq in E0; lia|].
  destruct (L <? 0) eqn:E1; [|apply Z.ltb_ge in E1; lia].
  destruct (L =? - 2 ^ 31); [discriminate|].
  destruct (read_units (Z.to_nat (- L)) data (off + 4) []) as [[u o1]|] eqn:E; [|discriminate].
  apply read_units_cursor in E as (k & Hl & Hk & Ho).
  simpl in Hl. rewrite Hl.
  intros H; injection H as _ <-.
  exists k. split; [lia|].
  destruct (Z.of_nat k <? - L) eqn:Ek.
  - apply Z.ltb_lt in Ek.
    assert (Hkn : (k <? Z.to_nat (- L))%nat = true) by (apply Nat.ltb_lt; lia).
    rewrite Hkn in Ho. lia.
  - apply Z.ltb_ge in Ek.
    assert (Hkn : (k <? Z.to_nat (- L))%nat = false) by (apply Nat.ltb_ge; lia).
    rewrite Hkn in Ho. lia.
Qed.


(** C3 (the code at a well-formed input).  [wide_a] declares the length
    -2 and holds the units 'a' and 0.  The UTOC reader yields "a" and
    leaves the cursor at 10, two bytes past the 4 + 2*2 = 8 bytes of the
    string; the PAK reader, on the same bytes, stops at 8. *)
Theorem wide_string_cursor_overshoots :
  ReadString wide_a 0 = Some ("a"%string, 10)
  /\ ReadString (wide_a ++ u32 1) 0 = Some ("a"%string, 10)
  /\ (exists s, Pak.read_string (Pak.initial wide_a) = Pak.Ok "a"%string s
                /\ Pak.stream_pos s = 8).
Proof.
  split; [|split].
  - vm_compute. reflexivity.
  - vm_compute. reflexivity.
  - eexists. split; vm_compute; reflexivity.
Qed.

(** *** What [Open] checks and what it leaves behind *)

Lemma read_hash_map_frame r data off r' off' :
  read_hash_map r data off = Some (r', off') ->
  header_ r' = header_ r /\ chunk_metas_ r' = chunk_metas_ r
  /\ directory_index_ r' = directory_index_ r /\ file_map_ r' = file_map_ r.
Proof.
  unfold read_hash_map.
  destruct (version_value PerfectHashWithOverflow <=? version (header_ r)).
  - destruct (slice data off _); [|discriminate]. simpl.
    destruct (slice data _ _); [|discriminate].
    intros H; injection H as <- _. repeat split.
  - destruct (version_value PerfectHash <=? version (header_ r)).
    + destruct (slice data off _); [|discriminate].
      intros H; injection H as <- _. repeat split.
    + intros H; injection H as <- _. repeat split.
Qed.

Lemma ParseDirectoryIndex_true r data ok r' :
  ParseDirectoryIndex r data = Some (ok, r') ->
  ok = true /\ header_ r' = header_ r /\ chunk_metas_ r' = chunk_metas_ r.
Proof.
  unfold ParseDirectoryIndex.
  destruct (ReadString data 0) as [[mp o1]|]; [|discriminate].
  destruct (ReadValue 4 data o1) as [[n1 o2]|]; [|discriminate].
  destruct (read_directory_entries _ data o2) as [[ds o3]|]; [|discriminate].
  destruct (ReadValue 4 data o3) as [[n2 o4]|]; [|discriminate].
  destruct (read_file_entries _ data o4 _) as [[[fs fm] o5]|]; [|discriminate].
  destruct (ReadValue 4 data o5) as [[n3 o6]|]; [|discriminate].
  destruct (read_strings _ data o6) as [[ss o7]|]; [|discriminate].
  intros H; injection H as <- <-. repeat split.
Qed.

Lemma read_chunk_metadata_true r data off ok r' :
  read_chunk_metadata r data off = Some (ok, r') ->
  ok = true /\ header_ r' = header_ r.
Proof.
  unfold read_chunk_metadata.
  destruct (read_metas _ data _ off) as [[ms o]|]; [|discriminate].
  intros H; injection H as <- <-. split; reflexivity.
Qed.

(** The three ways [Open] returns on a file it could read. *)
Lemma Open_cases r data ok r' :
  Open r (Some data) = Some (ok, r') ->
  let h := parse_header (firstn 144 data) in
  header_ r' = h
  /\ ((ok = false /\ IsValid h = false /\ r' = set_header_ r h)
      \/ (ok = false /\ IsValid h = true /\ IsEncrypted h = true
          /\ chunk_metas_ r' = chunk_metas_ r
          /\ directory_index_ r' = directory_index_ r
          /\ file_map_ r' = file_map_ r)
      \/ (ok = true /\ IsValid h = true /\ IsEncrypted h = false)).
Proof.
  unfold Open.
  destruct (slice data 0 sizeof_FIoStoreTocHeader) as [hb|] eqn:Ehb; [|discriminate].
  apply slice_header in Ehb. subst hb.
  set (h := parse_header (firstn 144 data)).
  change (header_ (set_header_ r h)) with h.
  destruct (IsValid h) eqn:Ev; simpl negb; cbv iota.
  2:{ intros H; injection H as <- <-. simpl. split; [reflexivity|]. left. auto. }
  destruct (slice data _ _) as [ids|]; [|discriminate].
  destruct (slice data _ _) as [ols|]; [|discriminate].
  destruct (read_hash_map _ data _) as [[r1 o1]|] eqn:Eh; [|discriminate].
  apply read_hash_map_frame in Eh as (Hh1 & Hm1 & Hd1 & Hf1). simpl in Hh1, Hm1, Hd1, Hf1.
  destruct (slice data o1 _) as [bl|]; [|discriminate].
  destruct (read_methods _ data _ _) as [[ms o2]|]; [|discriminate].
  destruct (IsEncrypted h) eqn:Ee.
  { intros H; injection H as <- <-. simpl. split; [exact Hh1|]. right; left. auto 10. }
  destruct (if IsSigned h then _ else _) as [[r2 o3]|] eqn:Es; [|discriminate].
  assert (Hh2 : header_ r2 = h).
  { destruct (IsSigned h).
    - destruct (ReadValue 4 data o2) as [[sg o]|]; [|discriminate].
      injection Es as <- _. exact Hh1.
    - injection Es as <- _. exact Hh1. }
  clear Es.
  destruct (IsIndexed h && (0 <? directory_index_size h)).
  - destruct (slice data o3 _) as [dd|]; [|discriminate].
    destruct (ParseDirectoryIndex r2 dd) as [[okp r3]|] eqn:Ep; [|discriminate].
    apply ParseDirectoryIndex_true in Ep as (-> & Hh3 & _). simpl negb. cbv iota.
    intros H. apply read_chunk_metadata_true in H as (-> & Hh4).
    split; [congruence|]. right; right. auto.
  - intros H. apply read_chunk_metadata_true in H as (-> & Hh4).
    split; [congruence|]. right; right. auto.
Qed.

Lemma IsValid_magic data :
  IsValid (parse_header (firstn 144 data)) = true <-> firstn 16 data = MAGIC.
Proof.
  unfold IsValid, parse_header, field; cbn [toc_magic skipn].
  rewrite firstn_firstn. change (Nat.min 16 144) with 16%nat.
  destruct (list_eq_dec _ _ _); split; intros; congruence.
Qed.

(** C4 (counterexample).  [utoc_unchecked_header] has the magic, the
    declared header size 0 and the version Invalid, and [Open] accepts
    it. *)
Lemma open_accepts_unchecked_header :
  exists r',
    Open fresh_reader (Some utoc_unchecked_header) = Some (true, r')
    /\ toc_header_size (header_ r') <> 144
    /\ version (header_ r') = version_value Invalid.
Proof.
  eexists. split; [vm_compute; reflexivity|]. split; [vm_compute; discriminate|].
  vm_compute. reflexivity.
Qed.

(** C4 (amended).  [Open] decides on the magic alone: it answers [true]
    only when the first 16 bytes are the magic, answers [false] when they
    are not, and either way the header is the first 144 bytes of the file
    as they are; the declared size and the version are not looked at. *)
Theorem open_checks_magic_only r data ok r' :
  Open r (Some data) = Some (ok, r') ->
  (ok = true -> firstn 16 data = MAGIC)
  /\ (firstn 16 data <> MAGIC -> ok = false)
  /\ header_ r' = parse_header (firstn 144 data).
Proof.
  intros H. apply Open_cases in H as [Hh Hc]. cbv zeta in Hc.
  split; [|split]; [| |exact Hh].
  - intros ->. apply IsValid_magic.
    destruct Hc as [(? & _)|[(? & _)|(_ & Hv & _)]]; [discriminate..|exact Hv].
  - intros Hm.
    destruct Hc as [(? & _)|[(? & _)|(_ & Hv & _)]]; [assumption..|].
    apply IsValid_magic in Hv. contradiction.
Qed.

(** The amended C4 at [utoc_unchecked_header]. *)
Lemma open_checks_magic_only_witness :
  (true = true -> firstn 16 utoc_unchecked_header = MAGIC)
  /\ (firstn 16 utoc_unchecked_header <> MAGIC -> true = false)
  /\ header_ (set_header_ fresh_reader (parse_header (firstn 144 utoc_unchecked_header)))
     = parse_header (firstn 144 utoc_unchecked_header).
Proof.
  apply (open_checks_magic_only fresh_reader utoc_unchecked_header true
           (set_header_ fresh_reader (parse_header (firstn 144 utoc_unchecked_header)))).
  vm_compute. reflexivity.
Defined.




(** *** The traversal *)

Lemma at_index_below {A} (v : list A) i :
  below v i = true -> exists x, at_index v i = Some x /\ In x v.
Proof.
  unfold below, at_index. intros H.
  apply andb_prop in H as [H1 H2]. apply Z.leb_le in H1. apply Z.ltb_lt in H2.
  destruct (nth_error v (Z.to_nat i)) as [x|] eqn:E.
  - exists x. split; [reflexivity|]. eapply nth_error_In; eassumption.
  - apply nth_error_None in E. lia.
Qed.

Section InBounds.
Variable di : FIoDirectoryIndexResource.
Hypothesis Hwf : indices_in_bounds di = true.

Lemma directory_entry_ok d :
  In d (directory_entries di) -> directory_entry_in_bounds di d = true.
Proof.
  unfold indices_in_bounds in Hwf. apply andb_prop in Hwf as [H _].
  rewrite forallb_forall in H. apply H.
Qed.

Lemma file_entry_ok f :
  In f (file_entries di) -> file_entry_in_bounds di f = true.
Proof.
  unfold indices_in_bounds in Hwf. apply andb_prop in Hwf as [_ H].
  rewrite forallb_forall in H. apply H.
Qed.

Lemma file_loop_in_range fuel :
  forall idx path result,
    opt_below (file_entries di) idx = true ->
    file_loop fuel di idx path result <> OutOfRange.
Proof.
  induction fuel as [|fuel IH]; intros [i|] path result Hi; simpl; try discriminate.
  simpl in Hi. apply at_index_below in Hi as (f & -> & Hf).
  apply file_entry_ok in Hf. unfold file_entry_in_bounds in Hf.
  apply andb_prop in Hf as [Hn Hnext].
  apply at_index_below in Hn as (nm & -> & _).
  apply IH. exact Hnext.
Qed.

Lemma traverse_in_range fuel :
  (forall i path result,
      below (directory_entries di) i = true ->
      traverseDirectory fuel di i path result <> OutOfRange)
  /\ (forall c path result,
         opt_below (directory_entries di) c = true ->
         child_loop fuel di c path result <> OutOfRange).
Proof.
  induction fuel as [|fuel [IHt IHc]].
  - split; [intros; simpl; discriminate|].
    intros [c|] path result _; simpl; discriminate.
  - split.
    + intros i path result Hi. simpl.
      apply at_index_below in Hi as (d & -> & Hd).
      apply directory_entry_ok in Hd. unfold directory_entry_in_bounds in Hd.
      apply andb_prop in Hd as [Hd Hfile]. apply andb_prop in Hd as [Hd Hsib].
      apply andb_prop in Hd as [Hname Hchild].
      assert (Hp : exists path',
                 match name d with
                 | Some n => match at_index (string_table di) n with
                             | Some s => Some (path ++ [s])
                             | None => None
                             end
                 | None => Some path
                 end = Some path').
      { destruct (name d) as [n|]; [|eauto].
        simpl in Hname. apply at_index_below in Hname as (s & -> & _). eauto. }
      destruct Hp as [path' ->].
      pose proof (file_loop_in_range fuel (first_file_entry d) path' result Hfile) as Hfl.
      destruct (file_loop fuel di (first_file_entry d) path' result);
        [apply IHc; exact Hchild | contradiction | discriminate].
    + intros [c|] path result Hc; simpl; [|discriminate].
      simpl in Hc. pose proof (IHt c path result Hc) as Ht.
      destruct (traverseDirectory fuel di c path result);
        [| contradiction | discriminate].
      apply at_index_below in Hc as (d & -> & Hd).
      apply directory_entry_ok in Hd. unfold directory_entry_in_bounds in Hd.
      apply andb_prop in Hd as [Hd _]. apply andb_prop in Hd as [_ Hsib].
      apply IHc. exact Hsib.
Qed.

End InBounds.




End UtocFacts.

(** * Properties of the PAK reader *)

Module PakFacts.
Import Wire Pak PakSpec Reference Samples.
Local Open Scope pak_scope.

(** *** Rules of the triple *)

Lemma hoare_ret {A} (P : Impl -> Prop) (a : A) Q E :
  (forall s, P s -> Q a s) -> hoare P (ret a) Q E.
Proof. intros H s Hs. apply H, Hs. Qed.

Lemma hoare_throw {A} (P : Impl -> Prop) e (Q : A -> Impl -> Prop) E :
  (forall s, P s -> E e s) -> hoare P (throw e) Q E.
Proof. intros H s Hs. apply H, Hs. Qed.

Lemma hoare_indeterminate {A} P (Q : A -> Impl -> Prop) E :
  hoare P indeterminate Q E.
Proof. intros s _. exact I. Qed.

Lemma hoare_bind {A B} P (m : M A) (k : A -> M B) Q R E :
  hoare P m Q E -> (forall a, hoare (Q a) (k a) R E) -> hoare P (bind m k) R E.
Proof.
  intros Hm Hk s Hs. unfold bind. specialize (Hm s Hs).
  destruct (m s) as [a s'| |]; [apply Hk, Hm | exact Hm | exact I].
Qed.

Lemma hoare_weaken {A} (P P' : Impl -> Prop) (m : M A) (Q Q' : A -> Impl -> Prop)
    (E E' : PakException -> Impl -> Prop) :
  hoare P m Q E ->
  (forall s, P' s -> P s) ->
  (forall a s, Q a s -> Q' a s) ->
  (forall e s, E e s -> E' e s) ->
  hoare P' m Q' E'.
Proof.
  intros H HP HQ HE s Hs. specialize (H s (HP s Hs)).
  destruct (m s); auto.
Qed.

Lemma hoare_pure {A} (phi : Prop) P (m : M A) Q E :
  (phi -> hoare P m Q E) -> hoare (fun s => P s /\ phi) m Q E.
Proof. intros H s [Hs Hphi]. apply (H Hphi), Hs. Qed.

(** *** Steps that only read *)

Lemma set_stream_eta s : s = set_stream s (stream_pos s) (stream_good s).
Proof. destruct s; reflexivity. Qed.

Lemma reader_ret {A} (a : A) : reader (ret a).
Proof. intros s. simpl. eexists _, _. apply set_stream_eta. Qed.

Lemma reader_indeterminate {A} : reader (@indeterminate A).
Proof. intros s. exact I. Qed.

Lemma reader_bind {A B} (m : M A) (k : A -> M B) :
  reader m -> (forall a, reader (k a)) -> reader (bind m k).
Proof.
  intros Hm Hk s. unfold bind. specialize (Hm s).
  destruct (m s) as [a s'| |]; [|exact Hm|exact I].
  destruct Hm as (p & g & ->). specialize (Hk a (set_stream s p g)).
  destruct (k a (set_stream s p g)) as [b s''| |]; [|exact Hk|exact I].
  destruct Hk as (p' & g' & ->). exists p', g'. reflexivity.
Qed.

Lemma reader_stream_read n : reader (stream_read n).
Proof.
  intros s. unfold stream_read. destruct (_ && _); [|exact I]. eexists _, _. reflexivity.
Qed.

Lemma reader_seekg_end off : reader (seekg_end off).
Proof.
  intros s. unfold seekg_end.
  destruct (stream_good s); [destruct (_ <? 0)|]; eexists _, _;
    first [reflexivity | apply set_stream_eta].
Qed.

Lemma reader_seekg pos : reader (seekg pos).
Proof.
  intros s. unfold seekg.
  destruct (stream_good s); [destruct (_ <? 0)|]; eexists _, _;
    first [reflexivity | apply set_stream_eta].
Qed.

Lemma reader_seekg_cur off : reader (seekg_cur off).
Proof.
  intros s. unfold seekg_cur.
  destruct (stream_good s); eexists _, _; first [reflexivity | apply set_stream_eta].
Qed.

Lemma reader_tellg : reader tellg.
Proof. intros s. unfold tellg. eexists _, _. apply set_stream_eta. Qed.

Lemma reader_get_footer : reader get_footer.
Proof. intros s. unfold get_footer. eexists _, _. apply set_stream_eta. Qed.

Lemma reader_read_uint n : reader (read_uint n).
Proof.
  unfold read_uint. apply reader_bind; [apply reader_stream_read|].
  intros; apply reader_ret.
Qed.

Lemma reader_read_guid : reader read_guid.
Proof. apply reader_stream_read. Qed.

Lemma reader_read_string : reader read_string.
Proof.
  unfold read_string. apply reader_bind; [apply reader_read_uint|]. intros raw.
  destruct (_ <? 0).
  - destruct (_ =? _); [apply reader_indeterminate|].
    apply reader_bind; [apply reader_stream_read|]. intros; apply reader_ret.
  - apply reader_bind; [apply reader_stream_read|]. intros; apply reader_ret.
Qed.

Lemma reader_read_blocks n : reader (read_blocks n).
Proof.
  induction n as [|n IH]; simpl; [apply reader_ret|].
  apply reader_bind; [apply reader_read_uint|]. intros b1.
  apply reader_bind; [apply reader_read_uint|]. intros b2.
  apply reader_bind; [exact IH|]. intros; apply reader_ret.
Qed.

Lemma reader_read_compression n : reader (read_compression n).
Proof.
  induction n as [|n IH]; simpl; [apply reader_ret|].
  apply reader_bind; [apply reader_stream_read|]. intros nm.
  apply reader_bind; [exact IH|]. intros; apply reader_ret.
Qed.

Create HintDb readers.
#[local] Hint Resolve reader_ret reader_indeterminate reader_stream_read
  reader_seekg_end reader_seekg reader_seekg_cur reader_tellg reader_get_footer
  reader_read_uint reader_read_guid reader_read_string reader_read_blocks
  reader_read_compression : readers.

(** A reader keeps every property of the members, and it returns. *)
Lemma hoare_reader {A} (m : M A) (Inv : Impl -> Prop) E :
  reader m -> stream_insensitive Inv -> hoare Inv m (fun _ => Inv) E.
Proof.
  intros Hm HI s Hs. specialize (Hm s).
  destruct (m s) as [a s'| |]; [|contradiction|exact I].
  destruct Hm as (p & g & ->). apply HI, Hs.
Qed.

Lemma hoare_read_bool (Inv : Impl -> Prop) :
  stream_insensitive Inv -> hoare Inv read_bool (fun _ => Inv) (fun _ => Inv).
Proof.
  intros HI. unfold read_bool.
  eapply hoare_bind; [apply hoare_reader; auto with readers|].
  intros v. cbv beta. destruct (_ && _).
  - apply hoare_throw. auto.
  - apply hoare_ret. auto.
Qed.

Lemma hoare_upd_footer (P : Impl -> Prop) g (Q : unit -> Impl -> Prop) E :
  (forall s, P s -> Q tt (set_footer_ s (g (footer_ s)))) ->
  hoare P (upd_footer g) Q E.
Proof. intros H s Hs. apply H, Hs. Qed.


Ltac reader_step :=
  eapply hoare_bind;
  [ apply hoare_reader; [auto with readers | assumption]
  | intros ?; cbv beta ].

(** *** The entry reader *)

Lemma read_entry_spec (Inv : Impl -> Prop) f E :
  stream_insensitive Inv ->
  (forall s, Inv s -> footer_ s = f) ->
  hoare Inv read_entry (fun e s => Inv s /\ blocks_iff_slot f e) E.
Proof.
  intros HI Hf. unfold read_entry.
  eapply hoare_bind with (Q := fun v s => Inv s /\ v = f).
  { intros s Hs. simpl. split; [exact Hs | apply Hf, Hs]. }
  intros f'. apply hoare_pure. intros ->.
  reader_step. reader_step. reader_step.
  eapply hoare_bind; [apply hoare_reader; [|assumption]|intros slot; cbv beta].
  { destruct (_ =? _); apply reader_bind; auto with readers. }
  eapply hoare_bind; [apply hoare_reader; [|assumption]|intros ts; cbv beta].
  { destruct (_ =? _); [apply reader_bind|]; auto with readers. }
  reader_step.
  eapply hoare_bind with
    (Q := fun bl s =>
            Inv s
            /\ (match bl with Some _ => true | None => false end)
               = (match slot with Some _ => true | None => false end)
                 && (VersionMajor_value CompressionEncryption <=? version_major f)).
  { destruct (VersionMajor_value CompressionEncryption <=? version_major f);
      destruct slot as [sl|]; cbn [andb].
    - reader_step.
      eapply hoare_bind; [apply hoare_reader; [auto with readers | assumption]|].
      intros bl. apply hoare_ret. auto.
    - apply hoare_ret. auto.
    - apply hoare_ret. auto.
    - apply hoare_ret. auto. }
  intros bl. apply hoare_pure. intros Hbl.
  eapply hoare_bind; [apply hoare_reader; [|assumption]|intros fl; cbv beta].
  { destruct (_ <=? _); [|auto with readers].
    apply reader_bind; [auto with readers|]. intros.
    apply reader_bind; auto with readers. }
  apply hoare_ret. intros s Hs. split; [exact Hs|].
  unfold blocks_iff_slot, has_blocks, has_slot. simpl. exact Hbl.
Qed.

(** *** The index loops build the map by assignments *)

Lemma members_insensitive f m0 : stream_insensitive (members f m0).
Proof. intros s p g H. exact H. Qed.

Lemma building_insensitive f m0 : stream_insensitive (building f m0).
Proof. intros s p g H. exact H. Qed.

#[local] Hint Resolve members_insensitive building_insensitive : readers.

Lemma built_refl f m0 : built f m0 m0.
Proof. exists []. split; [reflexivity | constructor]. Qed.

Lemma built_step f m0 m path e :
  built f m0 m -> assigned_ok f (path, e) -> built f m0 (map_assign path e m).
Proof.
  intros (l & -> & Hl) Hok. exists (l ++ [(path, e)]). split.
  - unfold assign_all. rewrite fold_left_app. reflexivity.
  - apply Forall_app. split; [exact Hl | constructor; [exact Hok | constructor]].
Qed.

Lemma assign_entry_spec f m0 path e E :
  assigned_ok f (path, e) ->
  hoare (building f m0) (assign_entry path e) (fun _ => building f m0) E.
Proof.
  intros Hok s [Hf Hb]. simpl. split; [exact Hf | apply built_step; assumption].
Qed.

Lemma dummy_entry_ok f dir_name file_name :
  assigned_ok f (full_path dir_name file_name, dummy_entry).
Proof.
  split; [reflexivity|]. intros ?. split; [reflexivity|].
  exists dir_name, file_name. reflexivity.
Qed.

Lemma read_entries_spec f m0 E n :
  version_major f < VersionMajor_value PathHashIndex ->
  hoare (building f m0) (read_entries n) (fun _ => building f m0) E.
Proof.
  intros Hold. induction n as [|n IH]; simpl.
  - apply hoare_ret. auto.
  - eapply hoare_bind;
      [apply hoare_reader; [auto with readers | apply building_insensitive]|].
    intros path. cbv beta.
    eapply hoare_bind.
    { apply read_entry_spec with (f := f);
        [apply building_insensitive | intros s Hs; apply Hs]. }
    intros e. cbv beta. apply hoare_pure. intros He.
    eapply hoare_bind; [|intros ?; exact IH].
    apply assign_entry_spec. split; [exact He|]. intros H. exfalso.
    apply (Z.lt_irrefl _ (Z.lt_le_trans _ _ _ Hold H)).
Qed.

Lemma read_directory_files_spec f m0 E dir_name n :
  hoare (building f m0) (read_directory_files n dir_name) (fun _ => building f m0) E.
Proof.
  induction n as [|n IH]; simpl.
  - apply hoare_ret. auto.
  - eapply hoare_bind;
      [apply hoare_reader; [auto with readers | apply building_insensitive]|].
    intros file_name. cbv beta.
    eapply hoare_bind;
      [apply hoare_reader; [auto with readers | apply building_insensitive]|].
    intros encoded_offset. cbv beta.
    eapply hoare_bind; [|intros ?; exact IH].
    destruct (encoded_offset =? INVALID_OFFSET).
    + apply hoare_ret. auto.
    + apply assign_entry_spec, dummy_entry_ok.
Qed.

Lemma read_directories_spec f m0 E n :
  hoare (building f m0) (read_directories n) (fun _ => building f m0) E.
Proof.
  induction n as [|n IH]; simpl.
  - apply hoare_ret. auto.
  - eapply hoare_bind;
      [apply hoare_reader; [auto with readers | apply building_insensitive]|].
    intros dir_name. cbv beta.
    eapply hoare_bind;
      [apply hoare_reader; [auto with readers | apply building_insensitive]|].
    intros file_count. cbv beta.
    eapply hoare_bind; [apply read_directory_files_spec|].
    intros ?. exact IH.
Qed.

(** [read_index] throws only before it touches the map; when it
    returns, the map has grown by assignments. *)
Lemma read_index_spec f m0 :
  hoare (members f m0) read_index
    (fun _ => building f m0) (fun _ s => entries_ s = m0).
Proof.
  unfold read_index.
  eapply hoare_bind with (Q := fun v s => members f m0 s /\ v = f).
  { intros s Hs. simpl. split; [exact Hs | apply Hs]. }
  intros f'. apply hoare_pure. intros ->.
  eapply hoare_bind;
    [apply hoare_reader; [auto with readers | apply members_insensitive]|].
  intros ?. cbv beta.
  eapply hoare_bind with (Q := fun _ => members f m0).
  { destruct (encrypted f).
    - apply hoare_throw. intros s Hs. apply Hs.
    - apply hoare_ret. auto. }
  intros ?.
  eapply hoare_bind;
    [apply hoare_reader; [auto with readers | apply members_insensitive]|].
  intros mp. cbv beta.
  eapply hoare_bind with (Q := fun _ => building f m0).
  { intros s [Hf Hm]. split; [exact Hf|].
    change (built f m0 (entries_ s)). rewrite Hm. apply built_refl. }
  intros ?.
  assert (Hb := building_insensitive f m0).
  reader_step.
  destruct (VersionMajor_value PathHashIndex <=? version_major f) eqn:Ev.
  - reader_step. reader_step.
    eapply hoare_bind; [apply hoare_reader; [|assumption]|intros ?; cbv beta].
    { destruct (negb _); [|auto with readers].
      apply reader_bind; [auto with readers|]. intros.
      apply reader_bind; auto with readers. }
    reader_step.
    destruct (negb _); [|apply hoare_ret; auto].
    reader_step. reader_step. reader_step. reader_step. reader_step. reader_step.
    eapply hoare_bind; [apply read_directories_spec|]. intros ?.
    apply hoare_reader; [auto with readers | assumption].
  - apply read_entries_spec. apply Z.leb_gt in Ev. exact Ev.
Qed.

(** [read_footer] leaves the map alone, whether it returns or throws. *)
Lemma read_footer_fields_keeps_entries m0 version :
  hoare (fun s => entries_ s = m0) (read_footer_fields version)
    (fun _ s => entries_ s = m0) (fun _ s => entries_ s = m0).
Proof.
  set (Inv := fun s : Impl => entries_ s = m0).
  assert (HI : stream_insensitive Inv) by (intros s p g H; exact H).
  assert (Hupd : forall g, hoare Inv (upd_footer g) (fun _ => Inv) (fun _ => Inv))
    by (intros g; apply hoare_upd_footer; intros s Hs; exact Hs).
  assert (Hck : forall (c : bool) e,
             hoare Inv (if c then throw e else ret tt) (fun _ : unit => Inv) (fun _ => Inv))
    by (intros [|] e; [apply hoare_throw | apply hoare_ret]; auto).
  unfold read_footer_fields.
  eapply hoare_bind with (Q := fun _ => Inv).
  { destruct (major_ge _ _); [|apply Hupd]. reader_step. apply Hupd. }
  intros ?.
  eapply hoare_bind with (Q := fun _ => Inv).
  { destruct (major_ge _ _); [|apply Hupd].
    eapply hoare_bind; [apply hoare_read_bool, HI|]. intros b. apply Hupd. }
  intros ?. reader_step.
  eapply hoare_bind; [apply Hck|]. intros ?.
  eapply hoare_bind; [apply Hupd|]. intros ?. reader_step.
  eapply hoare_bind; [apply Hupd|]. intros ?. reader_step.
  eapply hoare_bind; [apply Hck|]. intros ?. reader_step.
  eapply hoare_bind; [apply Hupd|]. intros ?. reader_step.
  eapply hoare_bind; [apply Hupd|]. intros ?. reader_step.
  eapply hoare_bind; [apply Hupd|]. intros ?.
  eapply hoare_bind with (Q := fun _ => Inv).
  { destruct (major_eq _ _); [|apply Hupd].
    eapply hoare_bind; [apply hoare_read_bool, HI|]. intros b. apply Hupd. }
  intros ?. reader_step.
  eapply hoare_bind; [apply Hupd|]. intros ?.
  eapply hoare_bind with (Q := fun _ => Inv).
  { destruct (negb _); [apply Hupd | apply hoare_ret; auto]. }
  intros ?. apply Hupd.
Qed.

Lemma read_footer_keeps_entries m0 version :
  hoare (fun s => entries_ s = m0) (read_footer version)
    (fun _ s => entries_ s = m0) (fun _ s => entries_ s = m0).
Proof.
  unfold read_footer.
  eapply hoare_bind; [|intros ?; apply read_footer_fields_keeps_entries].
  apply hoare_reader; [auto with readers|]. intros s p g H. exact H.
Qed.

Lemma attempt_spec version :
  hoare (fun s => entries_ s = []) (attempt version)
    (fun _ s => built (footer_ s) [] (entries_ s)) (fun _ s => entries_ s = []).
Proof.
  intros s Hs. unfold attempt, bind.
  pose proof (read_footer_keeps_entries [] version s Hs) as Hf.
  destruct (read_footer version s) as [[] s1|e s1|]; [|exact Hf|exact I].
  pose proof (read_index_spec (footer_ s1) [] s1 (conj eq_refl Hf)) as Hi.
  destruct (read_index s1) as [[] s2|e s2|]; [|exact Hi|exact I].
  destruct Hi as [<- Hb]. exact Hb.
Qed.

Lemma probe_spec v :
  forall s, entries_ s = [] ->
    match probe v s with
    | Ok _ s' => built (footer_ s') [] (entries_ s')
    | Throw _ _ | Indeterminate => True
    end.
Proof.
  induction v as [|v IH]; intros s Hs; [exact I|].
  cbn [probe]. pose proof (attempt_spec (Version_of_nat (S v)) s Hs) as Ha.
  destruct (attempt (Version_of_nat (S v)) s) as [[] s1|e s1|]; [exact Ha| |exact I].
  apply IH. exact Ha.
Qed.

(** The map of an opened PAK is the result of the assignments of its
    index, from the empty map. *)
Lemma open_built file s :
  Pak.open file = Ok tt s -> built (footer_ s) [] (entries_ s).
Proof.
  destruct file as [data|]; [|discriminate]. unfold Pak.open. intros H.
  pose proof (probe_spec (Z.to_nat (Version_value V11)) (initial data) eq_refl) as Hp.
  rewrite H in Hp. exact Hp.
Qed.


(** *** The order of the keys *)

Lemma string_compare_refl s : String.compare s s = Eq.
Proof.
  induction s as [|c s IH]; [reflexivity|]. simpl.
  unfold Ascii.compare. rewrite N.compare_refl. exact IH.
Qed.

Lemma string_lt_irrefl s : ~ string_lt s s.
Proof. unfold string_lt. rewrite string_compare_refl. discriminate. Qed.

Lemma string_lt_trans a b c : string_lt a b -> string_lt b c -> string_lt a c.
Proof.
  unfold string_lt. revert b c.
  induction a as [|x a IH]; intros [|y b] [|z c]; simpl; try discriminate; auto.
  unfold Ascii.compare.
  destruct (N.compare_spec (N_of_ascii x) (N_of_ascii y)) as [Hxy|Hxy|Hxy];
    try discriminate;
    destruct (N.compare_spec (N_of_ascii y) (N_of_ascii z)) as [Hyz|Hyz|Hyz];
    try discriminate; intros H1 H2.
  - rewrite Hxy, Hyz, N.compare_refl. eapply IH; eassumption.
  - rewrite Hxy. apply N.compare_lt_iff in Hyz. rewrite Hyz. reflexivity.
  - rewrite <- Hyz. apply N.compare_lt_iff in Hxy. rewrite Hxy. reflexivity.
  - assert (H : (N_of_ascii x < N_of_ascii z)%N) by (eapply N.lt_trans; eassumption).
    apply N.compare_lt_iff in H. rewrite H. reflexivity.
Qed.

Lemma string_compare_gt a b : String.compare a b = Gt -> string_lt b a.
Proof.
  unfold string_lt. intros H. rewrite String.compare_antisym, H. reflexivity.
Qed.

(** *** Assignment to the map *)

Lemma keys_map_assign path e m k :
  In k (map fst (map_assign path e m)) <-> k = path \/ In k (map fst m).
Proof.
  induction m as [|[k0 e0] m IH]; simpl.
  - intuition.
  - destruct (String.compare path k0) eqn:E; simpl.
    + apply String.compare_eq_iff in E. subst k0. intuition.
    + intuition.
    + rewrite IH. intuition.
Qed.

Lemma map_assign_sorted path e m :
  StronglySorted string_lt (map fst m) ->
  StronglySorted string_lt (map fst (map_assign path e m)).
Proof.
  induction m as [|[k0 e0] m IH]; simpl; intros Hs.
  - constructor; constructor.
  - apply StronglySorted_inv in Hs as [Hs Hall].
    destruct (String.compare path k0) eqn:E; simpl.
    + apply String.compare_eq_iff in E. subst k0. constructor; assumption.
    + constructor; [constructor; assumption|].
      constructor; [exact E|].
      rewrite Forall_forall in *. intros x Hx.
      eapply string_lt_trans; [exact E | apply Hall, Hx].
    + constructor; [apply IH, Hs|].
      rewrite Forall_forall in *. intros x Hx.
      apply keys_map_assign in Hx as [->|Hx];
        [apply string_compare_gt, E | apply Hall, Hx].
Qed.

Lemma In_map_assign path e m x :
  In x (map_assign path e m) -> x = (path, e) \/ In x m.
Proof.
  induction m as [|[k0 e0] m IH]; simpl.
  - intuition.
  - destruct (String.compare path k0); simpl; intuition.
Qed.

Lemma map_find_assign path e m q :
  map_find q (map_assign path e m) = if String.eqb q path then Some e else map_find q m.
Proof.
  induction m as [|[k0 e0] m IH]; simpl.
  - reflexivity.
  - destruct (String.compare path k0) eqn:E; simpl.
    + apply String.compare_eq_iff in E. subst k0.
      destruct (String.eqb q path); reflexivity.
    + reflexivity.
    + rewrite IH. destruct (String.eqb_spec q k0) as [->|Hq]; [|reflexivity].
      destruct (String.eqb_spec k0 path) as [->|_]; [|reflexivity].
      rewrite string_compare_refl in E. discriminate.
Qed.

Lemma assign_all_sorted l :
  forall m, StronglySorted string_lt (map fst m) ->
            StronglySorted string_lt (map fst (assign_all l m)).
Proof.
  induction l as [|[p e] l IH]; intros m Hm; simpl; [exact Hm|].
  apply IH, map_assign_sorted, Hm.
Qed.

Lemma keys_assign_all l :
  forall m k, In k (map fst (assign_all l m)) <-> In k (map fst l) \/ In k (map fst m).
Proof.
  induction l as [|[p e] l IH]; intros m k; simpl; [intuition|].
  rewrite IH, keys_map_assign. intuition.
Qed.

Lemma In_assign_all l :
  forall m x, In x (assign_all l m) -> In x l \/ In x m.
Proof.
  induction l as [|[p e] l IH]; intros m x; simpl; [intuition|].
  intros H. apply IH in H as [H|H]; [intuition|].
  apply In_map_assign in H. intuition.
Qed.

Lemma map_find_assign_all l :
  forall m q,
    map_find q (assign_all l m)
    = match last_assigned q l with
      | Some e => Some e
      | None => map_find q m
      end.
Proof.
  induction l as [|[p e] l IH]; intros m q; simpl; [reflexivity|].
  rewrite IH, map_find_assign.
  destruct (last_assigned q l); [reflexivity|].
  destruct (String.eqb q p); reflexivity.
Qed.

Lemma sorted_NoDup l : StronglySorted string_lt l -> NoDup l.
Proof.
  induction 1 as [|a l Hs IH Hall]; constructor; [|exact IH].
  intros Hin. rewrite Forall_forall in Hall.
  exact (string_lt_irrefl a (Hall a Hin)).
Qed.

(** A strictly sorted list is determined by its elements. *)
Lemma sorted_unique l1 :
  forall l2,
    StronglySorted string_lt l1 -> StronglySorted string_lt l2 ->
    (forall x, In x l1 <-> In x l2) -> l1 = l2.
Proof.
  induction l1 as [|a l1 IH]; intros [|b l2] H1 H2 Heq.
  - reflexivity.
  - exfalso. apply (proj2 (Heq b)). left; reflexivity.
  - exfalso. apply (proj1 (Heq a)). left; reflexivity.
  - apply StronglySorted_inv in H1 as [H1 Ha].
    apply StronglySorted_inv in H2 as [H2 Hb].
    rewrite Forall_forall in Ha, Hb.
    assert (Hab : a = b).
    { destruct (proj1 (Heq a) (or_introl eq_refl)) as [<-|Hin]; [reflexivity|].
      destruct (proj2 (Heq b) (or_introl eq_refl)) as [->|Hin']; [reflexivity|].
      exfalso. apply (string_lt_irrefl a).
      eapply string_lt_trans; [apply Ha, Hin' | apply Hb, Hin]. }
    subst b. f_equal. apply IH; [assumption..|].
    intros x. split; intros Hx.
    + destruct (proj1 (Heq x) (or_intror Hx)) as [<-|Hin]; [|exact Hin].
      exfalso. exact (string_lt_irrefl a (Ha a Hx)).
    + destruct (proj2 (Heq x) (or_intror Hx)) as [<-|Hin]; [|exact Hin].
      exfalso. exact (string_lt_irrefl a (Hb a Hx)).
Qed.

Lemma keys_of_permutation l l' :
  Permutation l l' ->
  map fst (assign_all l' []) = map fst (assign_all l []).
Proof.
  intros Hp. apply sorted_unique.
  - apply assign_all_sorted. constructor.
  - apply assign_all_sorted. constructor.
  - intros x. rewrite !keys_assign_all. simpl.
    split; (intros [H|[]]; left; revert H; apply Permutation_in, Permutation_map);
      [symmetry|]; exact Hp.
Qed.



(** [pak_duplicates] lists "a" and "b", and "b" has the entry read
    last. *)
Example duplicate_path_keeps_last :
  files (opened pak_duplicates) = ["a"%string; "b"%string]
  /\ option_map compressed_size (map_find "b" (entries_ (opened pak_duplicates)))
     = Some 30.
Proof. split; vm_compute; reflexivity. Qed.




(** *** The wide string of the PAK reader *)

Lemma stream_read_position n s bs s' :
  stream_read n s = Ok bs s' -> stream_pos s' = stream_pos s + n.
Proof.
  unfold stream_read. destruct (_ && _); [|discriminate].
  intros H; injection H as _ <-. reflexivity.
Qed.

Lemma read_uint_position n s v s' :
  read_uint n s = Ok v s' -> stream_pos s' = stream_pos s + n.
Proof.
  unfold read_uint, bind. destruct (stream_read n s) as [bs s1| |] eqn:E; try discriminate.
  apply stream_read_position in E. unfold ret. intros H; injection H as _ <-. exact E.
Qed.

(** For a negative declared length [L], [read_string] reads the length
    and then [|L|] units in one piece: the stream ends [4 + 2|L|] bytes
    on, wherever the zero unit is. *)
Lemma read_string_wide_position s raw s1 str s' :
  read_uint 4 s = Ok raw s1 ->
  to_signed 32 raw < 0 ->
  read_string s = Ok str s' ->
  stream_pos s' = stream_pos s + 4 + 2 * (- to_signed 32 raw).
Proof.
  intros Hraw Hneg. unfold read_string, bind. rewrite Hraw.
  apply read_uint_position in Hraw.
  destruct (to_signed 32 raw <? 0) eqn:E; [|apply Z.ltb_ge in E; lia].
  destruct (to_signed 32 raw =? - 2 ^ 31); [discriminate|].
  destruct (stream_read (- to_signed 32 raw * 2) s1) as [bs s2| |] eqn:Er; try discriminate.
  apply stream_read_position in Er. unfold ret. intros H; injection H as _ <-. lia.
Qed.

(** *** The encrypted index and the probe *)

Lemma read_index_refuses_encrypted s :
  encrypted (footer_ s) = true ->
  exists s',
    read_index s = Throw IndexEncrypted s'
    /\ footer_ s' = footer_ s /\ entries_ s' = entries_ s
    /\ set_stream s' 0 true = set_stream s 0 true.
Proof.
  intros He. unfold read_index, bind, get_footer, seekg.
  destruct (stream_good s); [destruct (_ <? 0)|]; rewrite He; unfold throw;
    (eexists; split; [reflexivity|]); repeat split.
Qed.




(** *** Leading slashes *)

Lemma substring_all s : substring 0 (String.length s) s = s.
Proof. induction s as [|c s IH]; [reflexivity|]. simpl. rewrite IH. reflexivity. Qed.

Lemma strip_leading_slash_front path :
  front_is_slash (strip_leading_slash path) = true ->
  starts_with_two_slashes path = true.
Proof.
  unfold strip_leading_slash. destruct path as [|c rest]; [discriminate|].
  cbn [is_empty negb andb front_is_slash String.length].
  destruct (Ascii.eqb c "/") eqn:Ec.
  - rewrite Nat.sub_succ, Nat.sub_0_r.
    cbn [substring]. rewrite substring_all.
    destruct rest as [|c2 rest2]; [discriminate|]. simpl.
    intros ->. rewrite Ec. reflexivity.
  - simpl. rewrite Ec. discriminate.
Qed.





(** *** Little-endian integers *)

Lemma byte_to_Z_of_Z z : byte_to_Z (byte_of_Z z) = z mod 256.
Proof.
  unfold byte_to_Z, byte_of_Z.
  assert (Hr : 0 <= z mod 256 < 256) by (apply Z.mod_pos_bound; lia).
  destruct (Byte.of_N (Z.to_N (z mod 256))) as [b|] eqn:E.
  - apply Byte.to_of_N in E. rewrite E. lia.
  - apply Byte.of_N_None_iff in E. lia.
Qed.

Lemma Z_to_le_length n : forall v, List.length (Z_to_le n v) = n.
Proof. induction n as [|n IH]; intros v; simpl; [reflexivity | rewrite IH; reflexivity]. Qed.

Lemma le_to_Z_to_le n :
  forall v, 0 <= v < 2 ^ (8 * Z.of_nat n) -> le_to_Z (Z_to_le n v) = v.
Proof.
  induction n as [|n IH]; intros v Hv.
  - simpl in *. lia.
  - cbn [Z_to_le le_to_Z]. rewrite byte_to_Z_of_Z, IH.
    + pose proof (Z.div_mod v 256). lia.
    + replace (8 * Z.of_nat (S n)) with (8 + 8 * Z.of_nat n) in Hv by lia.
      rewrite Z.pow_add_r in Hv by lia. change (2 ^ 8) with 256 in Hv.
      split; [apply Z.div_pos; lia|].
      apply Z.div_lt_upper_bound; lia.
Qed.

(** *** Reading known bytes *)

Lemma reads_ret {A} f (a : A) : reads f (ret a) [] a f.
Proof.
  intros d p mp e rest Hp Hs. unfold ret. simpl. rewrite Z.add_0_r. reflexivity.
Qed.

Lemma reads_upd_footer f g : reads f (upd_footer g) [] tt (g f).
Proof.
  intros d p mp e rest Hp Hs. unfold upd_footer, set_footer_. simpl.
  rewrite Z.add_0_r. reflexivity.
Qed.

Lemma reads_get_footer f : reads f get_footer [] f f.
Proof.
  intros d p mp e rest Hp Hs. unfold get_footer. simpl.
  rewrite Z.add_0_r. reflexivity.
Qed.

Lemma reads_bind {A B} f f1 f2 (m : M A) (k : A -> M B) bs bs' a b :
  reads f m bs a f1 -> reads f1 (k a) bs' b f2 ->
  reads f (bind m k) (bs ++ bs') b f2.
Proof.
  intros Hm Hk d p mp e rest Hp Hs. unfold bind.
  rewrite <- app_assoc in Hs. rewrite (Hm d p mp e _ Hp Hs).
  rewrite (Hk d (p + Z.of_nat (List.length bs)) mp e rest); [|lia|].
  - rewrite length_app, Nat2Z.inj_add, Z.add_assoc. reflexivity.
  - replace (Z.to_nat (p + Z.of_nat (List.length bs)))
      with (List.length bs + Z.to_nat p)%nat by lia.
    rewrite <- skipn_skipn, Hs, skipn_app, skipn_all, Nat.sub_diag. reflexivity.
Qed.

Lemma reads_bind_l {A B} f f1 f2 (m : M A) (k : A -> M B) bs a b :
  reads f m [] a f1 -> reads f1 (k a) bs b f2 -> reads f (bind m k) bs b f2.
Proof. intros Hm Hk. exact (reads_bind f f1 f2 m k [] bs a b Hm Hk). Qed.

Lemma reads_bind_r {A B} f f1 f2 (m : M A) (k : A -> M B) bs a b :
  reads f m bs a f1 -> reads f1 (k a) [] b f2 -> reads f (bind m k) bs b f2.
Proof.
  intros Hm Hk. rewrite <- (app_nil_r bs).
  exact (reads_bind f f1 f2 m k bs [] a b Hm Hk).
Qed.

Lemma reads_stream_read f bs n :
  Z.of_nat (List.length bs) = n -> reads f (stream_read n) bs bs f.
Proof.
  intros Hn d p mp e rest Hp Hs. unfold stream_read, file_size, set_stream.
  cbn [stream_good stream_pos stream_data footer_ mount_point_ entries_ andb].
  assert (Hlen : (List.length d - Z.to_nat p = List.length bs + List.length rest)%nat)
    by (rewrite <- length_skipn, Hs, length_app; reflexivity).
  assert (Hc : (n =? 0) || ((0 <=? p) && (p + n <=? Z.of_nat (List.length d))) = true).
  { destruct (Z.eqb_spec n 0) as [|Hn0]; [reflexivity|]. simpl.
    apply andb_true_intro. split; [apply Z.leb_le; lia | apply Z.leb_le; lia]. }
  rewrite Hc, Hs, <- Hn, Nat2Z.id, firstn_app, firstn_all, Nat.sub_diag.
  simpl. rewrite app_nil_r. reflexivity.
Qed.

Lemma reads_read_uint f n v :
  0 <= v < 2 ^ (8 * Z.of_nat n) ->
  reads f (read_uint (Z.of_nat n)) (Z_to_le n v) v f.
Proof.
  intros Hv. unfold read_uint. eapply reads_bind_r.
  - apply reads_stream_read. rewrite Z_to_le_length. reflexivity.
  - rewrite le_to_Z_to_le by exact Hv. apply reads_ret.
Qed.

Lemma reads_u32 f v : 0 <= v < 2 ^ 32 -> reads f (read_uint 4) (Z_to_le 4 v) v f.
Proof. intros Hv. apply (reads_read_uint f 4 v). exact Hv. Qed.

Lemma reads_u64 f v : 0 <= v < 2 ^ 64 -> reads f (read_uint 8) (Z_to_le 8 v) v f.
Proof. intros Hv. apply (reads_read_uint f 8 v). exact Hv. Qed.

Lemma reads_u128 f v : 0 <= v < 2 ^ 128 -> reads f (read_uint 16) (Z_to_le 16 v) v f.
Proof. intros Hv. apply (reads_read_uint f 16 v). exact Hv. Qed.

Lemma reads_read_bool f b : reads f read_bool (encode_bool b) b f.
Proof.
  unfold read_bool. eapply reads_bind_r.
  - unfold read_uint. eapply reads_bind_r.
    + apply reads_stream_read. reflexivity.
    + apply reads_ret.
  - destruct b; apply reads_ret.
Qed.

Lemma reads_read_guid f h :
  List.length h = 20%nat -> reads f read_guid h h f.
Proof. intros Hh. apply reads_stream_read. rewrite Hh. reflexivity. Qed.

Lemma compression_of_encoded_name c : compression_of_name (encode_name c) = c.
Proof. destruct c as [[]|]; reflexivity. Qed.

Lemma encode_name_length c : List.length (encode_name c) = 32%nat.
Proof. destruct c as [[]|]; reflexivity. Qed.

Lemma reads_read_compression f names :
  forall n, List.length names = n ->
    reads f (read_compression n) (flat_map encode_name names) names f.
Proof.
  induction names as [|c names IH]; intros n <-; simpl.
  - apply reads_ret.
  - eapply reads_bind.
    + apply reads_stream_read. rewrite encode_name_length. reflexivity.
    + eapply reads_bind_r; [apply IH; reflexivity|].
      rewrite compression_of_encoded_name. apply reads_ret.
Qed.

Lemma encoded_names_length names :
  List.length (flat_map encode_name names) = (32 * List.length names)%nat.
Proof.
  induction names as [|c names IH]; [reflexivity|].
  simpl flat_map. rewrite length_app, encode_name_length, IH. simpl. lia.
Qed.


Ltac eval_gates :=
  repeat match goal with
    | |- context [major_ge ?a ?b] =>
        let r := eval vm_compute in (major_ge a b) in change (major_ge a b) with r
    | |- context [major_eq ?a ?b] =>
        let r := eval vm_compute in (major_eq a b) in change (major_eq a b) with r
    | |- context [version_ge ?a ?b] =>
        let r := eval vm_compute in (version_ge a b) in change (version_ge a b) with r
    | |- context [compression_count ?a] =>
        let r := eval vm_compute in (compression_count a) in
        change (compression_count a) with r
    end.

Ltac in_range :=
  first [ assumption | vm_compute; split; [discriminate | reflexivity] ].

Ltac footer_step :=
  cbv beta;
  lazymatch goal with
  | |- reads _ (bind (upd_footer _) _) _ _ _ =>
      eapply reads_bind_l; [apply reads_upd_footer|]
  | |- reads _ (bind get_footer _) _ _ _ =>
      eapply reads_bind_l; [apply reads_get_footer|]
  | |- reads _ (bind (ret _) _) _ _ _ =>
      eapply reads_bind_l; [apply reads_ret|]
  | |- reads _ (bind (if ?c then throw _ else ret tt) _) _ _ _ =>
      let r := eval vm_compute in c in
      change c with r; cbv iota;
      eapply reads_bind_l; [apply reads_ret|]
  | |- reads _ (bind (bind (read_uint 16) _) _) _ _ _ =>
      eapply reads_bind;
      [eapply reads_bind_r; [apply reads_u128; in_range | apply reads_upd_footer]|]
  | |- reads _ (bind (bind read_bool _) _) _ _ _ =>
      eapply reads_bind;
      [eapply reads_bind_r; [apply reads_read_bool | apply reads_upd_footer]|]
  | |- reads _ (bind (read_uint 4) _) _ _ _ =>
      eapply reads_bind; [apply reads_u32; in_range|]
  | |- reads _ (bind (read_uint 8) _) _ _ _ =>
      eapply reads_bind; [apply reads_u64; in_range|]
  | |- reads _ (bind read_guid _) _ _ _ =>
      eapply reads_bind; [apply reads_read_guid; assumption|]
  | |- reads _ (bind (read_compression 0) _) _ _ _ =>
      change (read_compression 0) with (@ret (list (option Compression)) [])
  | |- reads _ (bind (read_compression _) _) _ _ _ =>
      eapply reads_bind_r; [apply reads_read_compression; assumption|]
  | |- reads _ (upd_footer _) _ _ _ => apply reads_upd_footer
  end.

Ltac eval_gates_in H :=
  repeat match type of H with
    | context [major_ge ?a ?b] =>
        let r := eval vm_compute in (major_ge a b) in
        change (major_ge a b) with r in H
    | context [major_eq ?a ?b] =>
        let r := eval vm_compute in (major_eq a b) in
        change (major_eq a b) with r in H
    | context [compression_count ?a] =>
        let r := eval vm_compute in (compression_count a) in
        change (compression_count a) with r in H
    end.

Lemma read_footer_fields_reads f f0 :
  footer_wf f -> reads f0 (read_footer_fields (version f)) (encode_footer f) tt f.
Proof.
  destruct f as [uuid enc mg v vm io isz h fr comp].
  intros [Hm HM Hu He Ho Hs Hh Hfr Hc].
  unfold uuid_ok, compression_ok in *.
  cbn [encryption_uuid encrypted magic version version_major index_offset index_size
       index_hash frozen compression] in *.
  subst mg vm.
  match goal with
  | |- reads _ _ _ _ ?target =>
      enough (exists f', reads f0 (read_footer_fields v)
                           (encode_footer target) tt f' /\ f' = target)
        as (f' & H & E); [subst f'; exact H|]
  end.
  unfold read_footer_fields, encode_footer.
  cbn [encryption_uuid encrypted magic version version_major index_offset index_size
       index_hash frozen compression].
  destruct v; eval_gates; cbv iota; cbn [negb];
    eval_gates_in Hu; eval_gates_in He; eval_gates_in Hfr; eval_gates_in Hc;
    cbv iota in Hc;
    (destruct uuid as [u|];
     [destruct Hu as [Hu0 Hu]; try discriminate Hu0 | try discriminate Hu]);
    try (specialize (He eq_refl); rewrite He);
    try (specialize (Hfr eq_refl); rewrite Hfr);
    first [ rewrite Hc | rewrite (firstn_all2 comp) by (rewrite Hc; apply le_n) ];
    cbn [app firstn flat_map encode_uuid];
    (eexists; split; [repeat footer_step | reflexivity]).
Qed.


(** The footer sizes of the versions V0 to V11, in the order of the
    enumeration. *)
Lemma footer_sizes :
  map get_footer_size [V0; V1; V2; V3; V4; V5; V6; V7; V8A; V8B; V9; V10; V11]
  = [44; 44; 44; 44; 45; 45; 45; 61; 189; 221; 222; 221; 221].
Proof. reflexivity. Qed.

Lemma encode_footer_length f :
  footer_wf f ->
  Z.of_nat (List.length (encode_footer f)) = get_footer_size (version f).
Proof.
  destruct f as [uuid enc mg v vm io isz h fr comp].
  intros [Hm HM Hu He Ho Hs Hh Hfr Hc].
  unfold uuid_ok, compression_ok in *.
  cbn [encryption_uuid encrypted magic version version_major index_offset index_size
       index_hash frozen compression] in *.
  unfold encode_footer.
  cbn [encryption_uuid encrypted magic version version_major index_offset index_size
       index_hash frozen compression].
  destruct v; eval_gates; cbv iota;
    eval_gates_in Hu; eval_gates_in Hc; cbv iota in Hc;
    (destruct uuid as [u|];
     [destruct Hu as [Hu0 Hu]; try discriminate Hu0 | try discriminate Hu]);
    first [ rewrite Hc | rewrite (firstn_all2 comp) by (rewrite Hc; apply le_n) ];
    cbn [app firstn flat_map encode_uuid encode_bool];
    repeat (cbn [List.length];
            rewrite ?length_app, ?Z_to_le_length, ?encoded_names_length, ?Hh, ?Hc);
    reflexivity.
Qed.

(** C5.  The footer size is 44, plus 16 from EncryptionKeyGuid, plus 1
    from IndexEncryption, plus 1 at FrozenIndex, plus 128 from V8A, plus
    32 from V8B; the encoded footer has that length; and [read_footer],
    which seeks that far back from the end of the file, decodes the
    encoded footer to the footer it was made from, whatever precedes it
    in the file. *)
Theorem footer_size_and_round_trip f prefix s :
  footer_wf f ->
  stream_data s = prefix ++ encode_footer f ->
  stream_good s = true ->
  get_footer_size (version f) = footer_size_formula (version f)
  /\ Z.of_nat (List.length (encode_footer f)) = get_footer_size (version f)
  /\ exists s',
       read_footer (version f) s = Ok tt s'
       /\ footer_ s' = f
       /\ stream_pos s' = file_size s
       /\ entries_ s' = entries_ s.
Proof.
  intros Hwf Hd Hg.
  pose proof (encode_footer_length f Hwf) as Hlen.
  split; [destruct (version f); reflexivity|]. split; [exact Hlen|].
  destruct s as [d p g f0 mp e]. cbn [stream_data stream_good] in Hd, Hg. subst d g.
  unfold read_footer, bind, seekg_end, file_size.
  cbn [stream_good stream_data stream_pos].
  replace (Z.of_nat (List.length (prefix ++ encode_footer f))
           + - get_footer_size (version f))
    with (Z.of_nat (List.length prefix))
    by (rewrite length_app, Nat2Z.inj_add, Hlen; lia).
  destruct (Z.ltb_spec (Z.of_nat (List.length prefix)) 0) as [Hneg|_]; [lia|].
  unfold set_stream.
  cbn [stream_data stream_pos stream_good footer_ mount_point_ entries_].
  rewrite (read_footer_fields_reads f f0 Hwf (prefix ++ encode_footer f)
             (Z.of_nat (List.length prefix)) mp e []).
  - eexists. split; [reflexivity|]. cbn [footer_ stream_pos entries_].
    repeat split. rewrite length_app, Nat2Z.inj_add. reflexivity.
  - lia.
  - rewrite Nat2Z.id, skipn_app, skipn_all, Nat.sub_diag, app_nil_r. reflexivity.
Qed.

(** C5 at [footer_v11], behind the index of [pak_v11]. *)
Lemma footer_round_trip_witness :
  get_footer_size V11 = footer_size_formula V11
  /\ Z.of_nat (List.length (encode_footer footer_v11)) = get_footer_size V11
  /\ exists s',
       read_footer V11 (initial (index_v11 ++ directory_index_v11 ++ encode_footer footer_v11))
       = Ok tt s'
       /\ footer_ s' = footer_v11
       /\ stream_pos s'
          = file_size (initial (index_v11 ++ directory_index_v11 ++ encode_footer footer_v11))
       /\ entries_ s'
          = entries_ (initial (index_v11 ++ directory_index_v11 ++ encode_footer footer_v11)).
Proof.
  apply (footer_size_and_round_trip footer_v11 (index_v11 ++ directory_index_v11)
           (initial (index_v11 ++ directory_index_v11 ++ encode_footer footer_v11))).
  - constructor; try reflexivity; try discriminate;
      try (vm_compute; split; [discriminate | reflexivity]).
    split; [reflexivity|]. vm_compute. split; [discriminate | reflexivity].
  - simpl stream_data. rewrite <- app_assoc. reflexivity.
  - reflexivity.
Defined.

End PakFacts.

(** * Bytes, integers and strings *)

Module WireFacts.
Import Wire WireSpec.

(** *** Bytes and integers *)

Lemma byte_to_Z_range b : 0 <= byte_to_Z b < 256.
Proof.
  unfold byte_to_Z. pose proof (Byte.to_N_bounded b). lia.
Qed.

Lemma byte_of_Z_to_Z b : byte_of_Z (byte_to_Z b) = b.
Proof.
  unfold byte_of_Z. pose proof (byte_to_Z_range b) as Hr.
  rewrite Z.mod_small by exact Hr. unfold byte_to_Z.
  rewrite N2Z.id, Byte.of_to_N. reflexivity.
Qed.

Lemma le_to_Z_range bs : 0 <= le_to_Z bs < 2 ^ (8 * Z.of_nat (List.length bs)).
Proof.
  induction bs as [|b bs IH].
  - simpl. lia.
  - cbn [le_to_Z List.length]. pose proof (byte_to_Z_range b) as Hb.
    replace (8 * Z.of_nat (S (List.length bs))) with (8 + 8 * Z.of_nat (List.length bs))
      by lia.
    rewrite Z.pow_add_r by lia. change (2 ^ 8) with 256. nia.
Qed.

Lemma Z_to_le_of_le bs : Z_to_le (List.length bs) (le_to_Z bs) = bs.
Proof.
  induction bs as [|b bs IH]; [reflexivity|].
  cbn [le_to_Z List.length Z_to_le]. pose proof (byte_to_Z_range b) as Hb.
  f_equal.
  - unfold byte_of_Z.
    replace ((byte_to_Z b + 256 * le_to_Z bs) mod 256) with (byte_to_Z b).
    + unfold byte_to_Z. rewrite N2Z.id, Byte.of_to_N. reflexivity.
    + replace (byte_to_Z b + 256 * le_to_Z bs)
        with (byte_to_Z b + le_to_Z bs * 256) by lia.
      rewrite Z.mod_add by lia. symmetry. apply Z.mod_small. exact Hb.
  - replace ((byte_to_Z b + 256 * le_to_Z bs) / 256) with (le_to_Z bs); [exact IH|].
    replace (byte_to_Z b + 256 * le_to_Z bs)
      with (byte_to_Z b + le_to_Z bs * 256) by lia.
    rewrite Z.div_add by lia.
    rewrite (Z.div_small (byte_to_Z b)) by exact Hb. lia.
Qed.

Lemma Z_to_le_of_field n bs :
  List.length bs = n -> Z_to_le n (le_to_Z bs) = bs.
Proof. intros <-. apply Z_to_le_of_le. Qed.

Lemma le_to_Z_field_range n bs :
  List.length bs = n -> 0 <= le_to_Z bs < 2 ^ (8 * Z.of_nat n).
Proof. intros <-. apply le_to_Z_range. Qed.

(** *** Byte strings *)

Lemma string_of_bytes_of_string s : string_of_bytes (bytes_of_string s) = s.
Proof.
  induction s as [|c s IH]; [reflexivity|].
  simpl. unfold char_of_byte. rewrite ascii_of_byte_of_ascii, IH. reflexivity.
Qed.

Lemma bytes_of_string_of_bytes bs : bytes_of_string (string_of_bytes bs) = bs.
Proof.
  induction bs as [|b bs IH]; [reflexivity|].
  simpl. unfold char_of_byte. rewrite byte_of_ascii_of_byte, IH. reflexivity.
Qed.

Lemma bytes_of_string_length s :
  List.length (bytes_of_string s) = String.length s.
Proof. induction s as [|c s IH]; [reflexivity|]. simpl. rewrite IH. reflexivity. Qed.

Lemma until_nul_terminated bs rest :
  has_nul bs = false -> until_nul (bs ++ x00 :: rest) = bs.
Proof.
  induction bs as [|b bs IH]; intros H; [reflexivity|].
  simpl in *. destruct (Byte.eqb b x00); [discriminate|].
  rewrite IH by exact H. reflexivity.
Qed.

Lemma until_nul_no_nul bs : has_nul (until_nul bs) = false.
Proof.
  induction bs as [|b bs IH]; [reflexivity|].
  simpl. destruct (Byte.eqb b x00) eqn:E; [reflexivity|].
  simpl. rewrite E. exact IH.
Qed.

Lemma until_nul_length bs : (List.length (until_nul bs) <= List.length bs)%nat.
Proof.
  induction bs as [|b bs IH]; [apply le_n|].
  simpl. destruct (Byte.eqb b x00); simpl; lia.
Qed.

Lemma to_signed_small v : 0 <= v < 2 ^ 31 -> to_signed 32 v = v.
Proof.
  intros Hv. unfold to_signed. change (32 - 1) with 31.
  destruct (Z.ltb_spec v (2 ^ 31)); [reflexivity | lia].
Qed.

(** *** Concatenation of strings *)

Lemma append_assoc (a b c : string) : ((a ++ b) ++ c = a ++ (b ++ c))%string.
Proof. induction a as [|x a IH]; [reflexivity|]. simpl. rewrite IH. reflexivity. Qed.

Lemma append_empty_r (a : string) : (a ++ "")%string = a.
Proof. induction a as [|x a IH]; [reflexivity|]. simpl. rewrite IH. reflexivity. Qed.

Lemma string_length_append (a b : string) :
  String.length (a ++ b) = (String.length a + String.length b)%nat.
Proof. induction a as [|c a IH]; [reflexivity|]. simpl. rewrite IH. reflexivity. Qed.

End WireFacts.

(** * Further properties of the UTOC reader *)

Module UtocExtra.
Import Wire WireSpec WireFacts Utoc Samples UtocSpec UtocFacts.

(** *** The accessors of the raw records *)

(** X1.  The two 40-bit fields of an offset-and-length record are below
    2^40, and written back as 5 + 5 little-endian bytes they give the
    record. *)
Theorem offset_and_length_recompose data :
  List.length data = 10%nat ->
  Z_to_le 5 (FIoOffsetAndLength_GetOffset data)
  ++ Z_to_le 5 (FIoOffsetAndLength_GetLength data) = data
  /\ 0 <= FIoOffsetAndLength_GetOffset data < 2 ^ 40
  /\ 0 <= FIoOffsetAndLength_GetLength data < 2 ^ 40.
Proof.
  intros Hl. unfold FIoOffsetAndLength_GetOffset, FIoOffsetAndLength_GetLength.
  assert (H1 : List.length (firstn 5 data) = 5%nat) by (rewrite length_firstn; lia).
  assert (H2 : List.length (skipn 5 data) = 5%nat) by (rewrite length_skipn; lia).
  rewrite (firstn_all2 (n := 5) (skipn 5 data)) by lia.
  split; [|split].
  - rewrite (Z_to_le_of_field 5 _ H1), (Z_to_le_of_field 5 _ H2).
    apply firstn_skipn.
  - exact (le_to_Z_field_range 5 _ H1).
  - exact (le_to_Z_field_range 5 _ H2).
Qed.

(** X1 at a record with the offset 0x0102030405 and the length 7. *)
Lemma offset_and_length_witness :
  Z_to_le 5 (FIoOffsetAndLength_GetOffset
               [x05; x04; x03; x02; x01; x07; x00; x00; x00; x00])
  ++ Z_to_le 5 (FIoOffsetAndLength_GetLength
                  [x05; x04; x03; x02; x01; x07; x00; x00; x00; x00])
  = [x05; x04; x03; x02; x01; x07; x00; x00; x00; x00]
  /\ 0 <= FIoOffsetAndLength_GetOffset
            [x05; x04; x03; x02; x01; x07; x00; x00; x00; x00] < 2 ^ 40
  /\ 0 <= FIoOffsetAndLength_GetLength
            [x05; x04; x03; x02; x01; x07; x00; x00; x00; x00] < 2 ^ 40.
Proof.
  apply (offset_and_length_recompose [x05; x04; x03; x02; x01; x07; x00; x00; x00; x00]).
  reflexivity.
Defined.

Lemma nth_as_skipn (data : list byte) n :
  (n < List.length data)%nat -> firstn 1 (skipn n data) = [nth n data x00].
Proof.
  revert data. induction n as [|n IH]; intros [|b data] Hn; simpl in *; try lia.
  - reflexivity.
  - apply IH. lia.
Qed.

(** X2.  The fields of a compressed-block record are below 2^40, 2^24,
    2^24 and 2^8, and written back as 5 + 3 + 3 + 1 little-endian bytes
    they give the record. *)
Theorem compressed_block_recompose data :
  List.length data = 12%nat ->
  Z_to_le 5 (CompressedBlockEntry_GetOffset data)
  ++ Z_to_le 3 (GetCompressedSize data)
  ++ Z_to_le 3 (GetUncompressedSize data)
  ++ Z_to_le 1 (GetCompressionMethodIndex data) = data
  /\ 0 <= CompressedBlockEntry_GetOffset data < 2 ^ 40
  /\ 0 <= GetCompressedSize data < 2 ^ 24
  /\ 0 <= GetUncompressedSize data < 2 ^ 24
  /\ 0 <= GetCompressionMethodIndex data < 2 ^ 8.
Proof.
  intros Hl.
  unfold CompressedBlockEntry_GetOffset, GetCompressedSize, GetUncompressedSize,
    GetCompressionMethodIndex.
  assert (H1 : List.length (firstn 5 data) = 5%nat) by (rewrite length_firstn; lia).
  assert (H2 : List.length (firstn 3 (skipn 5 data)) = 3%nat)
    by (rewrite length_firstn, length_skipn; lia).
  assert (H3 : List.length (firstn 3 (skipn 8 data)) = 3%nat)
    by (rewrite length_firstn, length_skipn; lia).
  split; [|split; [|split; [|split]]].
  - rewrite (Z_to_le_of_field 5 _ H1), (Z_to_le_of_field 3 _ H2),
      (Z_to_le_of_field 3 _ H3).
    cbn [Z_to_le]. rewrite byte_of_Z_to_Z, <- (nth_as_skipn data 11) by lia.
    rewrite <- (firstn_skipn 5 data) at 5.
    f_equal.
    rewrite <- (firstn_skipn 3 (skipn 5 data)) at 2. f_equal.
    rewrite skipn_skipn. change (3 + 5)%nat with 8%nat.
    rewrite <- (firstn_skipn 3 (skipn 8 data)) at 2. f_equal.
    rewrite skipn_skipn. change (3 + 8)%nat with 11%nat.
    apply firstn_all2. rewrite length_skipn. lia.
  - exact (le_to_Z_field_range 5 _ H1).
  - exact (le_to_Z_field_range 3 _ H2).
  - exact (le_to_Z_field_range 3 _ H3).
  - apply byte_to_Z_range.
Qed.


(** X2 at a record with offset 1, sizes 2 and 3 and method 4. *)
Lemma compressed_block_witness :
  Z_to_le 5 (CompressedBlockEntry_GetOffset
               [x01; x00; x00; x00; x00; x02; x00; x00; x03; x00; x00; x04])
  ++ Z_to_le 3 (GetCompressedSize
                  [x01; x00; x00; x00; x00; x02; x00; x00; x03; x00; x00; x04])
  ++ Z_to_le 3 (GetUncompressedSize
                  [x01; x00; x00; x00; x00; x02; x00; x00; x03; x00; x00; x04])
  ++ Z_to_le 1 (GetCompressionMethodIndex
                  [x01; x00; x00; x00; x00; x02; x00; x00; x03; x00; x00; x04])
  = [x01; x00; x00; x00; x00; x02; x00; x00; x03; x00; x00; x04]
  /\ 0 <= CompressedBlockEntry_GetOffset
            [x01; x00; x00; x00; x00; x02; x00; x00; x03; x00; x00; x04] < 2 ^ 40
  /\ 0 <= GetCompressedSize
            [x01; x00; x00; x00; x00; x02; x00; x00; x03; x00; x00; x04] < 2 ^ 24
  /\ 0 <= GetUncompressedSize
            [x01; x00; x00; x00; x00; x02; x00; x00; x03; x00; x00; x04] < 2 ^ 24
  /\ 0 <= GetCompressionMethodIndex
            [x01; x00; x00; x00; x00; x02; x00; x00; x03; x00; x00; x04] < 2 ^ 8.
Proof.
  apply (compressed_block_recompose
           [x01; x00; x00; x00; x00; x02; x00; x00; x03; x00; x00; x04]).
  reflexivity.
Defined.

(** X3.  Of a chunk id, the 64-bit id and the 16-bit index give back the
    first ten bytes; the chunk type is the low six bits of byte 10 (the
    top two are dropped); the version flag is bit 6 of byte 11. *)
Theorem chunk_id_fields id :
  List.length id = 12%nat ->
  Z_to_le 8 (GetChunkId id) ++ Z_to_le 2 (GetChunkIndex id) = firstn 10 id
  /\ 0 <= GetChunkId id < 2 ^ 64
  /\ 0 <= GetChunkIndex id < 2 ^ 16
  /\ GetChunkType id = byte_to_Z (nth 10 id x00) mod 64
  /\ HasVersionInfo id = Z.testbit (byte_to_Z (nth 11 id x00)) 6.
Proof.
  intros Hl. unfold GetChunkId, GetChunkIndex, GetChunkType, HasVersionInfo.
  assert (H1 : List.length (firstn 8 id) = 8%nat) by (rewrite length_firstn; lia).
  assert (H2 : List.length (firstn 2 (skipn 8 id)) = 2%nat)
    by (rewrite length_firstn, length_skipn; lia).
  split; [|split; [|split; [|split]]].
  - rewrite (Z_to_le_of_field 8 _ H1), (Z_to_le_of_field 2 _ H2).
    rewrite <- (firstn_skipn 8 (firstn 10 id)), firstn_firstn.
    change (Nat.min 8 10) with 8%nat. f_equal.
    rewrite skipn_firstn_comm. reflexivity.
  - exact (le_to_Z_field_range 8 _ H1).
  - exact (le_to_Z_field_range 2 _ H2).
  - change 63 with (Z.ones 6). rewrite Z.land_ones by lia. reflexivity.
  - destruct (nth 11 id x00); reflexivity.
Qed.

Lemma chunk_id_fields_witness :
  Z_to_le 8 (GetChunkId [x01; x02; x03; x04; x05; x06; x07; x08; x09; x0a; xc2; x40])
  ++ Z_to_le 2 (GetChunkIndex [x01; x02; x03; x04; x05; x06; x07; x08; x09; x0a; xc2; x40])
  = firstn 10 [x01; x02; x03; x04; x05; x06; x07; x08; x09; x0a; xc2; x40]
  /\ 0 <= GetChunkId [x01; x02; x03; x04; x05; x06; x07; x08; x09; x0a; xc2; x40] < 2 ^ 64
  /\ 0 <= GetChunkIndex [x01; x02; x03; x04; x05; x06; x07; x08; x09; x0a; xc2; x40]
     < 2 ^ 16
  /\ GetChunkType [x01; x02; x03; x04; x05; x06; x07; x08; x09; x0a; xc2; x40]
     = byte_to_Z (nth 10 [x01; x02; x03; x04; x05; x06; x07; x08; x09; x0a; xc2; x40] x00)
       mod 64
  /\ HasVersionInfo [x01; x02; x03; x04; x05; x06; x07; x08; x09; x0a; xc2; x40]
     = Z.testbit
         (byte_to_Z (nth 11 [x01; x02; x03; x04; x05; x06; x07; x08; x09; x0a; xc2; x40] x00))
         6.
Proof.
  apply (chunk_id_fields [x01; x02; x03; x04; x05; x06; x07; x08; x09; x0a; xc2; x40]).
  reflexivity.
Defined.

(** *** Reading known bytes from a buffer *)

Lemma slice_app pre a post :
  slice (pre ++ a ++ post) (Z.of_nat (List.length pre)) (Z.of_nat (List.length a))
  = Some a.
Proof.
  unfold slice.
  assert (Hc : (0 <=? Z.of_nat (List.length pre))
               && (0 <=? Z.of_nat (List.length a))
               && (Z.of_nat (List.length pre) + Z.of_nat (List.length a)
                   <=? Z.of_nat (List.length (pre ++ a ++ post))) = true).
  { rewrite !length_app. apply andb_true_intro. split.
    - apply andb_true_intro. split; apply Z.leb_le; lia.
    - apply Z.leb_le. lia. }
  rewrite Hc, !Nat2Z.id, skipn_app, skipn_all, Nat.sub_diag.
  cbn [app skipn]. rewrite firstn_app, firstn_all, Nat.sub_diag.
  cbn [firstn]. rewrite app_nil_r. reflexivity.
Qed.

Lemma ReadValue_app n pre v post :
  0 <= v < 2 ^ (8 * Z.of_nat n) ->
  ReadValue (Z.of_nat n) (pre ++ Z_to_le n v ++ post) (Z.of_nat (List.length pre))
  = Some (v, Z.of_nat (List.length pre) + Z.of_nat n).
Proof.
  intros Hv. unfold ReadValue.
  pose proof (slice_app pre (Z_to_le n v) post) as Hs.
  rewrite PakFacts.Z_to_le_length in Hs.
  rewrite Hs, PakFacts.le_to_Z_to_le by exact Hv. reflexivity.
Qed.

Lemma ReadValue_u32_app pre v post :
  0 <= v < 2 ^ 32 ->
  ReadValue 4 (pre ++ Z_to_le 4 v ++ post) (Z.of_nat (List.length pre))
  = Some (v, Z.of_nat (List.length pre) + 4).
Proof. intros Hv. exact (ReadValue_app 4 pre v post Hv). Qed.

Lemma slice_short data off n :
  Z.of_nat (List.length data) < off + n -> slice data off n = None.
Proof.
  intros H. unfold slice.
  destruct (off + n <=? Z.of_nat (List.length data)) eqn:E;
    [apply Z.leb_le in E; lia|].
  rewrite andb_false_r. reflexivity.
Qed.

(** X4.  [ReadOptional] gives back a 32-bit value written little-endian,
    except 0xFFFFFFFF, which it reads as "none"; either way the cursor
    is four bytes on.  With fewer than four bytes left the read leaves
    the buffer. *)
Theorem ReadOptional_round_trip pre post v :
  0 <= v < 2 ^ 32 ->
  ReadOptional (pre ++ Z_to_le 4 v ++ post) (Z.of_nat (List.length pre))
  = Some (if v =? UINT32_MAX then None else Some v, Z.of_nat (List.length pre) + 4)
  /\ (forall data off,
         Z.of_nat (List.length data) < off + 4 -> ReadOptional data off = None).
Proof.
  intros Hv. split.
  - unfold ReadOptional.
    rewrite (ReadValue_u32_app pre v post) by exact Hv.
    destruct (v =? UINT32_MAX); reflexivity.
  - intros data off H. unfold ReadOptional, ReadValue.
    rewrite slice_short by exact H. reflexivity.
Qed.

Lemma ReadOptional_witness :
  ReadOptional ([x00] ++ Z_to_le 4 7 ++ []) (Z.of_nat (List.length [x00]))
  = Some (if 7 =? UINT32_MAX then None else Some 7, Z.of_nat (List.length [x00]) + 4)
  /\ (forall data off,
         Z.of_nat (List.length data) < off + 4 -> ReadOptional data off = None).
Proof.
  apply (ReadOptional_round_trip [x00] [] 7). lia.
Defined.

(** X5.  A string without NUL, written as its length plus one, its
    bytes and a NUL, is read back by [ReadString], and the cursor ends
    right behind the NUL. *)
Theorem ReadString_bytes_round_trip pre post s :
  no_nul s = true ->
  Z.of_nat (String.length s) + 1 < 2 ^ 31 ->
  ReadString (pre ++ cstring s ++ post) (Z.of_nat (List.length pre))
  = Some (s, Z.of_nat (List.length pre) + 4 + Z.of_nat (String.length s) + 1).
Proof.
  intros Hn Hl. unfold cstring, u32, ReadString.
  rewrite <- !app_assoc.
  rewrite (ReadValue_u32_app pre (Z.of_nat (String.length s) + 1)) by lia.
  rewrite to_signed_small by lia.
  destruct (Z.eqb_spec (Z.of_nat (String.length s) + 1) 0) as [|_]; [lia|].
  destruct (Z.ltb_spec (Z.of_nat (String.length s) + 1) 0) as [|_]; [lia|].
  set (len := Z.of_nat (String.length s) + 1).
  assert (Hs : slice (pre ++ Z_to_le 4 len ++ bytes_of_string s ++ [x00] ++ post)
                 (Z.of_nat (List.length pre) + 4) len
               = Some (bytes_of_string s ++ [x00])).
  { replace (pre ++ Z_to_le 4 len ++ bytes_of_string s ++ [x00] ++ post)
      with ((pre ++ Z_to_le 4 len) ++ (bytes_of_string s ++ [x00]) ++ post)
      by (rewrite <- !app_assoc; reflexivity).
    replace (Z.of_nat (List.length pre) + 4)
      with (Z.of_nat (List.length (pre ++ Z_to_le 4 len)))
      by (rewrite length_app, PakFacts.Z_to_le_length; lia).
    replace len with (Z.of_nat (List.length (bytes_of_string s ++ [x00])))
      by (rewrite length_app, bytes_of_string_length; simpl; unfold len; lia).
    apply slice_app. }
  rewrite Hs. rewrite until_nul_terminated.
  - rewrite string_of_bytes_of_string. f_equal. f_equal. unfold len. simpl. lia.
  - unfold no_nul in Hn. apply negb_true_iff in Hn. exact Hn.
Qed.

Lemma ReadString_bytes_witness :
  ReadString ([x07] ++ cstring "sub/file1" ++ [x09]) (Z.of_nat (List.length [x07]))
  = Some ("sub/file1"%string,
          Z.of_nat (List.length [x07]) + 4 + Z.of_nat (String.length "sub/file1") + 1).
Proof.
  apply (ReadString_bytes_round_trip [x07] [x09] "sub/file1").
  - reflexivity.
  - simpl. lia.
Defined.

(** X6.  For a declared length [L >= 0], [ReadString] moves the cursor
    by exactly [4 + L], and what it yields has at most [L] bytes and no
    NUL. *)
Theorem ReadString_bytes_cursor data off raw o4 s off' :
  ReadValue 4 data off = Some (raw, o4) ->
  0 <= to_signed 32 raw ->
  ReadString data off = Some (s, off') ->
  off' = off + 4 + to_signed 32 raw
  /\ Z.of_nat (String.length s) <= to_signed 32 raw
  /\ no_nul s = true.
Proof.
  intros Hraw Hpos. unfold ReadString. rewrite Hraw.
  apply ReadValue_offset in Hraw. subst o4.
  set (L := to_signed 32 raw) in *.
  destruct (Z.eqb_spec L 0) as [E0|_].
  - intros H; injection H as <- <-. rewrite E0. repeat split; simpl; lia.
  - destruct (Z.ltb_spec L 0) as [|_]; [lia|].
    destruct (slice data (off + 4) L) as [bs|] eqn:Es; [|discriminate].
    apply slice_length in Es.
    intros H; injection H as <- <-. split; [reflexivity|]. split.
    + rewrite <- bytes_of_string_length, bytes_of_string_of_bytes.
      pose proof (until_nul_length bs). lia.
    + unfold no_nul. rewrite bytes_of_string_of_bytes, until_nul_no_nul. reflexivity.
Qed.

Lemma ReadString_bytes_cursor_witness :
  7 = 0 + 4 + to_signed 32 3
  /\ Z.of_nat (String.length "ab") <= to_signed 32 3
  /\ no_nul "ab" = true.
Proof.
  apply (ReadString_bytes_cursor [x03; x00; x00; x00; x61; x62; x00] 0 3 4 "ab" 7).
  - reflexivity.
  - vm_compute. discriminate.
  - reflexivity.
Defined.



(** *** The vectors of an opened reader *)

Lemma records_length sz n : forall bs, List.length (records sz n bs) = n.
Proof. induction n as [|n IH]; intros bs; simpl; [reflexivity | rewrite IH; reflexivity]. Qed.

Lemma records_each sz n :
  forall bs, List.length bs = (sz * n)%nat ->
             Forall (fun rec => List.length rec = sz) (records sz n bs).
Proof.
  induction n as [|n IH]; intros bs Hl; simpl; constructor.
  - rewrite length_firstn. lia.
  - apply IH. rewrite length_skipn. lia.
Qed.

Lemma records_of_slice sz data off count bs :
  slice data off (count * Z.of_nat sz) = Some bs ->
  0 <= count ->
  List.length (records sz (Z.to_nat count) bs) = Z.to_nat count
  /\ Forall (fun rec => List.length rec = sz) (records sz (Z.to_nat count) bs).
Proof.
  intros Hs Hc. split; [apply records_length|].
  apply records_each. apply slice_length in Hs. nia.
Qed.

Lemma int32s_length n bs : List.length (int32s n bs) = n.
Proof. unfold int32s. rewrite length_map. apply records_length. Qed.

Lemma read_methods_length n data len :
  forall off methods off',
    read_methods n data len off = Some (methods, off') -> List.length methods = n.
Proof.
  induction n as [|n IH]; intros off methods off' H; simpl in H.
  - injection H as <- _. reflexivity.
  - destruct (slice data off len); [|discriminate].
    destruct (32 <? len); [discriminate|].
    destruct (has_nul _); [|discriminate].
    destruct (read_methods n data len (off + len)) as [[rest o]|] eqn:E; [|discriminate].
    injection H as <- _. simpl. f_equal. eapply IH. exact E.
Qed.

Lemma resize_length {A} n (d : A) l : List.length (resize n d l) = n.
Proof.
  unfold resize. rewrite length_app, length_firstn, repeat_length. lia.
Qed.

Lemma ufield_nonneg hb off n : 0 <= ufield hb off n.
Proof. unfold ufield. apply le_to_Z_range. Qed.

(** What the hash-map section leaves alone, and what it sets. *)
Lemma read_hash_map_vectors r data off r' off' :
  read_hash_map r data off = Some (r', off') ->
  chunk_ids_ r' = chunk_ids_ r
  /\ chunk_offset_lengths_ r' = chunk_offset_lengths_ r
  /\ (version_value PerfectHash <= version (header_ r) ->
      List.length (chunk_perfect_hash_seeds_ r')
      = Z.to_nat (toc_chunk_perfect_hash_seeds_count (header_ r)))
  /\ (version_value PerfectHashWithOverflow <= version (header_ r) ->
      List.length (chunk_indices_without_perfect_hash_ r')
      = Z.to_nat (toc_chunks_without_perfect_hash_count (header_ r)))
  /\ (version (header_ r) < version_value PerfectHash ->
      chunk_perfect_hash_seeds_ r' = chunk_perfect_hash_seeds_ r
      /\ chunk_indices_without_perfect_hash_ r'
         = chunk_indices_without_perfect_hash_ r).
Proof.
  unfold read_hash_map.
  destruct (Z.leb_spec (version_value PerfectHashWithOverflow) (version (header_ r)))
    as [H5|H5].
  - destruct (slice data off _); [|discriminate]. simpl.
    destruct (slice data _ _); [|discriminate].
    intros H; injection H as <- _. simpl.
    repeat split; intros; try apply int32s_length; simpl in *; lia.
  - destruct (Z.leb_spec (version_value PerfectHash) (version (header_ r))) as [H4|H4].
    + destruct (slice data off _); [|discriminate].
      intros H; injection H as <- _. simpl.
      repeat split; intros; try apply int32s_length; simpl in *; lia.
    + intros H; injection H as <- _. repeat split; intros; simpl in *; lia.
Qed.

Lemma ParseDirectoryIndex_vectors r data ok r' :
  ParseDirectoryIndex r data = Some (ok, r') ->
  chunk_ids_ r' = chunk_ids_ r
  /\ chunk_offset_lengths_ r' = chunk_offset_lengths_ r
  /\ chunk_perfect_hash_seeds_ r' = chunk_perfect_hash_seeds_ r
  /\ chunk_indices_without_perfect_hash_ r' = chunk_indices_without_perfect_hash_ r
  /\ compression_blocks_ r' = compression_blocks_ r
  /\ compression_methods_ r' = compression_methods_ r.
Proof.
  unfold ParseDirectoryIndex.
  destruct (ReadString data 0) as [[mp o1]|]; [|discriminate].
  destruct (ReadValue 4 data o1) as [[n1 o2]|]; [|discriminate].
  destruct (read_directory_entries _ data o2) as [[ds o3]|]; [|discriminate].
  destruct (ReadValue 4 data o3) as [[n2 o4]|]; [|discriminate].
  destruct (read_file_entries _ data o4 _) as [[[fs fm] o5]|]; [|discriminate].
  destruct (ReadValue 4 data o5) as [[n3 o6]|]; [|discriminate].
  destruct (read_strings _ data o6) as [[ss o7]|]; [|discriminate].
  intros H; injection H as _ <-. repeat split.
Qed.

(** The members after the chunk-metadata section. *)
Lemma read_chunk_metadata_vectors r data off ok r' :
  read_chunk_metadata r data off = Some (ok, r') ->
  List.length (chunk_metas_ r') = Z.to_nat (toc_entry_count (header_ r))
  /\ chunk_ids_ r' = chunk_ids_ r
  /\ chunk_offset_lengths_ r' = chunk_offset_lengths_ r
  /\ chunk_perfect_hash_seeds_ r' = chunk_perfect_hash_seeds_ r
  /\ chunk_indices_without_perfect_hash_ r' = chunk_indices_without_perfect_hash_ r
  /\ compression_blocks_ r' = compression_blocks_ r
  /\ compression_methods_ r' = compression_methods_ r
  /\ directory_index_ r' = directory_index_ r
  /\ file_map_ r' = file_map_ r.
Proof.
  unfold read_chunk_metadata.
  destruct (read_metas _ data _ off) as [[ms o]|] eqn:E; [|discriminate].
  apply read_metas_advance in E as [_ E]. rewrite resize_length in E.
  intros H; injection H as _ <-. simpl. repeat split. exact E.
Qed.

Lemma Open_true_inv r data r' :
  Open r (Some data) = Some (true, r') ->
  vectors_match r'
  /\ (version (header_ r') < version_value PerfectHash ->
      chunk_perfect_hash_seeds_ r' = chunk_perfect_hash_seeds_ r
      /\ chunk_indices_without_perfect_hash_ r'
         = chunk_indices_without_perfect_hash_ r)
  /\ (IsIndexed (header_ r') && (0 <? directory_index_size (header_ r')) = false ->
      directory_index_ r' = directory_index_ r /\ file_map_ r' = file_map_ r).
Proof.
  intros HO. pose proof (Open_cases _ _ _ _ HO) as [Hh _]. cbv zeta in Hh.
  revert HO. unfold Open.
  destruct (slice data 0 sizeof_FIoStoreTocHeader) as [hb|] eqn:Ehb; [|discriminate].
  apply slice_header in Ehb. subst hb.
  set (h := parse_header (firstn 144 data)) in *.
  change (header_ (set_header_ r h)) with h.
  destruct (IsValid h); simpl negb; cbv iota; [|discriminate].
  match goal with |- context [slice data ?o ?n] =>
    destruct (slice data o n) as [ids|] eqn:Eids; [|discriminate] end.
  match goal with |- context [slice data ?o ?n] =>
    destruct (slice data o n) as [ols|] eqn:Eols; [|discriminate] end.
  match goal with |- context [read_hash_map ?a data ?o] =>
    destruct (read_hash_map a data o) as [[r1 o1]|] eqn:Eh; [|discriminate] end.
  pose proof (read_hash_map_frame _ _ _ _ _ Eh) as (Hh1 & Hm1 & Hd1 & Hf1).
  apply read_hash_map_vectors in Eh as (Hi1 & Ho1 & Hs1 & Hv1 & Hold1).
  simpl in Hh1, Hm1, Hd1, Hf1, Hi1, Ho1, Hs1, Hv1, Hold1.
  match goal with |- context [slice data o1 ?n] =>
    destruct (slice data o1 n) as [bl|] eqn:Ebl; [|discriminate] end.
  match goal with |- context [read_methods ?a data ?b ?c] =>
    destruct (read_methods a data b c) as [[ms o2]|] eqn:Ems; [|discriminate] end.
  apply read_methods_length in Ems.
  destruct (IsEncrypted h); [discriminate|].
  set (r2 := set_compression_methods_ (set_compression_blocks_ r1 _) ms).
  assert (Hbase :
            forall rf,
              header_ rf = h ->
              chunk_ids_ rf = chunk_ids_ r2 ->
              chunk_offset_lengths_ rf = chunk_offset_lengths_ r2 ->
              chunk_perfect_hash_seeds_ rf = chunk_perfect_hash_seeds_ r2 ->
              chunk_indices_without_perfect_hash_ rf
              = chunk_indices_without_perfect_hash_ r2 ->
              compression_blocks_ rf = compression_blocks_ r2 ->
              compression_methods_ rf = compression_methods_ r2 ->
              List.length (chunk_metas_ rf) = Z.to_nat (toc_entry_count h) ->
              vectors_match rf
              /\ (version (header_ rf) < version_value PerfectHash ->
                  chunk_perfect_hash_seeds_ rf = chunk_perfect_hash_seeds_ r
                  /\ chunk_indices_without_perfect_hash_ rf
                     = chunk_indices_without_perfect_hash_ r)).
  { intros rf E0 E1 E2 E3 E4 E5 E6 E7.
    pose proof (records_of_slice 12 _ _ _ _ Eids (ufield_nonneg _ _ _)) as [Ha Hb].
    pose proof (records_of_slice 10 _ _ _ _ Eols (ufield_nonneg _ _ _)) as [Hc Hd].
    pose proof (records_of_slice 12 _ _ _ _ Ebl (ufield_nonneg _ _ _)) as [He Hf].
    split.
    - constructor; rewrite ?E0, ?E1, ?E2, ?E3, ?E4, ?E5, ?E6; unfold r2; simpl;
        rewrite ?Hi1, ?Ho1; simpl; auto.
    - rewrite E0, E3, E4. unfold r2. simpl. exact Hold1. }
  destruct (if IsSigned h then _ else _) as [[r3 o3]|] eqn:Es; [|discriminate].
  assert (Hr3 : r3 = r2).
  { destruct (IsSigned h).
    - destruct (ReadValue 4 data o2) as [[sg o]|]; [|discriminate].
      injection Es as <- _. reflexivity.
    - injection Es as <- _. reflexivity. }
  subst r3. clear Es.
  assert (Hh2 : header_ r2 = h) by exact Hh1.
  destruct (IsIndexed h && (0 <? directory_index_size h)) eqn:Eidx.
  - destruct (slice data o3 _) as [dd|]; [|discriminate].
    destruct (ParseDirectoryIndex r2 dd) as [[okp r4]|] eqn:Ep; [|discriminate].
    pose proof (ParseDirectoryIndex_true _ _ _ _ Ep) as (-> & Hh4 & _).
    apply ParseDirectoryIndex_vectors in Ep as (P1 & P2 & P3 & P4 & P5 & P6).
    simpl negb. cbv iota. intros H.
    apply read_chunk_metadata_vectors in H
      as (M0 & M1 & M2 & M3 & M4 & M5 & M6 & M7 & M8).
    rewrite Hh4, Hh2 in M0.
    split; [|split].
    + apply Hbase; try congruence.
    + apply Hbase; try congruence.
    + rewrite Hh, Eidx. discriminate.
  - intros H.
    apply read_chunk_metadata_vectors in H
      as (M0 & M1 & M2 & M3 & M4 & M5 & M6 & M7 & M8).
    rewrite Hh2 in M0.
    split; [|split].
    + apply Hbase; try congruence.
    + apply Hbase; try congruence.
    + intros _. rewrite M7, M8. unfold r2. simpl. split; congruence.
Qed.


(** X7.  After a successful [Open], the vectors have the lengths the
    header declares: as many 12-byte chunk ids, 10-byte offset-and-length
    records and chunk metadata as [toc_entry_count], as many 12-byte
    compressed-block records as [toc_compressed_block_entry_count], as
    many method names as [compression_method_name_count], and, for the
    versions that have them, as many hash seeds and overflow indices as
    declared. *)
Theorem open_vectors_match_header r data r' :
  Open r (Some data) = Some (true, r') -> vectors_match r'.
Proof. intros H. apply Open_true_inv in H. apply H. Qed.

Lemma open_vectors_witness :
  vectors_match
    (match Open fresh_reader (Some utoc_two_chunks) with
     | Some (_, r') => r'
     | None => fresh_reader
     end).
Proof.
  apply (open_vectors_match_header fresh_reader utoc_two_chunks).
  vm_compute. reflexivity.
Defined.

(** X8.  When [Open] returns at all on a file it could read, it answers
    [true] exactly when the magic is right and the Encrypted flag is
    clear. *)
Theorem open_answer r data ok r' :
  Open r (Some data) = Some (ok, r') ->
  ok = IsValid (header_ r') && negb (IsEncrypted (header_ r')).
Proof.
  intros H. apply Open_cases in H as [-> Hc]. cbv zeta in Hc.
  destruct Hc as [(-> & -> & _)|[(-> & -> & -> & _)|(-> & -> & ->)]]; reflexivity.
Qed.

Lemma open_answer_witness :
  false
  = IsValid (header_ (match Open fresh_reader (Some utoc_encrypted) with
                      | Some (_, r') => r'
                      | None => fresh_reader
                      end))
    && negb (IsEncrypted (header_ (match Open fresh_reader (Some utoc_encrypted) with
                                   | Some (_, r') => r'
                                   | None => fresh_reader
                                   end))).
Proof.
  apply (open_answer fresh_reader utoc_encrypted).
  vm_compute. reflexivity.
Defined.

(** X9.  [Open] does not clear what the file lacks.  When the container
    is not indexed (or its directory index is empty) the directory index
    of the reader, and so the paths it lists, are those it had before the
    call; for the versions before PerfectHash the hash seeds and overflow
    indices are those it had before. *)
Theorem open_keeps_what_the_file_lacks r data r' fuel :
  Open r (Some data) = Some (true, r') ->
  (IsIndexed (header_ r') && (0 <? directory_index_size (header_ r')) = false ->
   directory_index_ r' = directory_index_ r
   /\ UtocReader_GetAllFilePaths fuel r' = UtocReader_GetAllFilePaths fuel r)
  /\ (version (header_ r') < version_value PerfectHash ->
      chunk_perfect_hash_seeds_ r' = chunk_perfect_hash_seeds_ r
      /\ chunk_indices_without_perfect_hash_ r'
         = chunk_indices_without_perfect_hash_ r).
Proof.
  intros H. apply Open_true_inv in H as (_ & Hseeds & Hidx). split; [|exact Hseeds].
  intros Hn. destruct (Hidx Hn) as [Hd _]. split; [exact Hd|].
  unfold UtocReader_GetAllFilePaths. rewrite Hd. reflexivity.
Qed.

(** X9 at a reader that is opened a second time, on an unindexed
    version-3 file. *)
Lemma open_keeps_witness :
  (IsIndexed (header_ (match Open used_reader (Some utoc_v3_empty) with
                       | Some (_, r') => r'
                       | None => used_reader
                       end))
   && (0 <? directory_index_size
              (header_ (match Open used_reader (Some utoc_v3_empty) with
                        | Some (_, r') => r'
                        | None => used_reader
                        end))) = false ->
   directory_index_ (match Open used_reader (Some utoc_v3_empty) with
                     | Some (_, r') => r'
                     | None => used_reader
                     end)
   = directory_index_ used_reader
   /\ UtocReader_GetAllFilePaths 4
        (match Open used_reader (Some utoc_v3_empty) with
         | Some (_, r') => r'
         | None => used_reader
         end)
      = UtocReader_GetAllFilePaths 4 used_reader)
  /\ (version (header_ (match Open used_reader (Some utoc_v3_empty) with
                        | Some (_, r') => r'
                        | None => used_reader
                        end))
      < version_value PerfectHash ->
      chunk_perfect_hash_seeds_ (match Open used_reader (Some utoc_v3_empty) with
                                 | Some (_, r') => r'
                                 | None => used_reader
                                 end)
      = chunk_perfect_hash_seeds_ used_reader
      /\ chunk_indices_without_perfect_hash_
           (match Open used_reader (Some utoc_v3_empty) with
            | Some (_, r') => r'
            | None => used_reader
            end)
         = chunk_indices_without_perfect_hash_ used_reader).
Proof.
  apply (open_keeps_what_the_file_lacks used_reader utoc_v3_empty).
  vm_compute. reflexivity.
Defined.



(** *** The shape of the listed paths *)

Lemma append_segment_under mount a seg :
  exists m, append_segment (mount ++ a) seg = (mount ++ m ++ seg)%string.
Proof.
  unfold append_segment.
  destruct (negb (is_empty (mount ++ a)) && negb (back_is_slash (mount ++ a))).
  - exists (a ++ "/")%string. rewrite !append_assoc. reflexivity.
  - exists a. rewrite append_assoc. reflexivity.
Qed.

Lemma fold_segments_under mount path :
  forall a, exists a', fold_left append_segment path (mount ++ a)%string
                       = (mount ++ a')%string.
Proof.
  induction path as [|seg path IH]; intros a; simpl.
  - exists a. reflexivity.
  - destruct (append_segment_under mount a seg) as [m ->]. apply IH.
Qed.

Lemma full_path_shape mount path nm :
  exists middle, full_path mount (path ++ [nm]) = (mount ++ middle ++ nm)%string.
Proof.
  unfold full_path. rewrite fold_left_app. simpl.
  destruct (fold_segments_under mount path "") as [a Ha].
  rewrite append_empty_r in Ha. rewrite Ha. apply append_segment_under.
Qed.

Lemma at_index_In {A} (v : list A) i x : at_index v i = Some x -> In x v.
Proof. unfold at_index. apply nth_error_In. Qed.

Lemma file_loop_shape di fuel :
  forall idx path result r,
    Forall (path_of_file di) result ->
    file_loop fuel di idx path result = Done r ->
    Forall (path_of_file di) r.
Proof.
  induction fuel as [|fuel IH]; intros [i|] path result r Hres H; simpl in H;
    try discriminate; try (injection H as <-; exact Hres).
  destruct (at_index (file_entries di) i) as [f|] eqn:Ef; [|discriminate].
  destruct (at_index (string_table di) (file_name f)) as [nm|] eqn:En; [|discriminate].
  eapply IH; [|exact H].
  apply Forall_app. split; [exact Hres|]. constructor; [|constructor].
  destruct (full_path_shape (mount_point di) path nm) as [middle Hm].
  exists middle, f, nm. split; [eapply at_index_In, Ef|]. split; [exact En | exact Hm].
Qed.

Lemma traverse_shape di fuel :
  (forall i path result r,
      Forall (path_of_file di) result ->
      traverseDirectory fuel di i path result = Done r ->
      Forall (path_of_file di) r)
  /\ (forall c path result r,
         Forall (path_of_file di) result ->
         child_loop fuel di c path result = Done r ->
         Forall (path_of_file di) r).
Proof.
  induction fuel as [|fuel [IHt IHc]].
  - split; [intros; discriminate|].
    intros [c|] path result r Hres H; simpl in H; [discriminate|].
    injection H as <-. exact Hres.
  - split.
    + intros i path result r Hres H. simpl in H.
      destruct (at_index (directory_entries di) i) as [d|]; [|discriminate].
      destruct (match name d with
                | Some n => match at_index (string_table di) n with
                            | Some s => Some (path ++ [s])
                            | None => None
                            end
                | None => Some path
                end) as [path'|]; [|discriminate].
      destruct (file_loop fuel di (first_file_entry d) path' result) as [r1| |] eqn:Ef;
        try discriminate.
      eapply IHc; [|exact H]. eapply file_loop_shape; eassumption.
    + intros [c|] path result r Hres H; simpl in H; [|injection H as <-; exact Hres].
      destruct (traverseDirectory fuel di c path result) as [r1| |] eqn:Et;
        try discriminate.
      destruct (at_index (directory_entries di) c) as [d|]; [|discriminate].
      eapply IHc; [|exact H]. eapply IHt; eassumption.
Qed.



(** *** Termination on an index without cycles *)

Lemma file_loop_more_fuel di fuel :
  forall idx path result r,
    file_loop fuel di idx path result = Done r ->
    file_loop (S fuel) di idx path result = Done r.
Proof.
  induction fuel as [|fuel IH]; intros [i|] path result r H;
    try (simpl in H; discriminate); try exact H.
  cbn [file_loop] in H. cbn [file_loop].
  destruct (at_index (file_entries di) i) as [f|]; [|discriminate].
  destruct (at_index (string_table di) (file_name f)) as [nm|]; [|discriminate].
  apply IH in H. exact H.
Qed.

Lemma traverse_more_fuel di fuel :
  (forall i path result r,
      traverseDirectory fuel di i path result = Done r ->
      traverseDirectory (S fuel) di i path result = Done r)
  /\ (forall c path result r,
         child_loop fuel di c path result = Done r ->
         child_loop (S fuel) di c path result = Done r).
Proof.
  induction fuel as [|fuel [IHt IHc]].
  - split; [intros; discriminate|].
    intros [c|] path result r H; [discriminate | exact H].
  - split.
    + intros i path result r H.
      cbn [traverseDirectory] in H. cbn [traverseDirectory].
      destruct (at_index (directory_entries di) i) as [d|]; [|discriminate].
      destruct (match name d with
                | Some n => match at_index (string_table di) n with
                            | Some s => Some (path ++ [s])
                            | None => None
                            end
                | None => Some path
                end) as [path'|]; [|discriminate].
      destruct (file_loop fuel di (first_file_entry d) path' result) as [r1| |] eqn:Ef;
        try discriminate.
      apply file_loop_more_fuel in Ef. rewrite Ef. apply IHc, H.
    + intros [c|] path result r H; [|exact H].
      cbn [child_loop] in H. cbn [child_loop].
      destruct (traverseDirectory fuel di c path result) as [r1| |] eqn:Et;
        try discriminate.
      apply IHt in Et. rewrite Et.
      destruct (at_index (directory_entries di) c) as [d|]; [|discriminate].
      apply IHc, H.
Qed.

Lemma GetAllFilePaths_more_fuel di fuel fuel' paths :
  (fuel <= fuel')%nat ->
  GetAllFilePaths fuel di = Done paths -> GetAllFilePaths fuel' di = Done paths.
Proof.
  intros Hle H. induction Hle as [|fuel' Hle IH]; [exact H|].
  unfold GetAllFilePaths in *. destruct (directory_entries di); [exact IH|].
  apply (proj1 (traverse_more_fuel di fuel')), IH.
Qed.

Lemma forward_directories_nth ds :
  forall k i d,
    forward_directories k ds = true ->
    nth_error ds i = Some d ->
    after (k + i) (first_child_entry d) = true
    /\ after (k + i) (next_sibling_entry d) = true.
Proof.
  induction ds as [|d0 ds IH]; intros k i d Hf Hn; [destruct i; discriminate|].
  simpl in Hf. apply andb_prop in Hf as [Hf Hrest]. apply andb_prop in Hf as [H1 H2].
  destruct i as [|i]; simpl in Hn.
  - injection Hn as <-. rewrite Nat.add_0_r. auto.
  - rewrite <- Nat.add_succ_comm. eapply IH; eassumption.
Qed.

Lemma forward_files_nth fs :
  forall k i f,
    forward_files k fs = true ->
    nth_error fs i = Some f ->
    after (k + i) (next_file_entry f) = true.
Proof.
  induction fs as [|f0 fs IH]; intros k i f Hf Hn; [destruct i; discriminate|].
  simpl in Hf. apply andb_prop in Hf as [H1 Hrest].
  destruct i as [|i]; simpl in Hn.
  - injection Hn as <-. rewrite Nat.add_0_r. exact H1.
  - rewrite <- Nat.add_succ_comm. eapply IH; eassumption.
Qed.

Section Acyclic.
Variable di : FIoDirectoryIndexResource.
Hypothesis Hwf : indices_in_bounds di = true.
Hypothesis Hfw : forward_linked di = true.

Lemma below_at {A} (v : list A) i :
  below v i = true ->
  exists x, at_index v i = Some x /\ In x v /\ 0 <= i < Z.of_nat (List.length v).
Proof.
  intros H. destruct (at_index_below v i H) as (x & Hx & Hin).
  exists x. split; [exact Hx|]. split; [exact Hin|].
  unfold below in H. apply andb_prop in H as [H1 H2].
  apply Z.leb_le in H1. apply Z.ltb_lt in H2. lia.
Qed.

Lemma file_loop_terminates k :
  forall idx path result fuel,
    opt_below (file_entries di) idx = true ->
    match idx with
    | None => True
    | Some j => (List.length (file_entries di) - Z.to_nat j <= k)%nat
    end ->
    (k <= fuel)%nat ->
    exists r, file_loop fuel di idx path result = Done r.
Proof.
  induction k as [|k IH]; intros [j|] path result fuel Hb Hk Hfuel;
    try (destruct fuel; simpl; eauto; fail).
  - simpl in Hb. apply below_at in Hb as (f & _ & _ & Hr).  lia.
  - simpl in Hb. apply below_at in Hb as (f & Hf & Hin & Hr). 
    destruct fuel as [|fuel]; [lia|]. cbn [file_loop]. rewrite Hf.
    pose proof (file_entry_ok di Hwf f Hin) as Hok.
    unfold file_entry_in_bounds in Hok. apply andb_prop in Hok as [Hn Hnext].
    apply below_at in Hn as (nm & -> & _).
    apply IH; [exact Hnext| |lia].
    destruct (next_file_entry f) as [j'|] eqn:Ej; [|exact I].
    pose proof Hfw as Hfw'. unfold forward_linked in Hfw'.
    apply andb_prop in Hfw' as [_ Hff].
    pose proof (forward_files_nth _ 0 (Z.to_nat j) f Hff Hf) as Ha.
    rewrite Ej in Ha. simpl in Ha. apply Z.ltb_lt in Ha. lia.
Qed.

Lemma traverse_terminates k :
  forall i,
    below (directory_entries di) i = true ->
    (List.length (directory_entries di) - Z.to_nat i <= k)%nat ->
    (forall fuel path result,
        (List.length (file_entries di) + 2 * k <= fuel)%nat ->
        exists r, traverseDirectory fuel di i path result = Done r)
    /\ (forall fuel path result,
           (List.length (file_entries di) + 2 * k + 1 <= fuel)%nat ->
           exists r, child_loop fuel di (Some i) path result = Done r).
Proof.
  induction k as [|k IH]; intros i Hb Hk.
  - apply below_at in Hb as (d & _ & _ & Hr).  lia.
  - pose proof Hb as Hb0.
    apply below_at in Hb as (d & Hd & Hin & Hr). 
    pose proof (directory_entry_ok di Hwf d Hin) as Hok.
    unfold directory_entry_in_bounds in Hok.
    apply andb_prop in Hok as [Hok Hfile]. apply andb_prop in Hok as [Hok Hsib].
    apply andb_prop in Hok as [Hname Hchild].
    pose proof Hfw as Hfw'. unfold forward_linked in Hfw'.
    apply andb_prop in Hfw' as [Hfd _].
    pose proof (forward_directories_nth _ 0 (Z.to_nat i) d Hfd Hd) as [Hc Hs].
    simpl in Hc, Hs.
    assert (Hloop : forall o fuel path result,
               opt_below (directory_entries di) o = true ->
               after (Z.to_nat i) o = true ->
               (List.length (file_entries di) + 2 * k + 1 <= fuel)%nat ->
               exists r, child_loop fuel di o path result = Done r).
    { intros [c|] fuel path result Hbc Hac Hfuel.
      - simpl in Hbc, Hac. apply Z.ltb_lt in Hac.
        pose proof Hbc as Hbc0. apply below_at in Hbc0 as (_ & _ & _ & Hrc). 
        apply (IH c Hbc); [lia | exact Hfuel].
      - destruct fuel; simpl; eauto. }
    assert (Ht : forall fuel path result,
               (List.length (file_entries di) + 2 * S k <= fuel)%nat ->
               exists r, traverseDirectory fuel di i path result = Done r).
    { intros fuel path result Hfuel.
      destruct fuel as [|fuel]; [lia|]. cbn [traverseDirectory]. rewrite Hd.
      assert (Hp : exists path',
                 match name d with
                 | Some nm => match at_index (string_table di) nm with
                              | Some s => Some (path ++ [s])
                              | None => None
                              end
                 | None => Some path
                 end = Some path').
      { destruct (name d) as [nm|]; [|eauto].
        simpl in Hname. apply below_at in Hname as (s & -> & _). eauto. }
      destruct Hp as [path' ->].
      destruct (file_loop_terminates (List.length (file_entries di)) (first_file_entry d) path' result fuel Hfile)
        as [r1 ->]; [destruct (first_file_entry d); [lia | exact I] | lia |].
      apply Hloop; [exact Hchild | exact Hc | lia]. }
    split; [exact Ht|].
    intros fuel path result Hfuel.
    destruct fuel as [|fuel]; [lia|]. cbn [child_loop].
    destruct (Ht fuel path result) as [r1 ->]; [lia|]. rewrite Hd.
    apply Hloop; [exact Hsib | exact Hs | lia].
Qed.

End Acyclic.

(** X11.  On an index whose stored indices are all in bounds and whose
    links all point forward (children, siblings and next files have
    larger indices than the entry naming them), [GetAllFilePaths]
    terminates with a listing: it needs no more nested steps than the
    number of file entries plus twice the number of directory entries,
    and the listing is the same with any larger allowance. *)
Theorem listing_terminates_on_forward_linked_index di :
  indices_in_bounds di = true ->
  forward_linked di = true ->
  exists paths,
    forall fuel,
      (List.length (file_entries di) + 2 * List.length (directory_entries di) <= fuel)%nat ->
      GetAllFilePaths fuel di = Done paths.
Proof.
  intros Hwf Hfw.
  set (bound := (List.length (file_entries di)
                 + 2 * List.length (directory_entries di))%nat).
  assert (Hb : exists paths, GetAllFilePaths bound di = Done paths).
  { unfold GetAllFilePaths. destruct (directory_entries di) as [|d ds] eqn:E; [eauto|].
    assert (H0 : below (directory_entries di) 0 = true) by (rewrite E; reflexivity).
    destruct (traverse_terminates di Hwf Hfw (List.length (directory_entries di))
                0 H0) as [Ht _]; [simpl; lia|].
    apply Ht. unfold bound. rewrite ?E. apply le_n. }
  destruct Hb as [paths Hp]. exists paths. intros fuel Hfuel.
  eapply GetAllFilePaths_more_fuel; eassumption.
Qed.

Lemma listing_terminates_witness :
  exists paths,
    forall fuel,
      (List.length (file_entries two_level_index)
       + 2 * List.length (directory_entries two_level_index) <= fuel)%nat ->
      GetAllFilePaths fuel two_level_index = Done paths.
Proof.
  apply (listing_terminates_on_forward_linked_index two_level_index); reflexivity.
Defined.

(** *** Reading a directory index that was laid out *)

Lemma holds_slice data off a rest :
  holds data off (a ++ rest) ->
  slice data off (Z.of_nat (List.length a)) = Some a
  /\ holds data (off + Z.of_nat (List.length a)) rest.
Proof.
  intros [Hoff (post & Hs)].
  assert (Hlen : (List.length data - Z.to_nat off
                  = List.length a + List.length rest + List.length post)%nat).
  { rewrite <- length_skipn, Hs, !length_app. lia. }
  split.
  - unfold slice.
    destruct (Z.leb_spec 0 off) as [_|]; [|lia].
    destruct (Z.leb_spec 0 (Z.of_nat (List.length a))) as [_|]; [|lia].
    destruct (Z.leb_spec (off + Z.of_nat (List.length a)) (Z.of_nat (List.length data)))
      as [_|]; [|lia].
    cbn [andb]. rewrite Hs, Nat2Z.id, <- app_assoc, firstn_app, firstn_all, Nat.sub_diag.
    cbn [firstn]. rewrite app_nil_r. reflexivity.
  - split; [lia|]. exists post.
    replace (Z.to_nat (off + Z.of_nat (List.length a)))
      with (List.length a + Z.to_nat off)%nat by lia.
    rewrite <- skipn_skipn, Hs, <- app_assoc, skipn_app, skipn_all, Nat.sub_diag.
    reflexivity.
Qed.

Lemma ReadValue_holds data off v rest :
  u32_ok v = true ->
  holds data off (u32 v ++ rest) ->
  ReadValue 4 data off = Some (v, off + 4) /\ holds data (off + 4) rest.
Proof.
  intros Hv H. apply andb_prop in Hv as [H0 H1].
  apply Z.leb_le in H0. apply Z.ltb_lt in H1.
  apply holds_slice in H as [Hs Hr]. unfold u32 in *.
  rewrite PakFacts.Z_to_le_length in Hs, Hr. split; [|exact Hr].
  unfold ReadValue. change 4 with (Z.of_nat 4) at 1. rewrite Hs.
  rewrite PakFacts.le_to_Z_to_le by (change (2 ^ (8 * Z.of_nat 4)) with (2 ^ 32); lia).
  reflexivity.
Qed.

Lemma ReadOptional_holds data off o rest :
  optional_ok o = true ->
  holds data off (optional o ++ rest) ->
  ReadOptional data off = Some (o, off + 4) /\ holds data (off + 4) rest.
Proof.
  intros Ho H. unfold ReadOptional. destruct o as [v|]; cbn [optional optional_ok] in *.
  - apply andb_prop in Ho as [H0 H1]. apply Z.leb_le in H0. apply Z.ltb_lt in H1.
    destruct (ReadValue_holds data off v rest) as [-> Hr]; [|exact H|].
    + unfold u32_ok, UINT32_MAX in *.
      apply andb_true_intro. split; [apply Z.leb_le | apply Z.ltb_lt]; lia.
    + split; [|exact Hr]. destruct (Z.eqb_spec v UINT32_MAX); [lia | reflexivity].
  - destruct (ReadValue_holds data off UINT32_MAX rest) as [-> Hr];
      [reflexivity | exact H|].
    split; [reflexivity | exact Hr].
Qed.

Lemma cstring_length s :
  Z.of_nat (List.length (cstring s)) = 4 + Z.of_nat (String.length s) + 1.
Proof.
  unfold cstring, u32. rewrite !length_app, PakFacts.Z_to_le_length, bytes_of_string_length.
  cbn [List.length]. lia.
Qed.

Lemma ReadString_holds data off s rest :
  string_ok s = true ->
  holds data off (cstring s ++ rest) ->
  ReadString data off = Some (s, off + Z.of_nat (List.length (cstring s)))
  /\ holds data (off + Z.of_nat (List.length (cstring s))) rest.
Proof.
  intros Hs H. apply andb_prop in Hs as [Hn Hl]. apply Z.ltb_lt in Hl.
  pose proof (holds_slice _ _ _ _ H) as [_ Hrest]. split; [|exact Hrest].
  unfold cstring in H. rewrite <- !app_assoc in H.
  destruct (ReadValue_holds data off (Z.of_nat (String.length s) + 1)
              (bytes_of_string s ++ [x00] ++ rest)) as [Hv Hb]; [|exact H|].
  { apply andb_true_intro. split; [apply Z.leb_le | apply Z.ltb_lt]; lia. }
  unfold ReadString. rewrite Hv. cbv zeta. rewrite to_signed_small by lia.
  destruct (Z.eqb_spec (Z.of_nat (String.length s) + 1) 0) as [|_]; [lia|].
  destruct (Z.ltb_spec (Z.of_nat (String.length s) + 1) 0) as [|_]; [lia|].
  rewrite app_assoc in Hb. apply holds_slice in Hb as [Hb _].
  rewrite length_app, bytes_of_string_length in Hb. cbn [List.length] in Hb.
  replace (Z.of_nat (String.length s + 1)) with (Z.of_nat (String.length s) + 1) in Hb
    by lia.
  rewrite Hb, until_nul_terminated.
  - rewrite string_of_bytes_of_string, cstring_length. do 2 f_equal. lia.
  - unfold no_nul in Hn. apply negb_true_iff in Hn. exact Hn.
Qed.

Lemma directory_entry_bytes_length d :
  List.length (directory_entry_bytes d) = 16%nat.
Proof.
  unfold directory_entry_bytes, optional, absent, u32.
  rewrite !length_app.
  destruct (name d), (first_child_entry d), (next_sibling_entry d),
    (first_file_entry d); rewrite !PakFacts.Z_to_le_length; reflexivity.
Qed.

Lemma read_directory_entries_holds ds :
  forall data off rest,
    forallb directory_record_ok ds = true ->
    holds data off (flat_map directory_entry_bytes ds ++ rest) ->
    exists off',
      read_directory_entries (List.length ds) data off = Some (ds, off')
      /\ holds data off' rest.
Proof.
  induction ds as [|d ds IH]; intros data off rest Hok H.
  - exists off. split; [reflexivity | exact H].
  - cbn [forallb] in Hok. apply andb_prop in Hok as [Hd Hok].
    unfold directory_record_ok in Hd.
    apply andb_prop in Hd as [Hd H4]. apply andb_prop in Hd as [Hd H3].
    apply andb_prop in Hd as [H1 H2].
    cbn [flat_map] in H. unfold directory_entry_bytes in H at 1.
    rewrite <- !app_assoc in H.
    apply ReadOptional_holds in H as [E1 H]; [|exact H1].
    apply ReadOptional_holds in H as [E2 H]; [|exact H2].
    apply ReadOptional_holds in H as [E3 H]; [|exact H3].
    apply ReadOptional_holds in H as [E4 H]; [|exact H4].
    destruct (IH data _ rest Hok H) as (off' & E5 & Hr).
    exists off'. split; [|exact Hr].
    cbn [List.length read_directory_entries]. rewrite E1, E2, E3, E4, E5.
    destruct d; reflexivity.
Qed.

Lemma read_file_entries_holds fs :
  forall data off rest fm,
    forallb file_record_ok fs = true ->
    holds data off (flat_map file_entry_bytes fs ++ rest) ->
    exists off',
      read_file_entries (List.length fs) data off fm
      = Some (fs, file_map_after fs fm, off')
      /\ holds data off' rest.
Proof.
  induction fs as [|f fs IH]; intros data off rest fm Hok H.
  - exists off. split; [reflexivity | exact H].
  - cbn [forallb] in Hok. apply andb_prop in Hok as [Hf Hok].
    unfold file_record_ok in Hf.
    apply andb_prop in Hf as [Hf H3]. apply andb_prop in Hf as [H1 H2].
    cbn [flat_map] in H. unfold file_entry_bytes in H at 1.
    rewrite <- !app_assoc in H.
    apply ReadValue_holds in H as [E1 H]; [|exact H1].
    apply ReadOptional_holds in H as [E2 H]; [|exact H2].
    apply ReadValue_holds in H as [E3 H]; [|exact H3].
    destruct (IH data _ rest (file_map_assign (user_data f) fm) Hok H)
      as (off' & E4 & Hr).
    exists off'. split; [|exact Hr].
    cbn [List.length read_file_entries]. rewrite E1, E2, E3, E4.
    destruct f; reflexivity.
Qed.

Lemma read_strings_holds ss :
  forall data off rest,
    forallb string_ok ss = true ->
    holds data off (flat_map cstring ss ++ rest) ->
    exists off',
      read_strings (List.length ss) data off = Some (ss, off')
      /\ holds data off' rest.
Proof.
  induction ss as [|s ss IH]; intros data off rest Hok H.
  - exists off. split; [reflexivity | exact H].
  - cbn [forallb] in Hok. apply andb_prop in Hok as [Hs Hok].
    cbn [flat_map] in H. rewrite <- app_assoc in H.
    apply ReadString_holds in H as [E1 H]; [|exact Hs].
    destruct (IH data _ rest Hok H) as (off' & E2 & Hr).
    exists off'. split; [|exact Hr].
    cbn [List.length read_strings]. rewrite E1, E2. reflexivity.
Qed.

(** X21.  A directory index laid out as mount point, counted directory
    records, counted file records and counted strings is parsed back to
    itself, whatever follows it in the buffer; [file_map_] gains an
    empty string under the user data of every file entry, and the other
    members stay. *)
Theorem ParseDirectoryIndex_round_trip r di post :
  encodable di = true ->
  ParseDirectoryIndex r (directory_index_bytes di ++ post)
  = Some (true, set_directory r di (file_map_after (file_entries di) (file_map_ r))).
Proof.
  intros Hok. unfold encodable in Hok.
  apply andb_prop in Hok as [Hok Hss]. apply andb_prop in Hok as [Hok Hns].
  apply andb_prop in Hok as [Hok Hfs]. apply andb_prop in Hok as [Hok Hnf].
  apply andb_prop in Hok as [Hok Hds]. apply andb_prop in Hok as [Hm Hnd].
  assert (H : holds (directory_index_bytes di ++ post) 0 (directory_index_bytes di ++ post))
    by (split; [lia | exists []; rewrite app_nil_r; reflexivity]).
  unfold directory_index_bytes in H at 2. rewrite <- !app_assoc in H.
  apply ReadString_holds in H as [E1 H]; [|exact Hm].
  apply ReadValue_holds in H as [E2 H]; [|exact Hnd].
  apply read_directory_entries_holds in H as (o3 & E3 & H); [|exact Hds].
  apply ReadValue_holds in H as [E4 H]; [|exact Hnf].
  apply (read_file_entries_holds _ _ _ _ (file_map_ r)) in H as (o5 & E5 & H);
    [|exact Hfs].
  apply ReadValue_holds in H as [E6 H]; [|exact Hns].
  apply read_strings_holds in H as (o7 & E7 & H); [|exact Hss].
  unfold ParseDirectoryIndex. rewrite E1, E2, Nat2Z.id, E3, E4, Nat2Z.id, E5, E6,
    Nat2Z.id, E7.
  destruct di; reflexivity.
Qed.

Lemma ParseDirectoryIndex_witness :
  ParseDirectoryIndex fresh_reader (directory_index_bytes two_level_index ++ [x07])
  = Some (true,
          set_directory fresh_reader two_level_index
            (file_map_after (file_entries two_level_index) (file_map_ fresh_reader))).
Proof.
  apply (ParseDirectoryIndex_round_trip fresh_reader two_level_index [x07]).
  vm_compute. reflexivity.
Defined.

End UtocExtra.

(** * Further properties of the PAK reader *)

Module PakExtra.
Import Wire WireSpec WireFacts Pak PakSpec Reference Samples PakFacts.
Local Open Scope pak_scope.

(** *** What a returning step has done *)

Lemma bind_Ok {A B} (m : M A) (k : A -> M B) s b s' :
  bind m k s = Ok b s' -> exists a s1, m s = Ok a s1 /\ k a s1 = Ok b s'.
Proof.
  unfold bind. destruct (m s) as [a s1| |]; try discriminate. eauto.
Qed.

Lemma ret_Ok {A} (a : A) s b s' : ret a s = Ok b s' -> b = a /\ s' = s.
Proof. unfold ret. intros H; injection H as <- <-. auto. Qed.

Lemma upd_footer_Ok g s u s' :
  upd_footer g s = Ok u s' -> s' = set_footer_ s (g (footer_ s)).
Proof. unfold upd_footer. intros H; injection H as _ <-. reflexivity. Qed.

Lemma get_footer_Ok s f s' : get_footer s = Ok f s' -> f = footer_ s /\ s' = s.
Proof. unfold get_footer. intros H; injection H as <- <-. auto. Qed.

Lemma check_Ok (c : bool) e s u s' :
  (if c then throw e else ret tt) s = Ok u s' -> c = false /\ s' = s.
Proof. destruct c; [discriminate|]. intros H; injection H as _ <-. auto. Qed.

Lemma reader_Ok {A} (m : M A) s a s' :
  reader m -> m s = Ok a s' -> exists pos good, s' = set_stream s pos good.
Proof. intros Hm H. specialize (Hm s). rewrite H in Hm. exact Hm. Qed.

Lemma set_stream_twice s p g p' g' :
  set_stream (set_stream s p g) p' g' = set_stream s p' g'.
Proof. reflexivity. Qed.

Lemma stream_read_Ok n s bs s' :
  0 <= n ->
  stream_read n s = Ok bs s' ->
  List.length bs = Z.to_nat n /\ exists pos good, s' = set_stream s pos good.
Proof.
  intros Hn H. split; [|eapply reader_Ok; [apply reader_stream_read | exact H]].
  revert H. unfold stream_read, file_size.
  destruct (stream_good s); [|discriminate]. cbn [andb].
  destruct (Z.eqb_spec n 0) as [->|Hn0]; cbn [orb].
  - intros H; injection H as <- _. reflexivity.
  - destruct (Z.leb_spec 0 (stream_pos s)) as [Hp|]; [|discriminate]. cbn [andb].
    destruct (Z.leb_spec (stream_pos s + n) (Z.of_nat (List.length (stream_data s))))
      as [Hl|]; [|discriminate].
    intros H; injection H as <- _.
    rewrite length_firstn, length_skipn. lia.
Qed.

Lemma read_uint_Ok n s v s' :
  read_uint (Z.of_nat n) s = Ok v s' ->
  0 <= v < 2 ^ (8 * Z.of_nat n)
  /\ exists pos good, s' = set_stream s pos good.
Proof.
  intros H. split; [|eapply reader_Ok; [apply reader_read_uint | exact H]].
  unfold read_uint in H. apply bind_Ok in H as (bs & s1 & Hr & H).
  apply ret_Ok in H as [-> ->].
  apply stream_read_Ok in Hr as [Hl _]; [|lia].
  apply le_to_Z_field_range. rewrite Hl. apply Nat2Z.id.
Qed.

Lemma read_bool_Ok s b s' :
  read_bool s = Ok b s' -> exists pos good, s' = set_stream s pos good.
Proof.
  unfold read_bool. intros H. apply bind_Ok in H as (v & s1 & Hr & H).
  apply (read_uint_Ok 1) in Hr as [_ (p & g & ->)].
  destruct (_ && _); [discriminate|]. apply ret_Ok in H as [_ ->]. eauto.
Qed.

Lemma read_compression_Ok n :
  forall s names s',
    read_compression n s = Ok names s' ->
    List.length names = n /\ exists pos good, s' = set_stream s pos good.
Proof.
  intros s names s' H. split; [|eapply reader_Ok; [apply reader_read_compression|exact H]].
  revert s names s' H. induction n as [|n IH]; intros s names s' H; simpl in H.
  - apply ret_Ok in H as [-> _]. reflexivity.
  - apply bind_Ok in H as (nm & s1 & _ & H).
    apply bind_Ok in H as (rest & s2 & Hr & H).
    apply ret_Ok in H as [-> _]. simpl. f_equal. eapply IH, Hr.
Qed.

(** One returning step of [H], of the kind named. *)
Ltac step_uint H n v R :=
  let s1 := fresh "s" in
  let H1 := fresh in
  apply bind_Ok in H as (v & s1 & H1 & H);
  apply (read_uint_Ok n) in H1 as [R (? & ? & ->)].

Ltac step_upd H :=
  let s1 := fresh "s" in
  let H1 := fresh in
  let u := fresh "u" in
  apply bind_Ok in H as (u & s1 & H1 & H);
  apply upd_footer_Ok in H1; subst s1.

Ltac step_check H C :=
  let s1 := fresh "s" in
  let u := fresh "u" in
  apply bind_Ok in H as (u & s1 & C & H);
  apply check_Ok in C as [C ->].

Ltac step_get H :=
  let s1 := fresh "s" in
  let f := fresh "f" in
  let H1 := fresh in
  apply bind_Ok in H as (f & s1 & H1 & H);
  apply get_footer_Ok in H1 as [-> ->].

Lemma uuid_step_Ok (c : bool) s u s' :
  (if c then uuid <- read_uint 16 ;; upd_footer (with_encryption_uuid (Some uuid))
   else upd_footer (with_encryption_uuid None)) s = Ok u s' ->
  exists pos good o,
    s' = set_footer_ (set_stream s pos good) (with_encryption_uuid o (footer_ s))
    /\ match o with
       | Some v => c = true /\ 0 <= v < 2 ^ 128
       | None => c = false
       end.
Proof.
  destruct c; intros H.
  - apply bind_Ok in H as (v & s1 & Hr & H).
    apply (read_uint_Ok 16) in Hr as [Hv (p & g & ->)].
    apply upd_footer_Ok in H. subst s'.
    exists p, g, (Some v). split; [reflexivity | auto].
  - apply upd_footer_Ok in H. subst s'.
    exists (stream_pos s), (stream_good s), None.
    rewrite <- set_stream_eta. auto.
Qed.

Lemma flag_step_Ok (c : bool) (g : bool -> Footer -> Footer) s u s' :
  (if c then b <- read_bool ;; upd_footer (g b) else upd_footer (g false)) s = Ok u s' ->
  exists pos good b,
    s' = set_footer_ (set_stream s pos good) (g b (footer_ s))
    /\ (c = false -> b = false).
Proof.
  destruct c; intros H.
  - apply bind_Ok in H as (b & s1 & Hr & H).
    apply read_bool_Ok in Hr as (p & gd & ->). apply upd_footer_Ok in H. subst s'.
    exists p, gd, b. split; [reflexivity | discriminate].
  - apply upd_footer_Ok in H. subst s'.
    exists (stream_pos s), (stream_good s), false.
    rewrite <- set_stream_eta. auto.
Qed.

(** The footer that [read_footer_fields] leaves when it returns. *)
Lemma read_footer_fields_Ok v s s' :
  read_footer_fields v s = Ok tt s' ->
  footer_wf (footer_ s') /\ version (footer_ s') = v /\ entries_ s' = entries_ s.
Proof.
  unfold read_footer_fields. intros H.
  apply bind_Ok in H as (w1 & s1 & H1 & H).
  apply uuid_step_Ok in H1 as (p1 & g1 & o & -> & Ho).
  apply bind_Ok in H as (w2 & s2 & H2 & H).
  apply flag_step_Ok in H2 as (p2 & g2 & enc & -> & Henc).
  step_uint H 4%nat mg Rmg. step_check H Cmg. step_upd H.
  step_uint H 4%nat vm Rvm. step_upd H. step_get H. step_check H Cvm.
  step_uint H 8%nat io Rio. step_upd H.
  step_uint H 8%nat isz Risz. step_upd H.
  apply bind_Ok in H as (h & s3 & Hh & H).
  apply (stream_read_Ok 20) in Hh as [Hh (p3 & g3 & ->)]; [|discriminate].
  step_upd H.
  apply bind_Ok in H as (w4 & s4 & H4 & H).
  apply flag_step_Ok in H4 as (p4 & g4 & fr & -> & Hfr).
  apply bind_Ok in H as (names & s5 & H5 & H).
  apply read_compression_Ok in H5 as [Hnames (p5 & g5 & ->)].
  step_upd H.
  apply bind_Ok in H as (w6 & s6 & H6 & H).
  apply upd_footer_Ok in H. subst s'.
  apply negb_false_iff, Z.eqb_eq in Cmg.
  apply negb_false_iff, Z.eqb_eq in Cvm.
  cbn [footer_ set_footer_ set_stream with_version_major version_major] in Cvm.
  destruct (negb (major_ge (version_to_major v) FNameBasedCompression)) eqn:Eold.
  - apply upd_footer_Ok in H6. subst s6.
    split; [|split; reflexivity].
    assert (Hc0 : compression_count v = 0%nat)
      by (destruct v; try reflexivity; discriminate Eold).
    rewrite Hc0 in Hnames. destruct names; [|discriminate].
    apply negb_true_iff in Eold.
    constructor; cbn; unfold uuid_ok, compression_ok; cbn; rewrite ?Eold; auto.
  - apply ret_Ok in H6 as [_ ->].
    split; [|split; reflexivity].
    apply negb_false_iff in Eold.
    constructor; cbn; unfold uuid_ok, compression_ok; cbn; rewrite ?Eold; auto.
Qed.


(** *** The constructor *)

Lemma read_index_Ok s s' :
  read_index s = Ok tt s' ->
  footer_ s' = footer_ s /\ encrypted (footer_ s) = false.
Proof.
  intros H. split.
  - pose proof (read_index_spec (footer_ s) (entries_ s) s (conj eq_refl eq_refl)) as Hs.
    rewrite H in Hs. apply Hs.
  - unfold read_index in H. step_get H.
    apply bind_Ok in H as (u & s1 & _ & H).
    apply bind_Ok in H as (u' & s2 & Hc & _).
    apply check_Ok in Hc as [Hc _]. exact Hc.
Qed.

Lemma attempt_Ok v s s' :
  attempt v s = Ok tt s' ->
  footer_wf (footer_ s') /\ version (footer_ s') = v
  /\ encrypted (footer_ s') = false.
Proof.
  unfold attempt, read_footer. intros H.
  apply bind_Ok in H as ([] & s1 & Hf & Hi).
  apply bind_Ok in Hf as ([] & s0 & _ & Hf).
  apply read_footer_fields_Ok in Hf as (Hwf & Hv & _).
  apply read_index_Ok in Hi as [-> He]. auto.
Qed.

Lemma probe_Ok v :
  forall s s',
    probe v s = Ok tt s' ->
    exists k s0, (1 <= k <= v)%nat /\ attempt (Version_of_nat k) s0 = Ok tt s'.
Proof.
  induction v as [|v IH]; intros s s' H; [discriminate|].
  cbn [probe] in H.
  destruct (attempt (Version_of_nat (S v)) s) as [[] s1|e s1|] eqn:Ea; try discriminate.
  - injection H as <-. exists (S v), s. split; [lia | exact Ea].
  - apply IH in H as (k & s0 & Hk & Hs). exists k, s0. split; [lia | exact Hs].
Qed.

Lemma Version_of_nat_positive k : (1 <= k)%nat -> Version_of_nat k <> V0.
Proof.
  intros Hk. do 12 (destruct k as [|k]; [first [lia | discriminate]|]). discriminate.
Qed.

(** X12.  The footer of a PAK that opened: the magic number is the PAK
    magic, the major version is the one of the version the probe
    settled on, which is never V0, every field is within its width, the
    fields the version has no room for are at their defaults, the
    compression table has the length of the version (or is the three
    synthesized methods), and the index is not encrypted. *)
Theorem opened_footer_is_well_formed file s :
  Pak.open file = Ok tt s ->
  footer_wf (footer_ s)
  /\ reader_version s <> V0
  /\ encrypted_index s = false.
Proof.
  destruct file as [data|]; [|discriminate]. unfold Pak.open. intros H.
  apply probe_Ok in H as (k & s0 & Hk & H).
  apply attempt_Ok in H as (Hwf & Hv & He).
  split; [exact Hwf|]. split; [|exact He].
  unfold reader_version. rewrite Hv. apply Version_of_nat_positive. lia.
Qed.

Lemma opened_footer_witness :
  footer_wf (footer_ (opened pak_v11))
  /\ reader_version (opened pak_v11) <> V0
  /\ encrypted_index (opened pak_v11) = false.
Proof.
  apply (opened_footer_is_well_formed (Some pak_v11) (opened pak_v11)).
  vm_compute. reflexivity.
Defined.

Lemma probe_Throw v :
  forall s e s', probe v s = Throw e s' -> e = FailedToReadPak.
Proof.
  induction v as [|v IH]; intros s e s' H; cbn [probe] in H.
  - injection H as <- _. reflexivity.
  - destruct (attempt (Version_of_nat (S v)) s) as [[] s1|e1 s1|]; try discriminate.
    eapply IH, H.
Qed.






(** *** The entries of the map *)

#[local] Hint Resolve reader_ret reader_indeterminate reader_stream_read
  reader_seekg_end reader_seekg reader_seekg_cur reader_tellg reader_get_footer
  reader_read_uint reader_read_guid reader_read_string reader_read_blocks
  reader_read_compression : readers.

Lemma slot_of_range c : 0 <= c < 2 ^ 32 ->
  match slot_of c with
  | Some slot => 0 <= slot < 2 ^ 32 - 1
  | None => True
  end.
Proof.
  intros Hc. unfold slot_of. destruct (Z.eqb_spec c 0); [exact I | lia].
Qed.

Lemma read_entry_Ok s e s' :
  version_major (footer_ s) < VersionMajor_value PathHashIndex ->
  read_entry s = Ok e s' -> entry_fits (footer_ s) e.
Proof.
  intros Hold H. unfold read_entry in H. step_get H.
  apply bind_Ok in H as (off & s1 & Hoff & H). apply (read_uint_Ok 8) in Hoff as [Roff _].
  apply bind_Ok in H as (cs & s2 & Hcs & H). apply (read_uint_Ok 8) in Hcs as [Rcs _].
  apply bind_Ok in H as (us & s3 & Hus & H). apply (read_uint_Ok 8) in Hus as [Rus _].
  apply bind_Ok in H as (slot & s4 & Hslot & H).
  assert (Rslot : match slot with
                  | Some sl => 0 <= sl < 2 ^ 32 - 1
                  | None => True
                  end).
  { destruct (_ =? _);
      apply bind_Ok in Hslot as (c & s5 & Hc & Hslot); apply ret_Ok in Hslot as [-> _].
    - apply (read_uint_Ok 1) in Hc as [Rc _]. apply slot_of_range.
      change (2 ^ (8 * Z.of_nat 1)) with 256 in Rc. lia.
    - apply (read_uint_Ok 4) in Hc as [Rc _]. apply slot_of_range. exact Rc. }
  apply bind_Ok in H as (ts & s5 & Hts & H).
  assert (Rts : ts <> None <-> version_major (footer_ s) = VersionMajor_value Initial).
  { destruct (Z.eqb_spec (version_major (footer_ s)) (VersionMajor_value Initial)) as [E|E].
    - apply bind_Ok in Hts as (t & s6 & _ & Hts). apply ret_Ok in Hts as [-> _].
      split; [auto | discriminate].
    - apply ret_Ok in Hts as [-> _]. split; [intros Hn; contradiction | intros Hv; contradiction]. }
  apply bind_Ok in H as (h & s6 & Hh & H).
  apply (stream_read_Ok 20) in Hh as [Rh _]; [|discriminate].
  apply bind_Ok in H as (bl & s7 & _ & H).
  apply bind_Ok in H as (fl & s8 & Hfl & H).
  assert (Rfl : version_major (footer_ s) < VersionMajor_value CompressionEncryption ->
                fst fl = 0 /\ snd fl = 0).
  { intros Hlt.
    destruct (Z.leb_spec (VersionMajor_value CompressionEncryption)
                (version_major (footer_ s))) as [Hge|_]; [lia|].
    apply ret_Ok in Hfl as [-> _]. auto. }
  apply ret_Ok in H as [-> _].
  constructor; cbn [offset compressed_size uncompressed_size compression_slot
                     timestamp hash flags compression_block_size]; auto.
  intros [Hlt|Hge]; [auto | lia].
Qed.

Lemma read_entry_fits f E :
  version_major f < VersionMajor_value PathHashIndex ->
  hoare (fitting f) read_entry (fun e s => fitting f s /\ entry_fits f e) E.
Proof.
  intros Hold s Hs.
  assert (HI : stream_insensitive (fitting f)) by (intros s0 p g H0; exact H0).
  pose proof (read_entry_spec (fitting f) f E HI (fun s0 H0 => proj1 H0) s Hs) as Hk.
  destruct (read_entry s) as [e s'| |] eqn:Er; auto.
  split; [apply Hk|]. destruct Hs as [<- _]. eapply read_entry_Ok; eassumption.
Qed.

Lemma fitting_insensitive f : stream_insensitive (fitting f).
Proof. intros s p g H. exact H. Qed.

Lemma assign_entry_fits f path e E :
  entry_fits f e ->
  hoare (fitting f) (assign_entry path e) (fun _ => fitting f) E.
Proof.
  intros He s [Hf Hall]. simpl. split; [exact Hf|].
  rewrite Forall_forall in *. intros x Hx.
  apply In_map_assign in Hx as [->|Hx]; [exact He | apply Hall, Hx].
Qed.

Lemma dummy_entry_fits f :
  VersionMajor_value PathHashIndex <= version_major f -> entry_fits f dummy_entry.
Proof.
  intros Hnew. constructor; cbn; try lia; auto.
  split; [intros Hn; contradiction|].
  change (VersionMajor_value PathHashIndex) with 10 in Hnew. lia.
Qed.

Lemma read_entries_fit f E n :
  version_major f < VersionMajor_value PathHashIndex ->
  hoare (fitting f) (read_entries n) (fun _ => fitting f) E.
Proof.
  intros Hold. assert (HI := fitting_insensitive f).
  induction n as [|n IH]; simpl.
  - apply hoare_ret. auto.
  - reader_step.
    eapply hoare_bind; [apply read_entry_fits, Hold|].
    intros e. cbv beta. apply hoare_pure. intros He.
    eapply hoare_bind; [apply assign_entry_fits, He | intros ?; exact IH].
Qed.

Lemma read_directory_files_fit f E dir_name n :
  VersionMajor_value PathHashIndex <= version_major f ->
  hoare (fitting f) (read_directory_files n dir_name) (fun _ => fitting f) E.
Proof.
  intros Hnew. assert (HI := fitting_insensitive f).
  induction n as [|n IH]; simpl.
  - apply hoare_ret. auto.
  - reader_step. reader_step.
    eapply hoare_bind; [|intros ?; exact IH].
    destruct (_ =? INVALID_OFFSET).
    + apply hoare_ret. auto.
    + apply assign_entry_fits, dummy_entry_fits, Hnew.
Qed.

Lemma read_directories_fit f E n :
  VersionMajor_value PathHashIndex <= version_major f ->
  hoare (fitting f) (read_directories n) (fun _ => fitting f) E.
Proof.
  intros Hnew. assert (HI := fitting_insensitive f).
  induction n as [|n IH]; simpl.
  - apply hoare_ret. auto.
  - reader_step. reader_step.
    eapply hoare_bind; [apply read_directory_files_fit, Hnew | intros ?; exact IH].
Qed.

Lemma read_index_fit f :
  hoare (fitting f) read_index (fun _ => fitting f) (fun _ _ => True).
Proof.
  assert (HI := fitting_insensitive f).
  unfold read_index.
  eapply hoare_bind with (Q := fun v s => fitting f s /\ v = f).
  { intros s Hs. simpl. split; [exact Hs | apply Hs]. }
  intros f'. apply hoare_pure. intros ->.
  reader_step.
  eapply hoare_bind with (Q := fun _ => fitting f).
  { destruct (encrypted f); [apply hoare_throw | apply hoare_ret]; auto. }
  intros ?. reader_step.
  eapply hoare_bind with (Q := fun _ => fitting f).
  { intros s Hs. exact Hs. }
  intros ?. reader_step.
  destruct (Z.leb_spec (VersionMajor_value PathHashIndex) (version_major f)) as [Hnew|Hold].
  - reader_step. reader_step.
    eapply hoare_bind; [apply hoare_reader; [|assumption]|intros ?; cbv beta].
    { destruct (negb _); [|auto with readers].
      apply reader_bind; [auto with readers|]. intros.
      apply reader_bind; auto with readers. }
    reader_step.
    destruct (negb _); [|apply hoare_ret; auto].
    reader_step. reader_step. reader_step. reader_step. reader_step. reader_step.
    eapply hoare_bind; [apply read_directories_fit, Hnew|]. intros ?.
    apply hoare_reader; [auto with readers | assumption].
  - apply read_entries_fit, Hold.
Qed.

Lemma probe_Ok_fresh v :
  forall s s',
    entries_ s = [] ->
    probe v s = Ok tt s' ->
    exists k s0,
      (1 <= k <= v)%nat /\ entries_ s0 = []
      /\ attempt (Version_of_nat k) s0 = Ok tt s'.
Proof.
  induction v as [|v IH]; intros s s' Hs H; [discriminate|].
  cbn [probe] in H.
  pose proof (attempt_spec (Version_of_nat (S v)) s Hs) as Ha.
  destruct (attempt (Version_of_nat (S v)) s) as [[] s1|e s1|] eqn:Ea; try discriminate.
  - injection H as <-. exists (S v), s. split; [lia|]. split; [exact Hs | exact Ea].
  - apply IH in H as (k & s0 & Hk & Hs0 & H); [|exact Ha].
    exists k, s0. split; [lia|]. split; assumption.
Qed.

Lemma open_entries_fit file s :
  Pak.open file = Ok tt s ->
  Forall (fun pe => entry_fits (footer_ s) (snd pe)) (entries_ s).
Proof.
  destruct file as [data|]; [|discriminate]. unfold Pak.open. intros H.
  apply probe_Ok_fresh in H as (k & s0 & _ & Hs0 & H); [|reflexivity].
  unfold attempt in H. apply bind_Ok in H as ([] & s1 & Hf & Hi).
  pose proof (read_footer_keeps_entries [] (Version_of_nat k) s0 Hs0) as Hk.
  rewrite Hf in Hk.
  assert (Hfit : fitting (footer_ s1) s1)
    by (split; [reflexivity | rewrite Hk; constructor]).
  pose proof (read_index_fit (footer_ s1) s1 Hfit) as Hr. rewrite Hi in Hr.
  destruct Hr as [<- Hall]. exact Hall.
Qed.






(** *** The directories of the paths *)

Lemma append_nonempty (a b : string) : (a ++ "/" ++ b)%string <> EmptyString.
Proof. destruct a; discriminate. Qed.

Lemma find_last_of_slash_found a b :
  find_last_of_slash (a ++ "/" ++ b) <> None.
Proof.
  induction a as [|c a IH]; simpl.
  - destruct (find_last_of_slash b); discriminate.
  - destruct (find_last_of_slash _) eqn:E; [discriminate|].
    exfalso. apply IH. reflexivity.
Qed.

(** The last '/' splits the path into [get_directory] and a rest
    without '/'. *)
Lemma find_last_of_slash_split path :
  forall pos,
    find_last_of_slash path = Some pos ->
    exists rest,
      path = (substring 0 pos path ++ "/" ++ rest)%string
      /\ find_last_of_slash rest = None.
Proof.
  induction path as [|c path IH]; intros pos H; [discriminate|].
  simpl in H. destruct (find_last_of_slash path) as [q|] eqn:E.
  - injection H as <-. destruct (IH q eq_refl) as (rest & Hp & Hr).
    exists rest. split; [|exact Hr]. simpl. f_equal. exact Hp.
  - destruct (Ascii.eqb_spec c "/"%char) as [->|]; [|discriminate].
    injection H as <-. exists path. split; [reflexivity | exact E].
Qed.

Lemma slash_split_unique g r d rest :
  find_last_of_slash r = None ->
  (g ++ "/" ++ r)%string = (d ++ "/" ++ rest)%string ->
  d = g \/ exists m, g = (d ++ "/" ++ m)%string.
Proof.
  intros Hr. revert d. induction g as [|c g IH]; intros d H.
  - destruct d as [|c' d]; [left; reflexivity|].
    simpl in H. injection H as _ H. exfalso. subst r.
    exact (find_last_of_slash_found d rest Hr).
  - destruct d as [|c' d].
    + simpl in H. injection H as -> H. right. exists g. reflexivity.
    + simpl in H. injection H as -> H. destruct (IH d H) as [->|(m & ->)].
      * left. reflexivity.
      * right. exists m. reflexivity.
Qed.

(** The parts of [path] that end before a '/' are [get_directory path]
    and its own such parts. *)
Lemma slash_prefix_get_directory path d :
  (exists rest, path = (d ++ "/" ++ rest)%string)
  <-> find_last_of_slash path <> None
      /\ (d = get_directory path
          \/ exists m, get_directory path = (d ++ "/" ++ m)%string).
Proof.
  unfold get_directory. split.
  - intros (rest & Hp).
    destruct (find_last_of_slash path) as [pos|] eqn:E.
    + split; [discriminate|].
      destruct (find_last_of_slash_split path pos E) as (r & Hs & Hr).
      rewrite Hp in Hs at 1. symmetry in Hs.
      destruct (slash_split_unique _ r d rest Hr Hs) as [->|Hm]; auto.
    + exfalso. subst path. exact (find_last_of_slash_found d rest E).
  - intros [Hf Hd]. destruct (find_last_of_slash path) as [pos|] eqn:E; [|contradiction].
    destruct (find_last_of_slash_split path pos E) as (r & Hs & _).
    destruct Hd as [->|(m & Hm)].
    + exists r. exact Hs.
    + rewrite Hm in Hs. exists (m ++ "/" ++ r)%string. rewrite Hs.
      rewrite append_assoc. reflexivity.
Qed.


Lemma get_directory_length dir :
  (String.length (get_directory dir) <= String.length dir)%nat
  /\ (dir <> EmptyString ->
      (String.length (get_directory dir) < String.length dir)%nat).
Proof.
  unfold get_directory. destruct (find_last_of_slash dir) as [pos|] eqn:E.
  - destruct (find_last_of_slash_split dir pos E) as (rest & Hs & _).
    assert (Hl : String.length dir
                 = (String.length (substring 0 pos dir) + S (String.length rest))%nat)
      by (rewrite Hs at 1; rewrite string_length_append; reflexivity).
    lia.
  - simpl. split; [lia|]. destruct dir; [contradiction | simpl; lia].
Qed.

Lemma get_directory_parts dir d :
  d <> EmptyString ->
  (d = get_directory dir \/ (exists m, get_directory dir = (d ++ "/" ++ m)%string))
  <-> exists rest, dir = (d ++ "/" ++ rest)%string.
Proof.
  intros Hd. rewrite (slash_prefix_get_directory dir d). split; [|intros [_ H]; exact H].
  intros H. split; [|exact H]. unfold get_directory in H.
  destruct (find_last_of_slash dir); [discriminate|].
  destruct H as [->|(m & H)]; [contradiction|].
  exfalso. symmetry in H. apply (append_nonempty d m H).
Qed.

Lemma In_set_insert x y dirs : In x (set_insert y dirs) <-> x = y \/ In x dirs.
Proof.
  induction dirs as [|z dirs IH]; simpl.
  - intuition.
  - destruct (String.compare y z) eqn:E; simpl.
    + apply String.compare_eq_iff in E. subst z. intuition.
    + intuition.
    + rewrite IH. intuition.
Qed.

Lemma set_insert_sorted y dirs :
  StronglySorted string_lt dirs -> StronglySorted string_lt (set_insert y dirs).
Proof.
  induction dirs as [|z dirs IH]; simpl; intros Hs.
  - constructor; constructor.
  - apply StronglySorted_inv in Hs as [Hs Hall].
    destruct (String.compare y z) eqn:E.
    + constructor; assumption.
    + constructor; [constructor; assumption|].
      constructor; [exact E|].
      rewrite Forall_forall in *. intros x Hx.
      eapply string_lt_trans; [exact E | apply Hall, Hx].
    + constructor; [apply IH, Hs|].
      rewrite Forall_forall in *. intros x Hx.
      apply In_set_insert in Hx as [->|Hx];
        [apply string_compare_gt, E | apply Hall, Hx].
Qed.

Lemma insert_ancestors_sorted rounds :
  forall dir dirs,
    StronglySorted string_lt dirs ->
    StronglySorted string_lt (insert_ancestors rounds dir dirs).
Proof.
  induction rounds as [|k IH]; intros dir dirs Hs; simpl; [exact Hs|].
  destruct (is_empty dir); [exact Hs|]. apply IH, set_insert_sorted, Hs.
Qed.

(** With as many rounds as [dir] has characters the loop inserts [dir]
    and each of its parts before a '/', the empty one apart. *)
Lemma In_insert_ancestors rounds :
  forall dir dirs d,
    (String.length dir <= rounds)%nat ->
    In d (insert_ancestors rounds dir dirs)
    <-> In d dirs
        \/ (d <> EmptyString
            /\ (d = dir \/ exists m, dir = (d ++ "/" ++ m)%string)).
Proof.
  induction rounds as [|k IH]; intros dir dirs d Hl.
  - destruct dir; [|simpl in Hl; lia]. simpl. split; [auto|].
    intros [H|[Hd [->|(m & H)]]]; [exact H | contradiction|].
    exfalso. symmetry in H. apply (append_nonempty d m H).
  - cbn [insert_ancestors]. destruct dir as [|c dir]; cbn [is_empty].
    + split; [auto|].
      intros [H|[Hd [->|(m & H)]]]; [exact H | contradiction|].
      exfalso. symmetry in H. apply (append_nonempty d m H).
    + destruct (get_directory_length (String c dir)) as [_ Hlt].
      specialize (Hlt ltac:(discriminate)).
      rewrite IH by lia. rewrite In_set_insert. split.
      * intros [[->|H]|[Hd H]]; [right; split; [discriminate | auto] | auto |].
        right. split; [exact Hd|]. right.
        apply (get_directory_parts (String c dir) d Hd). exact H.
      * intros [H|[Hd [->|H]]]; [auto | auto |].
        right. split; [exact Hd|].
        apply (get_directory_parts (String c dir) d Hd). exact H.
Qed.

Lemma directories_fold es :
  forall acc,
    StronglySorted string_lt acc ->
    let dirs :=
      fold_left
        (fun dirs (pe : string * Entry) =>
           insert_ancestors (String.length (fst pe)) (get_directory (fst pe)) dirs)
        es acc in
    StronglySorted string_lt dirs
    /\ forall d, In d dirs
                 <-> In d acc \/ exists p, In p (map fst es) /\ is_directory_of d p.
Proof.
  induction es as [|[p e] es IH]; intros acc Hs; cbn [fold_left map fst].
  - split; [exact Hs|]. intros d. split; [auto|].
    intros [H|(p & [] & _)]. exact H.
  - destruct (IH (insert_ancestors (String.length p) (get_directory p) acc))
      as [Hsorted Hin]; [apply insert_ancestors_sorted, Hs|].
    split; [exact Hsorted|]. intros d. rewrite Hin.
    rewrite In_insert_ancestors by apply get_directory_length.
    split.
    + intros [[H|[Hd H]]|(q & Hq & Hdq)].
      * auto.
      * right. exists p. split; [left; reflexivity|]. split; [exact Hd|].
        apply (get_directory_parts p d Hd). exact H.
      * right. exists q. split; [right; exact Hq | exact Hdq].
    + intros [H|(q & [<-|Hq] & Hdq)].
      * auto.
      * left. right. destruct Hdq as [Hd H]. split; [exact Hd|].
        apply (get_directory_parts p d Hd). exact H.
      * right. exists q. split; assumption.
Qed.

(** X17.  [directories()] lists, in ascending order and once each, the
    non-empty parts of the file paths that end right before a '/': the
    directory of every file and the directories above it, and nothing
    else. *)
Theorem directories_are_the_ancestors_of_the_files s :
  StronglySorted string_lt (directories s)
  /\ NoDup (directories s)
  /\ forall d,
       In d (directories s) <-> exists p, In p (files s) /\ is_directory_of d p.
Proof.
  destruct (directories_fold (entries_ s) [] ltac:(constructor)) as [Hs Hin].
  split; [exact Hs|]. split; [apply sorted_NoDup, Hs|].
  intros d. unfold directories, files. rewrite Hin. split; [|auto].
  intros [[]|H]. exact H.
Qed.


(** *** Strings of the index *)

Lemma to_signed_negative n :
  0 < n <= 2 ^ 31 -> to_signed 32 (2 ^ 32 - n) = - n.
Proof.
  intros Hn. unfold to_signed. change (32 - 1) with 31.
  destruct (Z.ltb_spec (2 ^ 32 - n) (2 ^ 31)); lia.
Qed.

Lemma no_nul_app_nul s :
  no_nul s = true -> until_nul (bytes_of_string s ++ [x00]) = bytes_of_string s.
Proof.
  unfold no_nul. intros H. apply until_nul_terminated.
  apply negb_true_iff in H. exact H.
Qed.

(** X18.  A string without NUL, stored as its length plus one, its
    bytes and a NUL, is what [read_string] returns, and the stream ends
    right behind the NUL. *)
Theorem read_string_narrow_round_trip f s :
  no_nul s = true ->
  Z.of_nat (String.length s) + 1 < 2 ^ 31 ->
  reads f read_string
    (Z_to_le 4 (Z.of_nat (String.length s) + 1) ++ bytes_of_string s ++ [x00]) s f.
Proof.
  intros Hs Hl. unfold read_string.
  eapply reads_bind; [apply reads_u32; lia|]. cbv beta zeta.
  rewrite to_signed_small by lia.
  destruct (Z.ltb_spec (Z.of_nat (String.length s) + 1) 0) as [|_]; [lia|].
  eapply reads_bind_r.
  - apply reads_stream_read.
    rewrite length_app, bytes_of_string_length. simpl. lia.
  - rewrite no_nul_app_nul by exact Hs. rewrite string_of_bytes_of_string.
    apply reads_ret.
Qed.

Lemma read_string_narrow_witness :
  reads initial_footer read_string
    (Z_to_le 4 (Z.of_nat (String.length "a/b.uasset") + 1)
     ++ bytes_of_string "a/b.uasset" ++ [x00])
    "a/b.uasset"%string initial_footer.
Proof.
  apply (read_string_narrow_round_trip initial_footer "a/b.uasset"); vm_compute; reflexivity.
Defined.

Lemma units_of_wide_bytes bs rest :
  units_of_bytes (flat_map (fun b => [b; x00]) bs ++ rest)
  = map byte_to_Z bs ++ units_of_bytes rest.
Proof.
  induction bs as [|b bs IH]; [reflexivity|].
  cbn [flat_map app units_of_bytes le_to_Z map]. rewrite IH.
  change (byte_to_Z x00) with 0. f_equal. lia.
Qed.

Lemma narrow_units bs :
  forallb (fun b => (0 <? byte_to_Z b) && (byte_to_Z b <? 128)) bs = true ->
  map narrow (until_zero (map byte_to_Z bs ++ [0])) = map char_of_byte bs.
Proof.
  induction bs as [|b bs IH]; [reflexivity|].
  cbn [forallb map app until_zero]. intros H.
  apply andb_prop in H as [Hb H]. apply andb_prop in Hb as [H0 H1].
  apply Z.ltb_lt in H0.
  destruct (Z.eqb_spec (byte_to_Z b) 0) as [E|_]; [lia|].
  cbn [map]. rewrite (IH H). f_equal.
  unfold narrow. rewrite H1. unfold char_of_Z, char_of_byte.
  rewrite byte_of_Z_to_Z. reflexivity.
Qed.

Lemma string_of_chars s :
  string_of_list_ascii (map char_of_byte (bytes_of_string s)) = s.
Proof.
  induction s as [|c s IH]; [reflexivity|].
  simpl. unfold char_of_byte at 1. rewrite ascii_of_byte_of_ascii, IH. reflexivity.
Qed.

Lemma wide_bytes_length s :
  List.length (wide_bytes s) = (2 * String.length s)%nat.
Proof.
  unfold wide_bytes. rewrite <- bytes_of_string_length.
  induction (bytes_of_string s) as [|b bs IH]; [reflexivity|].
  cbn [flat_map app List.length]. rewrite IH. lia.
Qed.

(** X19.  A string of 7-bit characters, stored as the negated count of
    its UTF-16 units with the terminator, the units and a zero unit, is
    what [read_string] returns, and the stream ends right behind the
    zero unit. *)
Theorem read_string_wide_round_trip f s :
  ascii7 s = true ->
  Z.of_nat (String.length s) + 1 < 2 ^ 31 ->
  reads f read_string
    (Z_to_le 4 (2 ^ 32 - (Z.of_nat (String.length s) + 1))
     ++ wide_bytes s ++ [x00; x00]) s f.
Proof.
  intros Hs Hl. unfold read_string.
  eapply reads_bind; [apply reads_u32; lia|]. cbv beta zeta.
  rewrite to_signed_negative by lia.
  destruct (Z.ltb_spec (- (Z.of_nat (String.length s) + 1)) 0) as [_|]; [|lia].
  destruct (Z.eqb_spec (- (Z.of_nat (String.length s) + 1)) (- 2 ^ 31)) as [|_]; [lia|].
  eapply reads_bind_r.
  - apply reads_stream_read.
    rewrite length_app, wide_bytes_length. cbn [List.length]. lia.
  - unfold wide_bytes. rewrite units_of_wide_bytes.
    change (units_of_bytes [x00; x00]) with [0].
    rewrite narrow_units by exact Hs. rewrite string_of_chars.
    apply reads_ret.
Qed.

Lemma read_string_wide_witness :
  reads initial_footer read_string
    (Z_to_le 4 (2 ^ 32 - (Z.of_nat (String.length "a/b.uasset") + 1))
     ++ wide_bytes "a/b.uasset" ++ [x00; x00])
    "a/b.uasset"%string initial_footer.
Proof.
  apply (read_string_wide_round_trip initial_footer "a/b.uasset"); vm_compute; reflexivity.
Defined.


(** *** The file behind the members *)

Lemma data_insensitive d : stream_insensitive (fun s => stream_data s = d).
Proof. intros s p g H. exact H. Qed.

(** [read_footer] keeps what neither the stream position nor the footer
    can change, whether it returns or throws. *)
Lemma read_footer_keeps (Inv : Impl -> Prop) version :
  stream_insensitive Inv ->
  (forall s f, Inv s -> Inv (set_footer_ s f)) ->
  hoare Inv (read_footer version) (fun _ => Inv) (fun _ => Inv).
Proof.
  intros HI HF.
  assert (Hupd : forall g, hoare Inv (upd_footer g) (fun _ => Inv) (fun _ => Inv))
    by (intros g; apply hoare_upd_footer; intros s Hs; apply HF, Hs).
  assert (Hck : forall (c : bool) e,
             hoare Inv (if c then throw e else ret tt) (fun _ : unit => Inv) (fun _ => Inv))
    by (intros [|] e; [apply hoare_throw | apply hoare_ret]; auto).
  assert (Hflag : forall (c : bool) (g : bool -> Footer -> Footer),
             hoare Inv (if c then b <- read_bool ;; upd_footer (g b)
                        else upd_footer (g false))
               (fun _ => Inv) (fun _ => Inv)).
  { intros [|] g; [|apply Hupd].
    eapply hoare_bind; [apply hoare_read_bool, HI|]. intros b. apply Hupd. }
  unfold read_footer, read_footer_fields. reader_step.
  eapply hoare_bind with (Q := fun _ => Inv).
  { destruct (major_ge _ _); [|apply Hupd]. reader_step. apply Hupd. }
  intros ?. eapply hoare_bind; [apply Hflag|]. intros ?. reader_step.
  eapply hoare_bind; [apply Hck|]. intros ?.
  eapply hoare_bind; [apply Hupd|]. intros ?. reader_step.
  eapply hoare_bind; [apply Hupd|]. intros ?. reader_step.
  eapply hoare_bind; [apply Hck|]. intros ?. reader_step.
  eapply hoare_bind; [apply Hupd|]. intros ?. reader_step.
  eapply hoare_bind; [apply Hupd|]. intros ?. reader_step.
  eapply hoare_bind; [apply Hupd|]. intros ?.
  eapply hoare_bind; [apply Hflag|]. intros ?. reader_step.
  eapply hoare_bind; [apply Hupd|]. intros ?.
  eapply hoare_bind with (Q := fun _ => Inv).
  { destruct (negb _); [apply Hupd | apply hoare_ret; auto]. }
  intros ?. apply Hupd.
Qed.

Section IndexLoops.
Variable Inv : Impl -> Prop.
Variable f : Footer.
Variable E : PakException -> Impl -> Prop.
Hypothesis HI : stream_insensitive Inv.
Hypothesis Hf : forall s, Inv s -> footer_ s = f.
Hypothesis Ha : forall s m, Inv s -> Inv (set_entries_ s m).

Lemma assign_entry_keeps path e :
  hoare Inv (assign_entry path e) (fun _ => Inv) E.
Proof. intros s Hs. apply Ha, Hs. Qed.

Lemma read_entries_keep n :
  hoare Inv (read_entries n) (fun _ => Inv) E.
Proof.
  induction n as [|n IH]; simpl.
  - apply hoare_ret. auto.
  - reader_step.
    eapply hoare_bind; [apply (read_entry_spec Inv f E HI Hf)|].
    intros e. cbv beta. apply hoare_pure. intros _.
    eapply hoare_bind; [apply assign_entry_keeps | intros ?; exact IH].
Qed.

Lemma read_directory_files_keep dir_name n :
  hoare Inv (read_directory_files n dir_name) (fun _ => Inv) E.
Proof.
  induction n as [|n IH]; simpl.
  - apply hoare_ret. auto.
  - reader_step. reader_step.
    eapply hoare_bind; [|intros ?; exact IH].
    destruct (_ =? INVALID_OFFSET); [apply hoare_ret; auto | apply assign_entry_keeps].
Qed.

Lemma read_directories_keep n :
  hoare Inv (read_directories n) (fun _ => Inv) E.
Proof.
  induction n as [|n IH]; simpl.
  - apply hoare_ret. auto.
  - reader_step. reader_step.
    eapply hoare_bind; [apply read_directory_files_keep | intros ?; exact IH].
Qed.

End IndexLoops.

Lemma stream_read_good n s bs s' :
  stream_read n s = Ok bs s' -> stream_good s = true.
Proof.
  unfold stream_read. destruct (stream_good s); [reflexivity | discriminate].
Qed.

Lemma read_string_good s str s' :
  read_string s = Ok str s' -> stream_good s = true.
Proof.
  unfold read_string, read_uint. intros H.
  apply bind_Ok in H as (raw & s1 & H & _).
  apply bind_Ok in H as (bs & s2 & H & _).
  eapply stream_read_good, H.
Qed.

(** [read_index] reads the mount point as the first thing at the index
    offset, and nothing after it assigns to the mount point. *)
Lemma read_index_mount d f :
  hoare (fun s => stream_data s = d /\ footer_ s = f) read_index
    (fun _ s =>
       stream_data s = d /\ footer_ s = f
       /\ exists s1 s2,
            stream_data s1 = d /\ stream_pos s1 = index_offset f
            /\ read_string s1 = Ok (mount_point_ s) s2)
    (fun _ s => stream_data s = d).
Proof.
  set (P := fun s : Impl => stream_data s = d /\ footer_ s = f).
  set (J := fun s : Impl =>
              stream_data s = d /\ footer_ s = f
              /\ exists s1 s2,
                   stream_data s1 = d /\ stream_pos s1 = index_offset f
                   /\ read_string s1 = Ok (mount_point_ s) s2).
  unfold read_index.
  eapply hoare_bind with (Q := fun v s => P s /\ v = f).
  { intros s Hs. simpl. split; [exact Hs | apply Hs]. }
  intros f'. apply hoare_pure. intros ->.
  eapply hoare_bind with
    (Q := fun _ s => P s /\ (stream_good s = true -> stream_pos s = index_offset f)).
  { intros s Hs. unfold seekg. destruct (stream_good s) eqn:Eg.
    - destruct (_ <? 0); simpl; (split; [exact Hs|]); [discriminate | reflexivity].
    - split; [exact Hs|]. rewrite Eg. discriminate. }
  intros ?.
  eapply hoare_bind with
    (Q := fun _ s => P s /\ (stream_good s = true -> stream_pos s = index_offset f)).
  { destruct (encrypted f); [apply hoare_throw | apply hoare_ret]; auto.
    intros s [[Hd _] _]. exact Hd. }
  intros ?.
  eapply hoare_bind with
    (Q := fun mp s =>
            P s /\ exists s1 s2,
                     stream_data s1 = d /\ stream_pos s1 = index_offset f
                     /\ read_string s1 = Ok mp s2).
  { intros s [Hs Hpos].
    pose proof (reader_read_string s) as Hr.
    destruct (read_string s) as [mp s'| |] eqn:Er; [|contradiction|exact I].
    destruct Hr as (p & g & ->). split; [exact Hs|].
    exists s, (set_stream s p g). split; [apply Hs|]. split; [|exact Er].
    apply Hpos. eapply read_string_good, Er. }
  intros mp. cbv beta.
  eapply hoare_bind with (Q := fun _ => J).
  { intros s [[Hd Hfs] Hm]. simpl. split; [exact Hd|]. split; [exact Hfs | exact Hm]. }
  intros ?.
  assert (HJ : stream_insensitive J) by (intros s p g H; exact H).
  assert (HJf : forall s, J s -> footer_ s = f) by (intros s H; apply H).
  assert (HJa : forall s m, J s -> J (set_entries_ s m)) by (intros s m H; exact H).
  eapply hoare_weaken with (P := J) (Q := fun _ => J) (E := fun _ => J);
    [|auto|auto|intros e s H; apply H].
  reader_step.
  destruct (VersionMajor_value PathHashIndex <=? version_major f).
  - reader_step. reader_step.
    eapply hoare_bind; [apply hoare_reader; [|assumption]|intros ?; cbv beta].
    { destruct (negb _); [|auto with readers].
      apply reader_bind; [auto with readers|]. intros.
      apply reader_bind; auto with readers. }
    reader_step.
    destruct (negb _); [|apply hoare_ret; auto].
    reader_step. reader_step. reader_step. reader_step. reader_step. reader_step.
    eapply hoare_bind; [apply read_directories_keep; assumption|]. intros ?.
    apply hoare_reader; [auto with readers | assumption].
  - apply read_entries_keep with (f := f); assumption.
Qed.

Lemma read_uint_good n s v s' :
  read_uint n s = Ok v s' -> stream_good s = true.
Proof.
  unfold read_uint. intros H. apply bind_Ok in H as (bs & s1 & H & _).
  eapply stream_read_good, H.
Qed.

Lemma read_footer_fields_good v s s' :
  read_footer_fields v s = Ok tt s' -> stream_good s = true.
Proof.
  unfold read_footer_fields. intros H.
  apply bind_Ok in H as (w1 & s1 & H1 & H).
  destruct (major_ge (version_to_major v) EncryptionKeyGuid).
  { apply bind_Ok in H1 as (u & s2 & H1 & _). eapply read_uint_good, H1. }
  apply upd_footer_Ok in H1. subst s1.
  apply bind_Ok in H as (w2 & s2 & H2 & H).
  destruct (major_ge (version_to_major v) IndexEncryption).
  { apply bind_Ok in H2 as (b & s3 & H2 & _). unfold read_bool in H2.
    apply bind_Ok in H2 as (x & s4 & H2 & _). apply read_uint_good in H2. exact H2. }
  apply upd_footer_Ok in H2. subst s2.
  apply bind_Ok in H as (mg & s3 & H3 & _). apply read_uint_good in H3. exact H3.
Qed.

(** What the attempt that [probe] returns from has gone through. *)
Lemma attempt_Ok_data d v s s' :
  stream_data s = d ->
  attempt v s = Ok tt s' ->
  get_footer_size v <= Z.of_nat (List.length d)
  /\ stream_data s' = d
  /\ exists s1 s2,
       stream_data s1 = d /\ stream_pos s1 = index_offset (footer_ s')
       /\ read_string s1 = Ok (mount_point_ s') s2.
Proof.
  intros Hd H. unfold attempt in H. apply bind_Ok in H as ([] & s1 & Hf & Hi).
  assert (Hd1 : stream_data s1 = d).
  { pose proof (read_footer_keeps (fun s => stream_data s = d) v
                  (data_insensitive d) (fun s f H => H) s Hd) as Hk.
    rewrite Hf in Hk. exact Hk. }
  pose proof (read_index_mount d (footer_ s1) s1 (conj Hd1 eq_refl)) as Hm.
  rewrite Hi in Hm. destruct Hm as (Hd' & Hf' & Hm). rewrite <- Hf' in Hm.
  split; [|split; assumption].
  unfold read_footer in Hf. apply bind_Ok in Hf as ([] & sa & Hs & Hf).
  pose proof (read_footer_fields_good _ _ _ Hf) as Eg.
  unfold seekg_end, file_size in Hs. rewrite Hd in Hs.
  destruct (stream_good s) eqn:Eg0.
  - destruct (Z.ltb_spec (Z.of_nat (List.length d) + - get_footer_size v) 0) as [Hlt|Hge].
    + injection Hs as <-. discriminate Eg.
    + lia.
  - injection Hs as <-. rewrite Eg0 in Eg. discriminate.
Qed.

Lemma attempt_keeps_data d v :
  hoare (fun s => stream_data s = d) (attempt v)
    (fun _ s => stream_data s = d) (fun _ s => stream_data s = d).
Proof.
  unfold attempt.
  eapply hoare_bind with (Q := fun _ s => stream_data s = d).
  { apply read_footer_keeps; [apply data_insensitive | auto]. }
  intros ? s Hs.
  pose proof (read_index_mount d (footer_ s) s (conj Hs eq_refl)) as H.
  destruct (read_index s) as [u s'|e s'|]; [apply H | exact H | exact I].
Qed.

Lemma probe_Ok_data d v :
  forall s s',
    stream_data s = d ->
    probe v s = Ok tt s' ->
    exists k s0,
      (1 <= k <= v)%nat /\ stream_data s0 = d
      /\ attempt (Version_of_nat k) s0 = Ok tt s'.
Proof.
  induction v as [|v IH]; intros s s' Hs H; [discriminate|].
  cbn [probe] in H.
  pose proof (attempt_keeps_data d (Version_of_nat (S v)) s Hs) as Ha.
  destruct (attempt (Version_of_nat (S v)) s) as [[] s1|e s1|] eqn:Ea; try discriminate.
  - injection H as <-. exists (S v), s. split; [lia|]. split; [exact Hs | exact Ea].
  - apply IH in H as (k & s0 & Hk & Hs0 & H); [|exact Ha].
    exists k, s0. split; [lia|]. split; assumption.
Qed.

Lemma bind_eq {A B} (m : M A) (k : A -> M B) s a s1 :
  m s = Ok a s1 -> bind m k s = k a s1.
Proof. intros H. unfold bind. rewrite H. reflexivity. Qed.

Lemma stream_read_of_stream n s t bs s' :
  stream_data t = stream_data s ->
  stream_pos t = stream_pos s ->
  stream_good t = stream_good s ->
  stream_read n s = Ok bs s' ->
  exists t',
    stream_read n t = Ok bs t'
    /\ stream_data t' = stream_data s'
    /\ stream_pos t' = stream_pos s'
    /\ stream_good t' = stream_good s'.
Proof.
  intros Hd Hp Hg. unfold stream_read, file_size. rewrite Hd, Hp, Hg.
  destruct (stream_good s && _); [|discriminate].
  intros H; injection H as <- <-. eexists. split; [reflexivity|].
  cbn [set_stream stream_data stream_pos stream_good]. auto.
Qed.

(** [read_string] looks at the stream only. *)
Lemma read_string_of_stream s t str s' :
  stream_data t = stream_data s ->
  stream_pos t = stream_pos s ->
  stream_good t = stream_good s ->
  read_string s = Ok str s' ->
  exists t', read_string t = Ok str t'.
Proof.
  intros Hd Hp Hg H. unfold read_string in *.
  apply bind_Ok in H as (raw & s1 & H1 & H).
  assert (Hraw : exists t1,
             read_uint 4 t = Ok raw t1
             /\ stream_data t1 = stream_data s1
             /\ stream_pos t1 = stream_pos s1
             /\ stream_good t1 = stream_good s1).
  { unfold read_uint in *. apply bind_Ok in H1 as (bs & s2 & H1 & Hret).
    apply ret_Ok in Hret as [-> ->].
    destruct (stream_read_of_stream _ _ _ _ _ Hd Hp Hg H1) as (t2 & Ht & Hs).
    exists t2. rewrite (bind_eq _ _ _ _ _ Ht). split; [reflexivity | exact Hs]. }
  destruct Hraw as (t1 & Ht1 & Hd1 & Hp1 & Hg1).
  rewrite (bind_eq _ _ _ _ _ Ht1). cbv zeta in *.
  destruct (to_signed 32 raw <? 0).
  - destruct (to_signed 32 raw =? - 2 ^ 31); [discriminate|].
    apply bind_Ok in H as (bs & s2 & H2 & Hret). apply ret_Ok in Hret as [-> _].
    destruct (stream_read_of_stream _ _ _ _ _ Hd1 Hp1 Hg1 H2) as (t2 & Ht & _).
    rewrite (bind_eq _ _ _ _ _ Ht). eexists. reflexivity.
  - apply bind_Ok in H as (bs & s2 & H2 & Hret). apply ret_Ok in Hret as [-> _].
    destruct (stream_read_of_stream _ _ _ _ _ Hd1 Hp1 Hg1 H2) as (t2 & Ht & _).
    rewrite (bind_eq _ _ _ _ _ Ht). eexists. reflexivity.
Qed.

Lemma read_string_in_file s str s' :
  read_string s = Ok str s' ->
  0 <= stream_pos s /\ stream_pos s + 4 <= file_size s.
Proof.
  unfold read_string, read_uint. intros H.
  apply bind_Ok in H as (raw & s1 & H & _).
  apply bind_Ok in H as (bs & s2 & H & _).
  unfold stream_read in H. destruct (stream_good s); [|discriminate].
  cbn [andb orb Z.eqb] in H.
  destruct (Z.leb_spec 0 (stream_pos s)); [|discriminate].
  destruct (Z.leb_spec (stream_pos s + 4) (file_size s)); [|discriminate].
  lia.
Qed.



End PakExtra.
